(** * Reliable transaction execution: nonce coordinator, circuit breaker,
      idempotency cache and retrying submitter of the HAVEN token backend.

    Shallow embedding of
      - [backend/services/nonce_manager.py]
      - [backend/middleware/circuit_breaker.py]
      - [backend/middleware/idempotency.py]
      - [backend/services/token_agent.py]

    Conventions.
      - A Python method becomes a function in a state-and-exception monad
        over an explicit world; [raise], [try/except] and [try/finally]
        are [raise], [try_except] and [finally].
      - Redis is a finite map from keys to strings with an optional expiry
        instant; a key is visible to [GET], [SET NX] and [INCR] until that
        instant.  The store is taken to answer every command.
      - The clock counts milliseconds ([time.sleep(0.1)] is a step of
        [100]) and moves only when the code sleeps or when a step handed
        in from outside (the body of a [with] block, a wrapped function)
        moves it.
      - [int(x * 1.2)] goes through an IEEE double, as in CPython: the
        integer is rounded to 53 bits, multiplied by the double nearest to
        1.2 and truncated toward zero; a value out of range raises
        [OverflowError].
      - The relational database keeps the UNIQUE and FOREIGN KEY
        constraints that [database/models.py] declares on the rows the
        code writes; a commit that violates one raises and leaves the
        session unusable until rolled back, as SQLAlchemy does.  Column
        lengths are not checked, and the database answers every other
        statement.
      - The chain provider is an oracle held in the world; for the
        submitter, which calls it repeatedly, the oracle is indexed by the
        number of earlier calls, and every call is written to a log.
      - A [for ... in range(n)] loop is a recursion on the iterations left
        that also carries the loop index; [continue] is the recursive
        call. *)

From Stdlib Require Import ZArith String Ascii List Bool Lia.
From Stdlib Require Import DecimalString DecimalZ DecimalPos.
From Stdlib Require Import SpecFloat.
From stdpp Require Import base option gmap strings.

Local Open Scope string_scope.
Local Open Scope list_scope.
Local Open Scope Z_scope.

(* ===================================================================== *)
(** ** Python values, exceptions and the execution monad                  *)
(* ===================================================================== *)

Module Py.

(** The exception classes that the embedded code raises, catches or tests
    with [isinstance]. *)
Inductive exc_class :=
| Exception_        (* plain [Exception] *)
| RuntimeError
| ValueError
| KeyError
| TypeError
| ConnectionError_  (* builtin [ConnectionError] *)
| TimeExhausted     (* web3.exceptions *)
| TransactionNotFound
| ResponseError     (* redis.exceptions *)
| RedisTimeoutError (* redis.exceptions.TimeoutError *)
| CircuitBreakerOpenError
| OverflowError
| IntegrityError        (* sqlalchemy.exc *)
| PendingRollbackError. (* sqlalchemy.exc *)

Global Instance exc_class_eq_dec : EqDecision exc_class.
Proof. solve_decision. Defined.

(** An exception object: its class, [str(e)], and for
    [CircuitBreakerOpenError] the [details] dictionary
    ([failure_count] and [state]). *)
Record exn := Exn {
  exc_cls : exc_class;
  exc_msg : string;
  exc_details : list (string * string)
}.

Global Instance exn_eq_dec : EqDecision exn.
Proof. solve_decision. Defined.

Definition mk_exn (c : exc_class) (msg : string) : exn := Exn c msg [].

Inductive outcome (A : Type) :=
| Ok (a : A)
| Raise (e : exn).
Arguments Ok {A} a.
Arguments Raise {A} e.

(** Computations over a state [S] that return or raise. *)
Definition M (S A : Type) : Type := S -> outcome A * S.

Definition ret {S A} (a : A) : M S A := fun s => (Ok a, s).
Definition raise {S A} (e : exn) : M S A := fun s => (Raise e, s).

Definition bind {S A B} (m : M S A) (k : A -> M S B) : M S B :=
  fun s =>
    match m s with
    | (Ok a, s') => k a s'
    | (Raise e, s') => (Raise e, s')
    end.

(** [try: body finally: fin] -- [fin] runs on every exit of [body]; an
    exception raised by [fin] itself replaces the outcome of [body]. *)
Definition finally {S A} (body : M S A) (fin : M S unit) : M S A :=
  fun s =>
    match body s with
    | (r, s') =>
        match fin s' with
        | (Ok _, s'') => (r, s'')
        | (Raise e, s'') => (Raise e, s'')
        end
    end.

(** [try: body except <classes matched by handles> as e: handler e]. *)
Definition try_except {S A} (body : M S A) (handles : exn -> bool)
    (handler : exn -> M S A) : M S A :=
  fun s =>
    match body s with
    | (Ok a, s') => (Ok a, s')
    | (Raise e, s') => if handles e then handler e s' else (Raise e, s')
    end.

Definition gets {S A} (f : S -> A) : M S A := fun s => (Ok (f s), s).
Definition modify {S} (f : S -> S) : M S unit := fun s => (Ok tt, f s).

(** [str(n)] and [int(s)] for integers.  [int] accepts the canonical
    decimal renderings (optional leading minus sign, digits); every other
    string raises [ValueError]. *)
Definition str_of_int (z : Z) : string :=
  NilZero.string_of_int (Z.to_int z).

Definition parse_int (s : string) : option Z :=
  option_map Z.of_int (NilZero.int_of_string s).

Definition int_of_str {S} (s : string) : M S Z :=
  match parse_int s with
  | Some z => ret z
  | None =>
      raise (mk_exn ValueError ("invalid literal for int() with base 10: " +:+ s))
  end.

(** [s.lower()] on the ASCII range. *)
Definition lower_ascii (c : ascii) : ascii :=
  let n := nat_of_ascii c in
  if (Nat.leb 65 n && Nat.leb n 90)%bool then ascii_of_nat (n + 32) else c.

Fixpoint lower (s : string) : string :=
  match s with
  | EmptyString => EmptyString
  | String c s' => String (lower_ascii c) (lower s')
  end.

(** [pattern in text] for strings. *)
Fixpoint contains (pattern text : string) : bool :=
  if String.prefix pattern text then true
  else match text with
       | EmptyString => false
       | String _ rest => contains pattern rest
       end.

End Py.

Import Py.

Declare Scope py_scope.
Delimit Scope py_scope with py.
Notation "x <- m ;; k" := (bind m (fun x => k))
  (at level 100, m at next level, right associativity) : py_scope.
Notation "m ;;; k" := (bind m (fun _ => k))
  (at level 100, right associativity) : py_scope.
Local Open Scope py_scope.

(* ===================================================================== *)
(** ** The coordination store (Redis) and the clock                       *)
(* ===================================================================== *)

Module Redis.

(** A stored string with its optional expiry instant (milliseconds). *)
Record entry := Entry {
  value : string;
  expires_at : option Z
}.

Global Instance entry_eq_dec : EqDecision entry.
Proof. solve_decision. Defined.

(** The world seen by the Redis-backed components: the wall clock, the
    keyspace, and the chain's [eth.get_transaction_count] per address. *)
Record World := mkWorld {
  now : Z;
  db : gmap string entry;
  chain : string -> outcome Z
}.

Definition set_db (f : gmap string entry -> gmap string entry) (w : World) : World :=
  mkWorld (now w) (f (db w)) (chain w).

(** A key is visible until its expiry instant is reached. *)
Definition live (t : Z) (e : entry) : bool :=
  match expires_at e with
  | None => true
  | Some d => t <? d
  end.

Definition lookup_live (k : string) (w : World) : option string :=
  match db w !! k with
  | Some e => if live (now w) e then Some (value e) else None
  | None => None
  end.

(** [time.time()] and [time.sleep(d)]. *)
Definition time_time : M World Z := gets now.

Definition advance (d : Z) (w : World) : World :=
  mkWorld (now w + d) (db w) (chain w).

Definition sleep (d : Z) : M World unit := modify (advance d).

(** [GET key]. *)
Definition get (k : string) : M World (option string) :=
  gets (lookup_live k).

(** [SET key value]: overwrites and clears any expiry. *)
Definition set (k v : string) : M World unit :=
  modify (set_db (insert k (Entry v None))).

(** [SET key value NX EX seconds]: the server rejects a non-positive
    expiry; otherwise the key is written only if absent, and the reply
    is truthy exactly when it was written. *)
Definition set_nx_ex (k v : string) (ex : Z) : M World bool :=
  if ex <=? 0 then
    raise (mk_exn ResponseError "invalid expire time in 'set' command")
  else fun w =>
    match lookup_live k w with
    | Some _ => (Ok false, w)
    | None =>
        (Ok true, set_db (insert k (Entry v (Some (now w + 1000 * ex)))) w)
    end.

(** [SETEX key seconds value]. *)
Definition setex (k : string) (ttl : Z) (v : string) : M World unit :=
  if ttl <=? 0 then
    raise (mk_exn ResponseError "invalid expire time in 'setex' command")
  else fun w =>
    (Ok tt, set_db (insert k (Entry v (Some (now w + 1000 * ttl)))) w).

(** [DEL key]. *)
Definition delete (k : string) : M World unit :=
  modify (set_db (base.delete k)).

(** [INCR key]: a missing key counts as 0; a value that is not an integer
    is an error.  The expiry of an existing key is kept. *)
Definition incr (k : string) : M World Z :=
  fun w =>
    match db w !! k with
    | Some e =>
        if live (now w) e then
          match parse_int (value e) with
          | Some n =>
              (Ok (n + 1),
               set_db (insert k (Entry (str_of_int (n + 1)) (expires_at e))) w)
          | None =>
              (Raise (mk_exn ResponseError
                        "value is not an integer or out of range"), w)
          end
        else (Ok 1, set_db (insert k (Entry (str_of_int 1) None)) w)
    | None => (Ok 1, set_db (insert k (Entry (str_of_int 1) None)) w)
    end.

End Redis.

Import Redis.

(* ===================================================================== *)
(** ** services/nonce_manager.py                                          *)
(* ===================================================================== *)

Module NonceManager.

(** [NonceManager.__init__]: the Redis client and the Web3 handle live in
    the world; the object itself keeps [lock_timeout] (seconds). *)
Record t := mk { lock_timeout : Z }.

Definition _get_nonce_key (wallet_address : string) : string :=
  "nonce:" +:+ lower wallet_address.

Definition _get_lock_key (wallet_address : string) : string :=
  "nonce:lock:" +:+ lower wallet_address.

(** [w3.eth.get_transaction_count(Web3.to_checksum_address(a))]; the
    oracle [chain] also stands for a checksum or RPC failure. *)
Definition get_transaction_count (wallet_address : string) : M World Z :=
  fun w => (chain w wallet_address, w).

(** [timeout or self.lock_timeout] *)
Definition timeout_or (timeout : option Z) (default : Z) : Z :=
  match timeout with
  | Some x => if x =? 0 then default else x
  | None => default
  end.

(** [lock_id = str(time.time())] *)
Definition lock_id_at (w : World) : string := str_of_int (now w).

Definition lock_error (wallet_address : string) : exn :=
  mk_exn RuntimeError
    ("Failed to acquire nonce lock for " +:+ wallet_address +:+ " after 10 attempts").

(** The [finally] block of [acquire_lock]: release only if still owned. *)
Definition release_lock (lock_key lock_id : string) : M World unit :=
  stored_lock <- get lock_key ;;
  if decide (stored_lock = Some lock_id) then delete lock_key else ret tt.

(** The [for attempt in range(max_retries)] loop of [acquire_lock]; the
    [yield True] of the context manager is the point where [body], the
    block under [with], runs. *)
Fixpoint acquire_loop {A} (attempts : nat) (wallet_address lock_key lock_id : string)
    (timeout retry_delay : Z) (body : M World A) : M World A :=
  match attempts with
  | O => raise (lock_error wallet_address)
  | S rest =>
      acquired <- set_nx_ex lock_key lock_id timeout ;;
      if acquired : bool then
        finally body (release_lock lock_key lock_id)
      else
        sleep retry_delay ;;;
        acquire_loop rest wallet_address lock_key lock_id timeout
          (Z.min (retry_delay * 2) 5000) body
  end.

Definition max_retries : nat := 10.

(** [with self.acquire_lock(wallet_address, timeout): body] *)
Definition acquire_lock {A} (self : t) (wallet_address : string)
    (timeout : option Z) (body : M World A) : M World A :=
  let lock_key := _get_lock_key wallet_address in
  let timeout := timeout_or timeout (lock_timeout self) in
  t0 <- time_time ;;
  let lock_id := str_of_int t0 in
  acquire_loop max_retries wallet_address lock_key lock_id timeout 100 body.

Definition get_nonce (self : t) (wallet_address : string) (force_sync : bool)
    : M World Z :=
  let wallet_address := lower wallet_address in
  let nonce_key := _get_nonce_key wallet_address in
  acquire_lock self wallet_address None (
    stored_nonce <- get nonce_key ;;
    blockchain_nonce <- get_transaction_count wallet_address ;;
    match stored_nonce, force_sync with
    | Some s, false =>
        stored_nonce <- int_of_str s ;;
        let nonce := Z.max stored_nonce blockchain_nonce in
        (if decide (nonce <> stored_nonce)
         then set nonce_key (str_of_int nonce) else ret tt) ;;;
        ret nonce
    | _, _ =>
        let nonce := blockchain_nonce in
        set nonce_key (str_of_int nonce) ;;;
        ret nonce
    end).

Definition increment_nonce (self : t) (wallet_address : string) : M World Z :=
  let wallet_address := lower wallet_address in
  let nonce_key := _get_nonce_key wallet_address in
  acquire_lock self wallet_address None (
    current_nonce <- get_nonce self wallet_address false ;;
    let new_nonce := current_nonce + 1 in
    set nonce_key (str_of_int new_nonce) ;;;
    ret new_nonce).

Definition reset_nonce (self : t) (wallet_address : string) : M World Z :=
  let wallet_address := lower wallet_address in
  let nonce_key := _get_nonce_key wallet_address in
  acquire_lock self wallet_address None (
    blockchain_nonce <- get_transaction_count wallet_address ;;
    set nonce_key (str_of_int blockchain_nonce) ;;;
    ret blockchain_nonce).

Definition reserve_nonce (self : t) (wallet_address : string) : M World Z :=
  let wallet_address := lower wallet_address in
  let nonce_key := _get_nonce_key wallet_address in
  acquire_lock self wallet_address None (
    current_nonce <- get_nonce self wallet_address false ;;
    let new_nonce := current_nonce + 1 in
    set nonce_key (str_of_int new_nonce) ;;;
    ret current_nonce).

Definition handle_nonce_error (self : t) (wallet_address : string)
    (failed_nonce : Z) : M World Z :=
  let wallet_address := lower wallet_address in
  acquire_lock self wallet_address None (
    blockchain_nonce <- get_transaction_count wallet_address ;;
    let nonce_key := _get_nonce_key wallet_address in
    set nonce_key (str_of_int blockchain_nonce) ;;;
    ret blockchain_nonce).

End NonceManager.

(** Auxiliary notions used to state the lease and nonce theorems. *)
Module NonceAux.
Import NonceManager.

(** [n] successive [reserve_nonce] calls, collecting what each returns. *)
Fixpoint reserve_many (self : t) (wallet_address : string) (n : nat) (w : World)
    : list (outcome Z) * World :=
  match n with
  | O => ([], w)
  | S k =>
      let (r, w1) := reserve_nonce self wallet_address w in
      let (rs, w2) := reserve_many self wallet_address k w1 in
      (r :: rs, w2)
  end.

(** Offset of the last of [n] acquisition attempts, and the total time
    slept when all [n] fail, for a first delay [d]. *)
Fixpoint last_attempt (n : nat) (d : Z) : Z :=
  match n with
  | O => 0
  | S O => 0
  | S m => d + last_attempt m (Z.min (d * 2) 5000)
  end.

Fixpoint total_backoff (n : nat) (d : Z) : Z :=
  match n with
  | O => 0
  | S m => d + total_backoff m (Z.min (d * 2) 5000)
  end.

(** The world right after this acquisition wrote the lock key. *)
Definition with_lease (k id : string) (timeout : Z) (w : World) : World :=
  set_db (insert k (Entry id (Some (now w + 1000 * timeout)))) w.

(** The world after a completed [with acquire_lock] block that started
    with the lock key free: the lock key is gone again, and the nonce key
    holds [str(n)] when a value [n] was persisted. *)
Definition settled (lock_key nonce_key : string) (persisted : option Z)
    (w : World) : World :=
  set_db (fun d =>
            base.delete lock_key
              match persisted with
              | Some n => <[nonce_key := Entry (str_of_int n) None]> d
              | None => d
              end) w.

End NonceAux.

Module NonceExamples.
Import NonceManager.

Definition wallet : string := "0xAbCd000000000000000000000000000000000001".

Definition world0 (c : Z) : World :=
  mkWorld 1000000 ∅ (fun _ => Ok c).

End NonceExamples.



(* ===================================================================== *)
(** ** middleware/circuit_breaker.py                                      *)
(* ===================================================================== *)

Module CircuitBreaker.

Inductive CircuitState := CLOSED | OPEN | HALF_OPEN.

Global Instance CircuitState_eq_dec : EqDecision CircuitState.
Proof. solve_decision. Defined.

(** [state.value] and [CircuitState(value)]. *)
Definition state_value (s : CircuitState) : string :=
  match s with
  | CLOSED => "closed"
  | OPEN => "open"
  | HALF_OPEN => "half_open"
  end.

Definition state_of_value (v : string) : option CircuitState :=
  if decide (v = "closed") then Some CLOSED
  else if decide (v = "open") then Some OPEN
  else if decide (v = "half_open") then Some HALF_OPEN
  else None.

(** [expected_exception] is an exception class; what matters is which
    raised exceptions are instances of it. *)
Record CircuitBreakerConfig := mkConfig {
  failure_threshold : Z;
  success_threshold : Z;
  timeout_seconds : Z;
  expected_exception : exn -> bool
}.

Definition default_config : CircuitBreakerConfig :=
  mkConfig 5 2 30 (fun _ => true).

Record t := mk {
  name : string;
  config : CircuitBreakerConfig
}.

Definition _get_state_key (self : t) : string :=
  "circuit_breaker:" +:+ name self +:+ ":state".
Definition _get_failure_count_key (self : t) : string :=
  "circuit_breaker:" +:+ name self +:+ ":failures".
Definition _get_success_count_key (self : t) : string :=
  "circuit_breaker:" +:+ name self +:+ ":successes".
Definition _get_last_failure_key (self : t) : string :=
  "circuit_breaker:" +:+ name self +:+ ":last_failure".

Definition get_state (self : t) : M World CircuitState :=
  state <- get (_get_state_key self) ;;
  match state with
  | None => ret CLOSED
  | Some v =>
      match state_of_value v with
      | Some s => ret s
      | None =>
          raise (mk_exn ValueError (v +:+ " is not a valid CircuitState"))
      end
  end.

Definition _set_state (self : t) (state : CircuitState) : M World unit :=
  set (_get_state_key self) (state_value state).

(** [int(count) if count else 0] *)
Definition int_or_zero (count : option string) : M World Z :=
  match count with
  | None => ret 0
  | Some EmptyString => ret 0
  | Some s => int_of_str s
  end.

Definition _get_failure_count (self : t) : M World Z :=
  count <- get (_get_failure_count_key self) ;;
  int_or_zero count.

Definition _increment_failure_count (self : t) : M World Z :=
  count <- incr (_get_failure_count_key self) ;;
  t0 <- time_time ;;
  set (_get_last_failure_key self) (str_of_int t0) ;;;
  ret count.

Definition _reset_failure_count (self : t) : M World unit :=
  delete (_get_failure_count_key self).

Definition _get_success_count (self : t) : M World Z :=
  count <- get (_get_success_count_key self) ;;
  int_or_zero count.

Definition _increment_success_count (self : t) : M World Z :=
  incr (_get_success_count_key self).

Definition _reset_success_count (self : t) : M World unit :=
  delete (_get_success_count_key self).

(** [float(last_failure)] reads back the instant written by
    [_increment_failure_count]; the comparison is in milliseconds. *)
Definition _should_attempt_reset (self : t) : M World bool :=
  last_failure <- get (_get_last_failure_key self) ;;
  match last_failure with
  | None => ret true
  | Some s =>
      last_failure_time <- int_of_str s ;;
      t0 <- time_time ;;
      let time_since_failure := t0 - last_failure_time in
      ret (1000 * timeout_seconds (config self) <=? time_since_failure)
  end.

Definition _on_success (self : t) : M World unit :=
  state <- get_state self ;;
  match state with
  | HALF_OPEN =>
      success_count <- _increment_success_count self ;;
      if success_threshold (config self) <=? success_count then
        _set_state self CLOSED ;;;
        _reset_failure_count self ;;;
        _reset_success_count self
      else ret tt
  | CLOSED => _reset_failure_count self
  | OPEN => ret tt
  end.

Definition _on_failure (self : t) (exception : exn) : M World unit :=
  state <- get_state self ;;
  match state with
  | HALF_OPEN =>
      _set_state self OPEN ;;;
      _reset_success_count self ;;;
      _ <- _increment_failure_count self ;;
      ret tt
  | CLOSED =>
      failure_count <- _increment_failure_count self ;;
      if failure_threshold (config self) <=? failure_count then
        _set_state self OPEN
      else ret tt
  | OPEN => ret tt
  end.

(** [CircuitBreakerOpenError(service_name, details)] *)
Definition open_error (self : t) (failure_count : Z) (state : CircuitState) : exn :=
  Exn CircuitBreakerOpenError
      ("Circuit breaker open for " +:+ name self)
      [("failure_count", str_of_int failure_count);
       ("state", state_value state);
       ("service_name", name self)].

(** The [try: ... except expected_exception] part of [call]. *)
Definition attempt {A} (self : t) (func : M World A) : M World A :=
  try_except
    (result <- func ;;
     _on_success self ;;;
     ret result)
    (expected_exception (config self))
    (fun e => _on_failure self e ;;; raise e).

Definition call {A} (self : t) (func : M World A) : M World A :=
  state <- get_state self ;;
  (match state with
   | OPEN =>
       reset <- _should_attempt_reset self ;;
       if reset : bool then
         _set_state self HALF_OPEN ;;;
         _reset_success_count self
       else
         failure_count <- _get_failure_count self ;;
         raise (open_error self failure_count state)
   | _ => ret tt
   end) ;;;
  attempt self func.

Definition reset (self : t) : M World unit :=
  _set_state self CLOSED ;;;
  _reset_failure_count self ;;;
  _reset_success_count self ;;;
  delete (_get_last_failure_key self).

End CircuitBreaker.

(** Auxiliary notions used to state the breaker theorems. *)
Module BreakerAux.
Import CircuitBreaker.

(** The world after [k] successful outcomes handled in a row. *)
Fixpoint successes (self : t) (k : nat) (w : World) : World :=
  match k with
  | O => w
  | S k' => successes self k' (_on_success self w).2
  end.


(** The integer a counter key stands for: a missing key counts as 0. *)
Definition counter (k : string) (w : World) : option Z :=
  match lookup_live k w with
  | None => Some 0
  | Some s => parse_int s
  end.

End BreakerAux.

Module BreakerExamples.
Import CircuitBreaker.

Definition rpc : t := mk "blockchain-rpc" (mkConfig 3 2 5 (fun _ => true)).

Definition boom : exn := mk_exn Exception_ "Test failure".

Definition failing : M World unit := raise boom.
Definition working : M World Z := ret 42.

Definition world0 : World := mkWorld 1000000 ∅ (fun _ => Ok 0).

(** Three failures in a row from a fresh breaker. *)
Definition tripped : World :=
  (call rpc failing (call rpc failing (call rpc failing world0).2).2).2.

(** The HALF_OPEN world a probe starts in, 5 s after the breaker tripped. *)
Definition probing : World :=
  (delete (_get_success_count_key rpc)
     (set (_get_state_key rpc) (state_value HALF_OPEN) (advance 5000 tripped)).2).2.

End BreakerExamples.

(* ===================================================================== *)
(** ** services/token_agent.py                                            *)
(* ===================================================================== *)

Module TokenAgent.

Module TransactionRetryConfig.
Definition MAX_RETRIES : Z := 3.
Definition BASE_DELAY : Z := 2.      (* seconds *)
Definition MAX_DELAY : Z := 30.      (* seconds *)
Definition BACKOFF_MULTIPLIER : Z := 2.

Definition RETRYABLE_ERRORS : list string :=
  [ "nonce too low";
    "replacement transaction underpriced";
    "already known";
    "timeout";
    "connection";
    "network";
    "gas price too low";
    "max fee per gas less than block base fee" ].
End TransactionRetryConfig.
Import TransactionRetryConfig.

(** [isinstance(error, (TimeExhausted, ConnectionError))] *)
Definition is_transient_class (c : exc_class) : bool :=
  match c with
  | TimeExhausted | ConnectionError_ => true
  | _ => false
  end.

Definition is_retryable_error (error : exn) : bool :=
  let error_msg := lower (exc_msg error) in
  if existsb (fun pattern => contains pattern error_msg) RETRYABLE_ERRORS
  then true
  else if is_transient_class (exc_cls error) then true
  else false.

(** [attempt] comes from [range(...)], hence is never negative. *)
Definition calculate_retry_delay (attempt : nat) : Z :=
  let delay := BASE_DELAY * BACKOFF_MULTIPLIER ^ Z.of_nat attempt in
  Z.min delay MAX_DELAY.

(** The transaction dictionary handed to the signer; only the keys the
    retry code reads or writes are kept. *)
Record TxDict := mkTx {
  tx_nonce : option Z;
  maxFeePerGas : option Z;
  maxPriorityFeePerGas : option Z
}.

Record Receipt := mkReceipt {
  receipt_status : Z;
  gasUsed : Z
}.

(** A row of the [transactions] table. *)
Record Transaction := mkTransaction {
  tx_id : string;
  user_id : string;
  tx_type : string;
  amount : Z;
  reason : string;
  status : string;
  blockchain_tx : option string;
  gas_used : option Z
}.

(** What the agent does to the outside, in order. *)
Inductive event :=
| EvGetTransactionCount
| EvSign (tx : TxDict)
| EvSend (raw : string)
| EvWait (tx_hash : string) (timeout : Z)
| EvSleep (seconds : Z)
| EvCall.                  (* one invocation of a decorated function *)

(** The chain provider, scripted: the outcome of the [i]-th call of each
    kind ([i] counts the earlier calls of that kind). *)
Record Provider := mkProvider {
  on_get_transaction_count : nat -> outcome Z;
  on_sign_transaction : TxDict -> outcome string;
  on_send_raw_transaction : nat -> string -> outcome string;
  on_wait_for_transaction_receipt : nat -> string -> outcome Receipt;
  on_to_checksum_address : string -> outcome string;
  (* [w3.to_wei(amount, 'ether')] *)
  on_to_wei : Z -> outcome Z;
  (* [contract.functions.mint(to, amount_wei, reason).build_transaction(params)] *)
  on_build_transaction : string -> Z -> string -> TxDict -> outcome TxDict
}.

(** The agent's world: the provider, the log of events, the transaction
    dictionary being sent (a Python object that the retry loop mutates in
    place), the two tables [process_mint] touches as the database holds
    them, and whether the SQLAlchemy session [db] can still be used: a
    commit that failed leaves it inactive. *)
Record World := mkWorld {
  w3 : Provider;
  trace : list event;
  transaction_dict : TxDict;
  transactions : gmap string Transaction;
  users : gmap string string;
  session_active : bool
}.

Definition is_send (ev : event) : bool :=
  match ev with EvSend _ => true | _ => false end.
Definition is_wait (ev : event) : bool :=
  match ev with EvWait _ _ => true | _ => false end.
Definition is_get_count (ev : event) : bool :=
  match ev with EvGetTransactionCount => true | _ => false end.

Definition count (p : event -> bool) (tr : list event) : nat :=
  length (filter (fun ev => p ev = true) tr).

(** The delays slept, in order. *)
Fixpoint sleeps (tr : list event) : list Z :=
  match tr with
  | [] => []
  | EvSleep d :: rest => d :: sleeps rest
  | _ :: rest => sleeps rest
  end.

Definition log (ev : event) : M World unit :=
  modify (fun w => mkWorld (w3 w) (trace w ++ [ev]) (transaction_dict w)
                     (transactions w) (users w) (session_active w)).

Definition set_tx (f : TxDict -> TxDict) : M World unit :=
  modify (fun w => mkWorld (w3 w) (trace w) (f (transaction_dict w))
                     (transactions w) (users w) (session_active w)).

Definition set_transactions
    (f : gmap string Transaction -> gmap string Transaction) : M World unit :=
  modify (fun w => mkWorld (w3 w) (trace w) (transaction_dict w)
                     (f (transactions w)) (users w) (session_active w)).

Definition deactivate (w : World) : World :=
  mkWorld (w3 w) (trace w) (transaction_dict w) (transactions w) (users w) false.

Definition sleep (seconds : Z) : M World unit := log (EvSleep seconds).

(** [self.w3.eth.get_transaction_count(self.account.address)] *)
Definition get_transaction_count : M World Z :=
  fun w =>
    let i := count is_get_count (trace w) in
    bind (log EvGetTransactionCount)
         (fun _ w' => (on_get_transaction_count (w3 w') i, w')) w.

(** [self.w3.eth.account.sign_transaction(transaction_dict, key)] *)
Definition sign_transaction : M World string :=
  fun w =>
    let tx := transaction_dict w in
    bind (log (EvSign tx)) (fun _ w' => (on_sign_transaction (w3 w') tx, w')) w.

(** [self.w3.eth.send_raw_transaction(raw).hex()] *)
Definition send_raw_transaction (raw : string) : M World string :=
  fun w =>
    let i := count is_send (trace w) in
    bind (log (EvSend raw))
         (fun _ w' => (on_send_raw_transaction (w3 w') i raw, w')) w.

(** [self.w3.eth.wait_for_transaction_receipt(tx_hash, timeout=timeout)] *)
Definition wait_for_transaction_receipt (tx_hash : string) (timeout : Z)
    : M World Receipt :=
  fun w =>
    let i := count is_wait (trace w) in
    bind (log (EvWait tx_hash timeout))
         (fun _ w' => (on_wait_for_transaction_receipt (w3 w') i tx_hash, w')) w.

Definition catch_all (_ : exn) : bool := true.



Fixpoint _get_nonce_with_retry_loop (remaining attempt : nat) (max_retries : Z)
    : M World (option Z) :=
  match remaining with
  | O => ret None
  | S rest =>
      try_except
        (nonce <- get_transaction_count ;;
         ret (Some nonce))
        catch_all
        (fun e =>
           if Z.of_nat attempt <? max_retries - 1 then
             let delay := calculate_retry_delay attempt in
             sleep delay ;;;
             _get_nonce_with_retry_loop rest (S attempt) max_retries
           else raise e)
  end.

Definition _get_nonce_with_retry (max_retries : Z) : M World (option Z) :=
  _get_nonce_with_retry_loop (Z.to_nat max_retries) 0 max_retries.

(** Python's [float(x)] for an integer: the nearest double, ties to
    even; out of range it is an infinity here and an [OverflowError]
    there. *)
Definition float_of_int (x : Z) : spec_float :=
  binary_normalize 53 1024 x 0 false.

(** The double that the literal [1.2] denotes. *)
Definition one_point_two : spec_float :=
  S754_finite false 5404319552844595 (-52).

(** [int(f)]: truncation toward zero; [None] where Python raises. *)
Definition int_of_float (f : spec_float) : option Z :=
  match f with
  | S754_zero _ => Some 0
  | S754_finite s m e =>
      let v := if 0 <=? e then Z.pos m * 2 ^ e else Z.pos m / 2 ^ (- e) in
      Some (if s then - v else v)
  | S754_infinity _ | S754_nan => None
  end.

(** [int(x * 1.2)] for an integer [x]. *)
Definition increase_by_20_percent (x : Z) : outcome Z :=
  match float_of_int x with
  | S754_infinity _ =>
      Raise (mk_exn OverflowError "int too large to convert to float")
  | f =>
      match int_of_float (SFmul 53 1024 f one_point_two) with
      | Some y => Ok y
      | None =>
          Raise (mk_exn OverflowError "cannot convert float infinity to integer")
      end
  end.

Definition set_maxFeePerGas (x : Z) (tx : TxDict) : TxDict :=
  mkTx (tx_nonce tx) (Some x) (maxPriorityFeePerGas tx).

Definition set_maxPriorityFeePerGas (x : Z) (tx : TxDict) : TxDict :=
  mkTx (tx_nonce tx) (maxFeePerGas tx) (Some x).

(** [if key in transaction_dict:
       transaction_dict[key] = int(transaction_dict[key] * 1.2)] *)
Definition raise_fee (field : TxDict -> option Z) (store : Z -> TxDict -> TxDict)
    : M World unit :=
  tx <- gets transaction_dict ;;
  match field tx with
  | Some fee =>
      increased <- (fun w => (increase_by_20_percent fee, w)) ;;
      set_tx (store increased)
  | None => ret tt
  end.

(** The two fee updates, in the order of the source: when the second
    raises, the first has already been written. *)
Definition bump_fees : M World unit :=
  raise_fee maxFeePerGas set_maxFeePerGas ;;;
  raise_fee maxPriorityFeePerGas set_maxPriorityFeePerGas.

Definition set_nonce (n : option Z) (tx : TxDict) : TxDict :=
  mkTx n (maxFeePerGas tx) (maxPriorityFeePerGas tx).

(** The loop of [_send_transaction_with_retry] over the dictionary held
    in the world.  Falling off the loop ([max_retries <= 0]) returns
    [None]. *)
Fixpoint _send_transaction_with_retry_loop (remaining attempt : nat)
    (max_retries : Z) : M World (option string) :=
  match remaining with
  | O => ret None
  | S rest =>
      try_except
        ((if 0 <? Z.of_nat attempt then
            nonce <- _get_nonce_with_retry 3 ;;
            set_tx (set_nonce nonce)
          else ret tt) ;;;
         signed_tx <- sign_transaction ;;
         tx_hash_hex <- send_raw_transaction signed_tx ;;
         ret (Some tx_hash_hex))
        catch_all
        (fun e =>
           let error_msg := lower (exc_msg e) in
           if (Z.of_nat attempt <? max_retries - 1) && is_retryable_error e then
             let delay := calculate_retry_delay attempt in
             (if contains "gas price" error_msg || contains "fee" error_msg
              then bump_fees else ret tt) ;;;
             sleep delay ;;;
             _send_transaction_with_retry_loop rest (S attempt) max_retries
           else raise e)
  end.

Definition _send_transaction_with_retry (transaction_dict : TxDict)
    (max_retries : Z) : M World (option string) :=
  set_tx (fun _ => transaction_dict) ;;;
  _send_transaction_with_retry_loop (Z.to_nat max_retries) 0 max_retries.

Definition is_class (c : exc_class) (e : exn) : bool :=
  bool_decide (exc_cls e = c).

Fixpoint _wait_for_receipt_with_retry_loop (remaining attempt : nat)
    (tx_hash : string) (timeout max_retries : Z) : M World (option Receipt) :=
  match remaining with
  | O => ret None
  | S rest =>
      try_except
        (receipt <- wait_for_transaction_receipt tx_hash timeout ;;
         ret (Some receipt))
        (fun e => is_class TimeExhausted e || is_class TransactionNotFound e)
        (fun e =>
           if is_class TimeExhausted e then
             if Z.of_nat attempt <? max_retries - 1 then
               _wait_for_receipt_with_retry_loop rest (S attempt)
                 tx_hash timeout max_retries
             else raise e
           else raise e)
  end.

Definition _wait_for_receipt_with_retry (tx_hash : string) (timeout max_retries : Z)
    : M World (option Receipt) :=
  _wait_for_receipt_with_retry_loop (Z.to_nat max_retries) 0
    tx_hash timeout max_retries.

(** [Web3.to_checksum_address(address)] *)
Definition to_checksum_address (address : string) : M World string :=
  fun w => (on_to_checksum_address (w3 w) address, w).

(** [w3.to_wei(amount, 'ether')] and the construction of the contract
    call: library code, answered by the provider. *)
Definition to_wei (amount : Z) : M World Z :=
  fun w => (on_to_wei (w3 w) amount, w).

Definition build_transaction (wallet_address : string) (amount_wei : Z)
    (why : string) (params : TxDict) : M World TxDict :=
  fun w => (on_build_transaction (w3 w) wallet_address amount_wei why params, w).

(** *** The database session *)

Definition inactive_session : exn :=
  mk_exn PendingRollbackError
    "This Session's transaction has been rolled back due to a previous exception during flush".

Definition constraint_violation (what : string) : exn :=
  mk_exn IntegrityError what.

(** [db.query(Transaction).filter(Transaction.tx_id == tx_id).first()] *)
Definition query_transaction (id : string) : M World (option Transaction) :=
  fun w =>
    if session_active w then (Ok (transactions w !! id), w)
    else (Raise inactive_session, w).

(** [db.query(User).filter(User.user_id == user_id).first()], of which
    only the wallet address is kept. *)
Definition query_user (user : string) : M World (option string) :=
  fun w =>
    if session_active w then (Ok (users w !! user), w)
    else (Raise inactive_session, w).

(** [blockchain_tx] is UNIQUE: does a row other than [id] store [h]?
    NULLs never clash. *)
Definition hash_taken (id : string) (h : option string)
    (table : gmap string Transaction) : bool :=
  match h with
  | None => false
  | Some _ =>
      existsb (fun kr : string * Transaction =>
                 negb (bool_decide (kr.1 = id))
                 && bool_decide (blockchain_tx kr.2 = h))
              (map_to_list table)
  end.

(** [db.commit()] with the pending state [row] of the record [id]: on an
    inactive session it raises; when the flush violates a constraint it
    raises, nothing is written and the session becomes inactive. *)
Definition commit (id : string) (row : Transaction) (violated : bool)
    : M World unit :=
  fun w =>
    if negb (session_active w) then (Raise inactive_session, w)
    else if violated || hash_taken id (blockchain_tx row) (transactions w) then
      (Raise (constraint_violation "transactions"), deactivate w)
    else set_transactions (insert id row) w.

(** [db.add(tx_record); db.commit()]: [tx_id] is UNIQUE and [user_id]
    refers to [users.user_id]. *)
Definition add_record (row : Transaction) : M World unit :=
  fun w =>
    commit (tx_id row) row
      (bool_decide (is_Some (transactions w !! tx_id row))
       || bool_decide (users w !! user_id row = None)) w.

(** [tx_record.<field> = ...; db.commit()] on the row with this id. *)
Definition update_record (id : string) (f : Transaction -> Transaction)
    : M World unit :=
  fun w =>
    match transactions w !! id with
    | Some row => commit id (f row) false w
    | None =>
        if session_active w then (Ok tt, w) else (Raise inactive_session, w)
    end.

Definition with_status (st : string) (r : Transaction) : Transaction :=
  mkTransaction (tx_id r) (user_id r) (tx_type r) (amount r) (reason r) st
    (blockchain_tx r) (gas_used r).

Definition sent_as (h : option string) (r : Transaction) : Transaction :=
  mkTransaction (tx_id r) (user_id r) (tx_type r) (amount r) (reason r)
    "confirming" h (gas_used r).

Definition confirmed_with (gas : Z) (r : Transaction) : Transaction :=
  mkTransaction (tx_id r) (user_id r) (tx_type r) (amount r) (reason r)
    "confirmed" (blockchain_tx r) (Some gas).

(** How far the [try] block got before [tx_record] exists. *)
Inductive preflight :=
| Replay (stored : option string)
| Proceed (wallet_address : string) (amount_wei : Z).

(** [process_mint].  The [try] block is cut where [tx_record] is
    assigned: an exception before that point takes the
    [except Exception] branch with ['tx_record' in locals()] false, and
    [None] is returned; an exception after it takes the same branch with
    the record in hand, which marks it failed and commits, and an
    exception raised by that commit leaves the function.  [amount] is
    the number handed to [w3.to_wei]; the row keeps it as given. *)
Definition process_mint (id user : string) (amt : Z) (why : string)
    : M World (option string) :=
  start <- try_except
             (existing_tx <- query_transaction id ;;
              match existing_tx with
              | Some existing => ret (Some (Replay (blockchain_tx existing)))
              | None =>
                  found <- query_user user ;;
                  match found with
                  | None =>
                      raise (mk_exn ValueError ("User " +:+ user +:+ " not found"))
                  | Some user_wallet =>
                      wallet_address <- to_checksum_address user_wallet ;;
                      amount_wei <- to_wei amt ;;
                      ret (Some (Proceed wallet_address amount_wei))
                  end
              end)
             catch_all
             (fun e => ret None) ;;
  match start with
  | None => ret None
  | Some (Replay stored) => ret stored
  | Some (Proceed wallet_address amount_wei) =>
      try_except
        (add_record (mkTransaction id user "mint" amt why "pending" None None) ;;;
         nonce <- _get_nonce_with_retry 3 ;;
         mint_tx <- build_transaction wallet_address amount_wei why
                      (mkTx nonce (Some 1000000) (Some 100000)) ;;
         tx_hash_hex <- _send_transaction_with_retry mint_tx 3 ;;
         update_record id (sent_as tx_hash_hex) ;;;
         (* [tx_hash_hex] is a hash here: [None] needs [max_retries <= 0] *)
         receipt <- _wait_for_receipt_with_retry
                      (default EmptyString tx_hash_hex) 120 2 ;;
         match receipt with
         | Some r =>
             if receipt_status r =? 1 then
               update_record id (confirmed_with (gasUsed r)) ;;;
               ret tx_hash_hex
             else
               update_record id (with_status "failed") ;;;
               ret None
         | None =>
             raise (mk_exn TypeError "'NoneType' object is not subscriptable")
         end)
        catch_all
        (fun e =>
           update_record id (with_status "failed") ;;;
           ret None)
  end.

End TokenAgent.

(** Auxiliary notions used to state the submitter theorems. *)
Module AgentAux.
Import TokenAgent.

(** The world after one more event, and after the transaction
    dictionary has been replaced. *)
Definition logged (ev : event) (w : World) : World := (log ev w).2.
Definition with_tx (tx : TxDict) (w : World) : World :=
  (set_tx (fun _ => tx) w).2.


(** The dictionary with both fees raised, when neither product leaves
    the range of a double. *)
Definition raised (tx : TxDict) : outcome TxDict :=
  match maxFeePerGas tx with
  | Some fee =>
      match increase_by_20_percent fee with
      | Ok y =>
          match maxPriorityFeePerGas tx with
          | Some tip =>
              match increase_by_20_percent tip with
              | Ok z => Ok (mkTx (tx_nonce tx) (Some y) (Some z))
              | Raise e => Raise e
              end
          | None => Ok (mkTx (tx_nonce tx) (Some y) None)
          end
      | Raise e => Raise e
      end
  | None =>
      match maxPriorityFeePerGas tx with
      | Some tip =>
          match increase_by_20_percent tip with
          | Ok z => Ok (mkTx (tx_nonce tx) None (Some z))
          | Raise e => Raise e
          end
      | None => Ok tx
      end
  end.




End AgentAux.

Module AgentExamples.
Import TokenAgent.

Definition timed_out : exn := mk_exn Exception_ "timeout".

(** A provider whose every send fails with [e], and whose every wait for
    a receipt runs out of time. *)
(** [w3.to_wei(amount, 'ether')] on whole amounts: 18 decimals, and the
    range check of the library. *)
Definition to_wei_ether (amount : Z) : outcome Z :=
  let wei := amount * 10 ^ 18 in
  if (wei <? 0) || (2 ^ 256 - 1 <? wei)
  then Raise (mk_exn ValueError
                "Resulting wei value must be between 1 and 2**256 - 1")
  else Ok wei.

(** [build_transaction] keeps the parameters it is given. *)
Definition build_as_given (to_ : string) (amount_wei : Z) (why : string)
    (params : TxDict) : outcome TxDict := Ok params.

Definition failing_provider (e : exn) : Provider :=
  mkProvider (fun i => Ok (42 + Z.of_nat i))
             (fun _ => Ok "0xsigned")
             (fun _ _ => Raise e)
             (fun _ _ => Raise (mk_exn TimeExhausted "not mined in 120 seconds"))
             (fun a => Ok a)
             to_wei_ether
             build_as_given.

Definition tx0 : TxDict := mkTx (Some 42) (Some 1000000) (Some 100000).

Definition world_with (e : exn) : World :=
  mkWorld (failing_provider e) [] tx0 ∅
          {[ "user-1" := "0xAbCd000000000000000000000000000000000001" ]}
          true.

End AgentExamples.

(* ===================================================================== *)
(** ** middleware/idempotency.py                                          *)
(* ===================================================================== *)

Module Idempotency.

(** JSON documents, as [json.loads] returns them; the numbers are the
    integers. *)
#[local] Unset Elimination Schemes.
Inductive json :=
| JNull
| JBool (b : bool)
| JInt (z : Z)
| JStr (s : string)
| JList (items : list json)
| JDict (members : list (string * json)).
#[local] Set Elimination Schemes.

(** What an endpoint may return: a plain JSON-like Python value (a [dict]
    when it is a [JDict]), or a [JSONResponse] object. *)
Inductive pyobj :=
| PyValue (v : json)
| JSONResponse (content : json) (status_code : json).

(** [isinstance(result, dict)] *)
Definition as_dict (result : pyobj) : option (list (string * json)) :=
  match result with
  | PyValue (JDict d) => Some d
  | _ => None
  end.

(** Python truth value of a JSON document. *)
Definition truthy (v : json) : bool :=
  match v with
  | JNull => false
  | JBool b => b
  | JInt z => negb (z =? 0)
  | JStr s => negb (bool_decide (s = EmptyString))
  | JList l => negb (bool_decide (length l = 0%nat))
  | JDict d => negb (bool_decide (length d = 0%nat))
  end.

Fixpoint assoc (k : string) (d : list (string * json)) : option json :=
  match d with
  | [] => None
  | (k', v) :: rest => if decide (k' = k) then Some v else assoc k rest
  end.

(** The [json] module of the standard library: [dumps] may reject a
    value, [loads] may reject a text. *)
Record Codec := mkCodec {
  json_dumps : json -> outcome string;
  json_loads : string -> outcome json
}.

(** What [get_redis_client()] meets.  [Available]: a client is at hand,
    the global [redis_client] holds one or connecting succeeds.
    [Unavailable]: there is none and connecting raises
    [redis.ConnectionError].  [Failing e client_kept]: there is none and
    connecting raises another exception [e], which the [except] clause
    does not catch -- [redis.from_url] on a malformed [REDIS_URL], or
    [ping] running into a timeout, in which case the global already
    holds the client ([client_kept]). *)
Inductive availability :=
| Available
| Unavailable
| Failing (e : exn) (client_kept : bool).

(** [true] and [false] are read as [Available] and [Unavailable]. *)
Definition of_bool (b : bool) : availability :=
  if b then Available else Unavailable.
Coercion of_bool : bool >-> availability.

(** The middleware's world: what [get_redis_client()] meets, the store
    behind the client, and the state of the application that the wrapped
    endpoint works on. *)
Record World := mkWorld {
  redis_available : availability;
  redis : Redis.World;
  app_state : Z
}.

(** [get_redis_client()]: whether a client is returned ([None]
    otherwise).  Only [redis.ConnectionError] is caught. *)
Definition get_redis_client : M World bool :=
  fun w =>
    match redis_available w with
    | Available => (Ok true, w)
    | Unavailable => (Ok false, w)
    | Failing e client_kept =>
        (Raise e,
         if client_kept : bool
         then mkWorld Available (redis w) (app_state w)
         else w)
    end.

(** [JSONResponse(content=..., status_code=...)]: the constructor
    compares [status_code] with 200 when it writes the headers, which
    raises [TypeError] unless it is a number. *)
Definition JSONResponse__init__ (content status_code : json) : M World pyobj :=
  match status_code with
  | JInt _ | JBool _ => ret (JSONResponse content status_code)
  | JNull | JStr _ | JList _ | JDict _ =>
      raise (mk_exn TypeError "'<' not supported between instances")
  end.

(** Run a store command against the client. *)
Definition on_redis {A} (m : M Redis.World A) : M World A :=
  fun w =>
    let (r, s) := m (redis w) in
    (r, mkWorld (redis_available w) s (app_state w)).

Definition DEFAULT_TTL : Z := 86400.

Definition generate_key (idempotency_key path : string) : string :=
  "idempotency:" +:+ path +:+ ":" +:+ idempotency_key.

Section WithCodec.
Variable J : Codec.

Definition store_response (key : string) (response_data : json) (ttl : Z)
    : M World bool :=
  client <- get_redis_client ;;
  if client : bool then
    try_except
      (text <- (fun w => (json_dumps J response_data, w)) ;;
       on_redis (Redis.setex key ttl text) ;;;
       ret true)
      (fun _ => true)
      (fun e => ret false)
  else ret false.

Definition get_cached_response (key : string) : M World (option json) :=
  client <- get_redis_client ;;
  if client : bool then
    try_except
      (cached <- on_redis (Redis.get key) ;;
       match cached with
       | Some text =>
           if bool_decide (text = EmptyString) then ret None
           else
             doc <- (fun w => (json_loads J text, w)) ;;
             ret (Some doc)
       | None => ret None
       end)
      (fun _ => true)
      (fun e => ret None)
  else ret None.

(** [cached["body"]] *)
Definition subscript_body (cached : json) : M World json :=
  match cached with
  | JDict d =>
      match assoc "body" d with
      | Some v => ret v
      | None => raise (mk_exn KeyError "'body'")
      end
  | _ => raise (mk_exn TypeError "indices must be integers or slices")
  end.

(** [cached.get("status_code", 200)] *)
Definition get_status_code (cached : json) : M World json :=
  match cached with
  | JDict d => ret (default (JInt 200) (assoc "status_code" d))
  | _ => raise (mk_exn TypeError "object has no attribute 'get'")
  end.

(** The steps of the wrapper after a cache miss: run the endpoint and
    store its result when it is a [dict]. *)
Definition execute_and_store (cache_key : string) (ttl : Z)
    (func : M World pyobj) : M World pyobj :=
  result <- func ;;
  match as_dict result with
  | Some d =>
      _ <- store_response cache_key
             (JDict [("body", JDict d); ("status_code", JInt 200)]) ttl ;;
      ret result
  | None => ret result
  end.

(** [idempotent(ttl)(func)], called with the [Idempotency-Key] header
    and the request (its [url.path]) that FastAPI passes in. *)
Definition idempotent (ttl : Z) (func : M World pyobj)
    (idempotency_key : option string) (request : option string)
    : M World pyobj :=
  match idempotency_key with
  | None | Some EmptyString => func
  | Some key =>
      let cache_key := generate_key key (default "unknown" request) in
      cached <- get_cached_response cache_key ;;
      match cached with
      | Some doc =>
          if truthy doc then
            content <- subscript_body doc ;;
            status_code <- get_status_code doc ;;
            JSONResponse__init__ content status_code
          else execute_and_store cache_key ttl func
      | None => execute_and_store cache_key ttl func
      end
  end.

End WithCodec.

End Idempotency.

(** A reference text codec for the part of JSON the examples use: no string
    escapes, integers only, separators as [json.dumps] writes them. *)
Module JsonText.
Import Idempotency.

Definition quote : string := String (ascii_of_nat 34) EmptyString.

Fixpoint join (sep : string) (parts : list string) : string :=
  match parts with
  | [] => EmptyString
  | [p] => p
  | p :: rest => p +:+ sep +:+ join sep rest
  end.

Fixpoint print (v : json) : string :=
  match v with
  | JNull => "null"
  | JBool true => "true"
  | JBool false => "false"
  | JInt z => str_of_int z
  | JStr s => quote +:+ s +:+ quote
  | JList items => "[" +:+ join ", " (map print items) +:+ "]"
  | JDict members =>
      "{" +:+ join ", "
                (map (fun kv => quote +:+ fst kv +:+ quote +:+ ": " +:+ print (snd kv))
                     members)
          +:+ "}"
  end.

Fixpoint skip_ws (s : string) : string :=
  match s with
  | String " " rest => skip_ws rest
  | _ => s
  end.

Fixpoint drop (n : nat) (s : string) : string :=
  match n, s with
  | S k, String _ rest => drop k rest
  | _, _ => s
  end.

(** The characters up to the closing quote, and the text after it. *)
Fixpoint take_string (s : string) : option (string * string) :=
  match s with
  | EmptyString => None
  | String c rest =>
      if Ascii.eqb c (ascii_of_nat 34) then Some (EmptyString, rest)
      else if Ascii.eqb c (ascii_of_nat 92) then None
      else match take_string rest with
           | Some (a, b) => Some (String c a, b)
           | None => None
           end
  end.

Definition is_digit (c : ascii) : bool :=
  let n := nat_of_ascii c in (Nat.leb 48 n && Nat.leb n 57)%bool.

Fixpoint take_digits (s : string) : string * string :=
  match s with
  | String c rest =>
      if is_digit c then
        let (a, b) := take_digits rest in (String c a, b)
      else (EmptyString, s)
  | EmptyString => (EmptyString, EmptyString)
  end.

Definition take_number (s : string) : option (json * string) :=
  let (sign, body) :=
    match s with
    | String "-" rest => ("-", rest)
    | _ => (EmptyString, s)
    end in
  let (digits, rest) := take_digits body in
  match parse_int (sign +:+ digits) with
  | Some z => Some (JInt z, rest)
  | None => None
  end.

Fixpoint parse_value (fuel : nat) (s : string) : option (json * string) :=
  match fuel with
  | O => None
  | S f =>
      let s := skip_ws s in
      if String.prefix "null" s then Some (JNull, drop 4 s)
      else if String.prefix "true" s then Some (JBool true, drop 4 s)
      else if String.prefix "false" s then Some (JBool false, drop 5 s)
      else
        match s with
        | String c rest =>
            if Ascii.eqb c (ascii_of_nat 34) then
              match take_string rest with
              | Some (str, after) => Some (JStr str, after)
              | None => None
              end
            else if Ascii.eqb c "[" then
              match skip_ws rest with
              | String "]" after => Some (JList [], after)
              | _ =>
                  match parse_items f rest with
                  | Some (items, after) => Some (JList items, after)
                  | None => None
                  end
              end
            else if Ascii.eqb c "{" then
              match skip_ws rest with
              | String "}" after => Some (JDict [], after)
              | _ =>
                  match parse_members f rest with
                  | Some (members, after) => Some (JDict members, after)
                  | None => None
                  end
              end
            else take_number s
        | EmptyString => None
        end
  end
with parse_items (fuel : nat) (s : string) : option (list json * string) :=
  match fuel with
  | O => None
  | S f =>
      match parse_value f s with
      | Some (v, rest) =>
          match skip_ws rest with
          | String "," more =>
              match parse_items f more with
              | Some (vs, after) => Some (v :: vs, after)
              | None => None
              end
          | String "]" after => Some ([v], after)
          | _ => None
          end
      | None => None
      end
  end
with parse_members (fuel : nat) (s : string)
    : option (list (string * json) * string) :=
  match fuel with
  | O => None
  | S f =>
      match skip_ws s with
      | String c rest =>
          if Ascii.eqb c (ascii_of_nat 34) then
            match take_string rest with
            | Some (key, after_key) =>
                match skip_ws after_key with
                | String ":" after_colon =>
                    match parse_value f after_colon with
                    | Some (v, rest_v) =>
                        match skip_ws rest_v with
                        | String "," more =>
                            match parse_members f more with
                            | Some (ms, after) => Some ((key, v) :: ms, after)
                            | None => None
                            end
                        | String "}" after => Some ([(key, v)], after)
                        | _ => None
                        end
                    | None => None
                    end
                | _ => None
                end
            | None => None
            end
          else None
      | EmptyString => None
      end
  end.

Definition parse (s : string) : option json :=
  match parse_value (2 * String.length s + 2) s with
  | Some (v, rest) =>
      match skip_ws rest with
      | EmptyString => Some v
      | _ => None
      end
  | None => None
  end.

Definition codec : Codec :=
  mkCodec (fun v => Ok (print v))
          (fun s => match parse s with
                    | Some v => Ok v
                    | None => Raise (mk_exn ValueError "Expecting value")
                    end).

End JsonText.

(** Auxiliary notions used to state the idempotency theorems. *)
Module IdempotencyAux.
Import Idempotency.

(** The document the wrapper caches for a [dict] result. *)
Definition cache_doc (d : list (string * json)) : json :=
  JDict [("body", JDict d); ("status_code", JInt 200)].

(** The world after [text] was stored under [key] for [ttl] seconds. *)
Definition stored (key text : string) (ttl : Z) (w : World) : World :=
  mkWorld (redis_available w)
          (Redis.set_db
             (insert key (Entry text (Some (now (redis w) + 1000 * ttl))))
             (redis w))
          (app_state w).

End IdempotencyAux.

Module IdempotencyExamples.
Import Idempotency.

Definition store0 : Redis.World := Redis.mkWorld 1000000 ∅ (fun _ => Ok 0).
Definition world0 : World := mkWorld true store0 0.

Definition queued : list (string * json) :=
  [("status", JStr "queued"); ("tx_id", JStr "mint-7f3a9c1b")].

(** An endpoint that answers with a [dict]. *)
Definition mint_endpoint : M World pyobj :=
  modify (fun w => mkWorld (redis_available w) (redis w) (app_state w + 1)) ;;;
  ret (PyValue (JDict queued)).

(** An endpoint that answers with the list of the calls made so far. *)
Definition list_endpoint : M World pyobj :=
  modify (fun w => mkWorld (redis_available w) (redis w) (app_state w + 1)) ;;;
  n <- gets app_state ;;
  ret (PyValue (JList [JInt n])).

Definition later (ms : Z) (w : World) : World :=
  mkWorld (redis_available w) (Redis.advance ms (redis w)) (app_state w).

End IdempotencyExamples.

(* ===================================================================== *)
(** ** services/nonce_manager.py: inspection and clean-up                 *)
(* ===================================================================== *)

Module NonceAdmin.
Import NonceManager.

(** [EXISTS key]: truthy exactly when the key is visible. *)
Definition exists_key (k : string) : M World bool :=
  gets (fun w => bool_decide (is_Some (lookup_live k w))).

(** The dictionary returned by [get_status]. *)
Record Status := mkStatus {
  st_wallet : string;
  st_stored_nonce : option Z;
  st_blockchain_nonce : Z;
  st_is_locked : bool;
  st_in_sync : bool
}.

Definition get_status (self : t) (wallet_address : string) : M World Status :=
  let wallet_address := lower wallet_address in
  let nonce_key := _get_nonce_key wallet_address in
  let lock_key := _get_lock_key wallet_address in
  stored_nonce <- get nonce_key ;;
  is_locked <- exists_key lock_key ;;
  blockchain_nonce <- get_transaction_count wallet_address ;;
  (* [int(stored_nonce) if stored_nonce else None] *)
  stored <- match stored_nonce with
            | None => ret None
            | Some EmptyString => ret None
            | Some s => z <- int_of_str s ;; ret (Some z)
            end ;;
  (* [stored_nonce is not None and int(stored_nonce) == blockchain_nonce] *)
  in_sync <- match stored_nonce with
             | None => ret false
             | Some s => z <- int_of_str s ;; ret (z =? blockchain_nonce)
             end ;;
  ret (mkStatus wallet_address stored blockchain_nonce is_locked in_sync).

(** [self.redis_client.delete(nonce_key, lock_key)] *)
Definition clear_wallet_data (self : t) (wallet_address : string) : M World unit :=
  let wallet_address := lower wallet_address in
  let nonce_key := _get_nonce_key wallet_address in
  let lock_key := _get_lock_key wallet_address in
  delete nonce_key ;;;
  delete lock_key.

End NonceAdmin.
(* ===================================================================== *)
(** ** middleware/circuit_breaker.py: the registry                        *)
(* ===================================================================== *)

Module BreakerRegistry.
Import CircuitBreaker.

(** The module-level [_circuit_breakers] dictionary. *)
Definition Registry := gmap string t.

(** [CircuitBreaker(name, redis_client, config)]:
    [self.config = config or CircuitBreakerConfig()]. *)
Definition new (name : string) (config : option CircuitBreakerConfig) : t :=
  mk name (default default_config config).

Definition get_circuit_breaker (name : string) : M Registry (option t) :=
  gets (fun r => r !! name).

Definition register_circuit_breaker (name : string)
    (config : option CircuitBreakerConfig) : M Registry t :=
  known <- gets (fun r => r !! name) ;;
  match known with
  | Some cb => ret cb
  | None =>
      let circuit_breaker := new name config in
      modify (insert name circuit_breaker) ;;;
      ret circuit_breaker
  end.

Definition get_all_circuit_breakers : M Registry Registry :=
  gets (fun r => r).

(** [circuit_breaker(name, redis_client, config)(func)]: the part that
    runs when the decorator is applied, yielding the breaker that the
    wrapper sends every call through.  [has_client] tells whether a
    Redis client was passed. *)
Definition circuit_breaker (name : string) (has_client : bool)
    (config : option CircuitBreakerConfig) : M Registry t :=
  cb <- get_circuit_breaker name ;;
  match cb with
  | None =>
      if has_client then register_circuit_breaker name config
      else raise (mk_exn ValueError
                    ("Redis client required for new circuit breaker '"
                     +:+ name +:+ "'"))
  | Some cb => ret cb
  end.

End BreakerRegistry.

Module BreakerRuns.
Import CircuitBreaker.

(** [k] calls in a row through the breaker, collecting the outcomes. *)
Fixpoint calls {A} (self : t) (func : M World A) (k : nat) (w : World)
    : list (outcome A) * World :=
  match k with
  | O => ([], w)
  | S k' =>
      let (r, w1) := call self func w in
      let (rs, w2) := calls self func k' w1 in
      (r :: rs, w2)
  end.

End BreakerRuns.

Module BreakerMoreExamples.
Import CircuitBreaker.

(** A breaker that only counts connection errors. *)
Definition picky : t :=
  mk "rpc" (mkConfig 3 2 5 (fun e => bool_decide (exc_cls e = ConnectionError_))).

Definition bad_input : exn := mk_exn ValueError "bad input".

(** A keyspace that says OPEN and holds nothing else. *)
Definition open_unstamped : World :=
  mkWorld 1000000 {[ _get_state_key picky := Entry "open" None ]} (fun _ => Ok 0).

End BreakerMoreExamples.
(* ===================================================================== *)
(** ** services/token_agent.py: notions for the retry loops and the mint  *)
(* ===================================================================== *)

Module AgentMoreAux.
Import TokenAgent.

(** The world after these events have been logged, in order. *)
Definition traced (evs : list event) (w : World) : World :=
  mkWorld (w3 w) (trace w ++ evs) (transaction_dict w) (transactions w) (users w)
          (session_active w).

(** What [k] failed rounds of [_get_nonce_with_retry] log, the first of
    them being round [attempt]: a query, then the backoff sleep. *)
Definition failed_queries (attempt k : nat) : list event :=
  flat_map (fun a => [EvGetTransactionCount; EvSleep (calculate_retry_delay a)])
           (seq attempt k).

(** [Some] around a returned value, as the loops hand it back. *)
Definition returned {A} (r : outcome A) : outcome (option A) :=
  match r with
  | Ok a => Ok (Some a)
  | Raise e => Raise e
  end.

(** An outcome that [_wait_for_receipt_with_retry] does not retry. *)
Definition final (r : outcome Receipt) : Prop :=
  match r with
  | Ok _ => True
  | Raise e => exc_cls e <> TimeExhausted
  end.

(** The fee error that the send loop answers by raising the fees. *)
Definition asks_for_fees (e : exn) : bool :=
  contains "gas price" (lower (exc_msg e)) || contains "fee" (lower (exc_msg e)).

(** A step that leaves the provider and both tables alone. *)
Definition frame (w w' : World) : Prop :=
  w3 w' = w3 w /\ transactions w' = transactions w /\ users w' = users w
  /\ session_active w' = session_active w.

Definition keeps {A} (m : M World A) : Prop := forall w, frame w (m w).2.



(** The transaction [process_mint] builds for nonce [n]. *)
Definition mint_tx (n : Z) : TxDict := mkTx (Some n) (Some 1000000) (Some 100000).


End AgentMoreAux.

Module AgentMoreExamples.
Import TokenAgent AgentExamples.

Definition fee_too_low : exn :=
  mk_exn Exception_ "max fee per gas less than block base fee".
Definition unreachable : exn := mk_exn ConnectionError_ "connection refused".
Definition not_mined : exn := mk_exn TimeExhausted "not mined in 120 seconds".

(** The node is unreachable for the first two nonce queries, rejects the
    first send for its fees, and the first wait runs out of time. *)
Definition flaky_provider : Provider :=
  mkProvider (fun i => if (i <? 2)%nat then Raise unreachable else Ok 7)
             (fun _ => Ok "0xsigned")
             (fun i _ => if (i =? 0)%nat then Raise fee_too_low else Ok "0xhash")
             (fun i _ => if (i =? 0)%nat then Raise not_mined
                         else Ok (mkReceipt 1 21000))
             (fun a => Ok a)
             to_wei_ether
             build_as_given.

(** Everything succeeds; the receipt carries this status. *)
Definition steady_provider (receipt_status : Z) : Provider :=
  mkProvider (fun _ => Ok 7)
             (fun _ => Ok "0xsigned")
             (fun _ _ => Ok "0xhash")
             (fun _ _ => Ok (mkReceipt receipt_status 21000))
             (fun a => Ok a)
             to_wei_ether
             build_as_given.

(** No query ever answers. *)
Definition dead_provider : Provider :=
  mkProvider (fun _ => Raise unreachable)
             (fun _ => Ok "0xsigned")
             (fun _ _ => Raise unreachable)
             (fun _ _ => Raise not_mined)
             (fun a => Ok a)
             to_wei_ether
             build_as_given.

(** The node rejects the first send for its fees and takes the second. *)
Definition underpriced_provider : Provider :=
  mkProvider (fun _ => Ok 8)
             (fun _ => Ok "0xsigned")
             (fun i _ => if (i =? 0)%nat then Raise fee_too_low else Ok "0xhash")
             (fun _ _ => Ok (mkReceipt 1 21000))
             (fun a => Ok a)
             to_wei_ether
             build_as_given.

Definition world_of (p : Provider) : World :=
  mkWorld p [] (mkTx None None None) ∅
          {[ "user-1" := "0xAbCd000000000000000000000000000000000001" ]}
          true.

End AgentMoreExamples.
(* ===================================================================== *)
(** ** middleware/idempotency.py: the header dependency                   *)
(* ===================================================================== *)

Module IdempotencyDeps.

(** What the dependency hands to FastAPI: the key, or the
    [HTTPException] it raises. *)
Inductive reply :=
| Accepted (idempotency_key : string)
| HTTPException (status_code : Z) (detail : string).

(** [require_idempotency_key].  [len] is taken on ASCII keys. *)
Definition require_idempotency_key (idempotency_key : option string) : reply :=
  match idempotency_key with
  | None | Some EmptyString =>
      HTTPException 400 "Idempotency-Key header is required for this endpoint"
  | Some key =>
      if (Z.of_nat (String.length key) <? 8) || (64 <? Z.of_nat (String.length key))
      then HTTPException 400 "Idempotency-Key must be 8-64 characters"
      else Accepted key
  end.

End IdempotencyDeps.

Module IdempotencyMoreExamples.
Import Idempotency IdempotencyExamples.

(** The store is unreachable. *)
Definition offline : World := mkWorld false store0 0.

(** An endpoint that fails after changing the application state. *)
Definition broken_endpoint : M World pyobj :=
  modify (fun w => mkWorld (redis_available w) (redis w) (app_state w + 1)) ;;;
  raise (mk_exn RuntimeError "mint failed").

(** No client yet, and connecting raises [e]. *)
Definition misconfigured (e : exn) (client_kept : bool) : World :=
  mkWorld (Failing e client_kept) store0 0.

(** The store with [text] cached under the key, without expiry. *)
Definition holding (key text : string) : World :=
  mkWorld true (Redis.set_db (insert key (Entry text None)) store0) 0.

End IdempotencyMoreExamples.
(* ===================================================================== *)
(** ** Facts about the Python helpers and the store                       *)
(* ===================================================================== *)

Section PyFacts.

Lemma to_int_canonical (z : Z) :
  Z.to_int z <> Decimal.Pos Decimal.Nil /\ Z.to_int z <> Decimal.Neg Decimal.Nil.
Proof.
  destruct z as [|p|p]; simpl; split; try discriminate;
    intros [= H]; revert H; apply Unsigned.to_uint_nonnil.
Qed.

(** [int(str(n)) == n] *)
Lemma parse_int_str_of_int (z : Z) : parse_int (str_of_int z) = Some z.
Proof.
  unfold parse_int, str_of_int.
  destruct (to_int_canonical z) as [Hp Hn].
  rewrite NilZero.isi by assumption.
  simpl. now rewrite DecimalZ.of_to.
Qed.

Lemma str_of_int_inj (a b : Z) : str_of_int a = str_of_int b -> a = b.
Proof.
  intros H. apply (f_equal parse_int) in H.
  rewrite !parse_int_str_of_int in H. congruence.
Qed.

Lemma string_length_app (a b : string) :
  String.length (a +:+ b) = (String.length a + String.length b)%nat.
Proof. induction a as [|c a IH]; simpl; [reflexivity | now rewrite IH]. Qed.

Lemma length_lower (s : string) : String.length (lower s) = String.length s.
Proof. induction s as [|c s IH]; simpl; [reflexivity | now rewrite IH]. Qed.

Lemma lower_ascii_idem (c : ascii) : lower_ascii (lower_ascii c) = lower_ascii c.
Proof. destruct c as [[] [] [] [] [] [] [] []]; reflexivity. Qed.

(** [s.lower().lower() == s.lower()] *)
Lemma lower_idem (s : string) : lower (lower s) = lower s.
Proof.
  induction s as [|c s IH]; simpl; [reflexivity|].
  now rewrite lower_ascii_idem, IH.
Qed.

End PyFacts.

Section MonadFacts.
Context {S A B : Type}.

Lemma bind_ok (m : M S A) (k : A -> M S B) (s s' : S) (a : A) :
  m s = (Ok a, s') -> bind m k s = k a s'.
Proof. intros H. unfold bind. now rewrite H. Qed.

Lemma bind_raise (m : M S A) (k : A -> M S B) (s s' : S) (e : exn) :
  m s = (Raise e, s') -> bind m k s = (Raise e, s').
Proof. intros H. unfold bind. now rewrite H. Qed.

Lemma bind_ret (a : A) (k : A -> M S B) (s : S) : bind (ret a) k s = k a s.
Proof. reflexivity. Qed.

Lemma bind_modify (f : S -> S) (k : unit -> M S B) (s : S) :
  bind (modify f) k s = k tt (f s).
Proof. reflexivity. Qed.

Lemma bind_gets (f : S -> A) (k : A -> M S B) (s : S) :
  bind (gets f) k s = k (f s) s.
Proof. reflexivity. Qed.

Lemma try_except_ok (m : M S A) (h : exn -> bool) (k : exn -> M S A)
    (s s' : S) (a : A) :
  m s = (Ok a, s') -> try_except m h k s = (Ok a, s').
Proof. intros H. unfold try_except. now rewrite H. Qed.

Lemma try_except_caught (m : M S A) (h : exn -> bool) (k : exn -> M S A)
    (s s' : S) (e : exn) :
  m s = (Raise e, s') -> h e = true -> try_except m h k s = k e s'.
Proof. intros H Hh. unfold try_except. now rewrite H, Hh. Qed.

End MonadFacts.

Section StoreFacts.

Lemma bind_set {B} (k v : string) (f : unit -> M World B) (w : World) :
  bind (set k v) f w = f tt (set k v w).2.
Proof. reflexivity. Qed.

Lemma bind_delete {B} (k : string) (f : unit -> M World B) (w : World) :
  bind (delete k) f w = f tt (delete k w).2.
Proof. reflexivity. Qed.

Lemma bind_get {B} (k : string) (f : option string -> M World B) (w : World) :
  bind (get k) f w = f (lookup_live k w) w.
Proof. reflexivity. Qed.

Lemma bind_time {B} (f : Z -> M World B) (w : World) :
  bind time_time f w = f (now w) w.
Proof. reflexivity. Qed.

Lemma now_set (k v : string) (w : World) : now (set k v w).2 = now w.
Proof. reflexivity. Qed.

Lemma now_delete (k : string) (w : World) : now (delete k w).2 = now w.
Proof. reflexivity. Qed.

Lemma live_antitone (t1 t2 : Z) (e : entry) :
  t1 <= t2 -> live t2 e = true -> live t1 e = true.
Proof.
  unfold live. destruct (expires_at e); [|reflexivity].
  intros Hle H. apply Z.ltb_lt in H. apply Z.ltb_lt. lia.
Qed.

Lemma lookup_live_insert_eq (k v : string) (d : option Z) (w : World) :
  live (now w) (Entry v d) = true ->
  lookup_live k (set_db (insert k (Entry v d)) w) = Some v.
Proof.
  intros H. unfold lookup_live, set_db. simpl.
  rewrite lookup_insert_eq. now rewrite H.
Qed.

Lemma lookup_live_insert_ne (k k' : string) (e : entry) (w : World) :
  k <> k' -> lookup_live k' (set_db (insert k e) w) = lookup_live k' w.
Proof.
  intros H. unfold lookup_live, set_db. simpl.
  now rewrite lookup_insert_ne.
Qed.

Lemma lookup_live_delete_eq (k : string) (w : World) :
  lookup_live k (set_db (base.delete k) w) = None.
Proof. unfold lookup_live, set_db. simpl. now rewrite lookup_delete_eq. Qed.

Lemma lookup_live_delete_ne (k k' : string) (w : World) :
  k <> k' -> lookup_live k' (set_db (base.delete k) w) = lookup_live k' w.
Proof.
  intros H. unfold lookup_live, set_db. simpl. now rewrite lookup_delete_ne.
Qed.

Lemma lookup_live_Some_raw (k v : string) (w : World) :
  lookup_live k w = Some v ->
  exists e, db w !! k = Some e /\ live (now w) e = true /\ value e = v.
Proof.
  unfold lookup_live. destruct (db w !! k) as [e|]; [|discriminate].
  destruct (live (now w) e) eqn:Hl; [|discriminate].
  intros [= <-]. eauto.
Qed.

End StoreFacts.

(* ===================================================================== *)
(** ** NonceManager: the lease                                            *)
(* ===================================================================== *)

Module NonceFacts.
Import NonceManager NonceAux.

Lemma last_attempt_nonneg (n : nat) (d : Z) : 0 <= d -> 0 <= last_attempt n d.
Proof.
  revert d. induction n as [|m IH]; intros d Hd; simpl; [lia|].
  destruct m as [|m']; [lia|].
  specialize (IH (Z.min (d * 2) 5000)). lia.
Qed.

Lemma nonce_key_ne_lock_key (a : string) : _get_lock_key a <> _get_nonce_key a.
Proof.
  unfold _get_nonce_key, _get_lock_key. intros H.
  apply (f_equal String.length) in H.
  rewrite !string_length_app in H. simpl in H. lia.
Qed.

Lemma release_lock_eq (k id : string) (w : World) :
  release_lock k id w =
  (Ok tt, if decide (lookup_live k w = Some id) then set_db (base.delete k) w else w).
Proof.
  unfold release_lock, bind, get, gets, delete, modify, ret.
  destruct (decide (lookup_live k w = Some id)); reflexivity.
Qed.

Lemma released_not_held (k id : string) (w : World) :
  lookup_live k (release_lock k id w).2 <> Some id.
Proof.
  rewrite release_lock_eq. simpl.
  destruct (decide (lookup_live k w = Some id)) as [He|Hne]; [|exact Hne].
  rewrite lookup_live_delete_eq. discriminate.
Qed.

Lemma with_lease_held (k id : string) (timeout : Z) (w : World) :
  0 < timeout -> lookup_live k (with_lease k id timeout w) = Some id.
Proof.
  intros H. unfold with_lease. apply lookup_live_insert_eq.
  unfold live. simpl. apply Z.ltb_lt. lia.
Qed.

(** A free key is taken by the first attempt. *)
Lemma acquire_loop_free {A} (n : nat) (wa k id : string) (timeout d : Z)
    (body : M World A) (w : World) :
  0 < timeout -> lookup_live k w = None ->
  acquire_loop (S n) wa k id timeout d body w =
  finally body (release_lock k id) (with_lease k id timeout w).
Proof.
  intros Ht Hfree. simpl. unfold bind at 1. unfold set_nx_ex.
  destruct (timeout <=? 0) eqn:E; [apply Z.leb_le in E; lia|].
  now rewrite Hfree.
Qed.

(** A key that stays held through the last attempt defeats all [n]
    attempts: the loop sleeps through its whole backoff schedule and
    raises, without running the body. *)
Lemma acquire_loop_held {A} (n : nat) (wa k id : string) (timeout : Z)
    (body : M World A) :
  0 < timeout ->
  forall (d : Z) (w : World) (e : entry),
    0 <= d ->
    db w !! k = Some e ->
    live (now w + last_attempt n d) e = true ->
    acquire_loop n wa k id timeout d body w =
    (Raise (lock_error wa), advance (total_backoff n d) w).
Proof.
  intros Ht. induction n as [|m IH]; intros d w e Hd He Hlive.
  - simpl. unfold raise, advance. destruct w; simpl. do 2 f_equal. lia.
  - assert (Hnow : live (now w) e = true).
    { apply (live_antitone _ (now w + last_attempt (S m) d)); [|exact Hlive].
      pose proof (last_attempt_nonneg (S m) d Hd). lia. }
    cbn [acquire_loop]. unfold bind at 1. unfold set_nx_ex.
    destruct (timeout <=? 0) eqn:E; [apply Z.leb_le in E; lia|].
    unfold lookup_live. rewrite He, Hnow.
    unfold bind, sleep, modify.
    destruct m as [|m'].
    + simpl. unfold raise, advance. simpl. do 2 f_equal. lia.
    + rewrite (IH (Z.min (d * 2) 5000) (advance d w) e).
      * unfold advance; simpl. do 2 f_equal. lia.
      * lia.
      * exact He.
      * replace (now (advance d w) + last_attempt (S m') (Z.min (d * 2) 5000))
          with (now w + last_attempt (S (S m')) d); [exact Hlive|].
        cbn [last_attempt now advance]. lia.
Qed.

Lemma advance_advance (a b : Z) (w : World) :
  advance b (advance a w) = advance (a + b) w.
Proof. unfold advance; simpl. f_equal. lia. Qed.

Lemma finally_release {A} (body : M World A) (k id : string) (w : World) :
  finally body (release_lock k id) w =
  ((body w).1, (release_lock k id (body w).2).2).
Proof.
  unfold finally. destruct (body w) as [r w2]. simpl.
  rewrite release_lock_eq. reflexivity.
Qed.

(** Every run of the loop either takes the lease at some world [w1] and
    runs the body there under [finally], or exhausts its attempts. *)
Lemma acquire_loop_cases (n : nat) (wa k id : string) (timeout : Z) :
  0 < timeout ->
  forall (d : Z) (w : World),
    (exists w1, lookup_live k w1 = Some id /\
       forall A (body : M World A),
         acquire_loop n wa k id timeout d body w =
         finally body (release_lock k id) w1)
    \/ (forall A (body : M World A),
          acquire_loop n wa k id timeout d body w =
          (Raise (lock_error wa), advance (total_backoff n d) w)).
Proof.
  intros Ht. induction n as [|m IH]; intros d w.
  - right. intros A body. simpl. unfold raise, advance.
    destruct w; simpl. do 2 f_equal. lia.
  - destruct (lookup_live k w) as [v|] eqn:Hk.
    + destruct (IH (Z.min (d * 2) 5000) (advance d w)) as [[w1 [Hheld Hrun]]|Hfail].
      * left. exists w1. split; [exact Hheld|]. intros A body.
        cbn [acquire_loop]. unfold bind at 1. unfold set_nx_ex.
        destruct (timeout <=? 0) eqn:E; [apply Z.leb_le in E; lia|].
        rewrite Hk. unfold bind, sleep, modify. apply Hrun.
      * right. intros A body.
        cbn [acquire_loop]. unfold bind at 1. unfold set_nx_ex.
        destruct (timeout <=? 0) eqn:E; [apply Z.leb_le in E; lia|].
        rewrite Hk. unfold bind, sleep, modify. rewrite Hfail.
        now rewrite advance_advance.
    + left. exists (with_lease k id timeout w).
      split; [now apply with_lease_held|].
      intros A body. now apply acquire_loop_free.
Qed.

Lemma advance_zero (w : World) : advance 0 w = w.
Proof. unfold advance. destruct w; simpl. f_equal. lia. Qed.

(** Where the loop takes the lease: after sleeping [s] milliseconds in
    all it finds the key free and writes its own id with a fresh expiry;
    the body starts in that world. *)
Lemma acquire_loop_places (n : nat) (wa k id : string) (timeout : Z) :
  0 < timeout ->
  forall (d : Z) (w : World),
    0 <= d ->
    (exists s : Z,
       0 <= s <= last_attempt n d
       /\ lookup_live k (advance s w) = None
       /\ forall A (body : M World A),
            acquire_loop n wa k id timeout d body w =
            finally body (release_lock k id)
              (with_lease k id timeout (advance s w)))
    \/ (forall A (body : M World A),
          acquire_loop n wa k id timeout d body w =
          (Raise (lock_error wa), advance (total_backoff n d) w)).
Proof.
  intros Ht. induction n as [|m IH]; intros d w Hd.
  - right. intros A body. simpl. unfold raise, advance.
    destruct w; simpl. do 2 f_equal. lia.
  - pose proof (last_attempt_nonneg (S m) d Hd) as Hnn.
    destruct (lookup_live k w) as [v|] eqn:Hk.
    + assert (Hstep : forall A (body : M World A),
                acquire_loop (S m) wa k id timeout d body w
                = acquire_loop m wa k id timeout (Z.min (d * 2) 5000) body
                    (advance d w)).
      { intros A body. cbn [acquire_loop]. unfold bind at 1. unfold set_nx_ex.
        destruct (timeout <=? 0) eqn:E; [apply Z.leb_le in E; lia|].
        rewrite Hk. reflexivity. }
      destruct m as [|m'].
      * right. intros A body. rewrite Hstep. simpl. unfold raise, advance.
        simpl. do 2 f_equal. lia.
      * destruct (IH (Z.min (d * 2) 5000) (advance d w) ltac:(lia))
          as [(s & Hs & Hfree & Hrun)|Hfail].
        -- left. exists (d + s). rewrite advance_advance in Hfree, Hrun.
           split; [|split; [exact Hfree|]].
           ++ change (last_attempt (S (S m')) d)
                with (d + last_attempt (S m') (Z.min (d * 2) 5000)). lia.
           ++ intros A body. rewrite Hstep. apply Hrun.
        -- right. intros A body. rewrite Hstep, Hfail.
           now rewrite advance_advance.
    + left. exists 0. rewrite advance_zero.
      split; [lia|]. split; [exact Hk|].
      intros A body. now apply acquire_loop_free.
Qed.

(** A [with acquire_lock] block entered with the key free, whose body
    leaves the lease in place: the body runs in the world that holds the
    lease and the lock key is deleted afterwards. *)
Lemma acquire_lock_free_run {A} (self : t) (wa : string) (body : M World A)
    (w : World) :
  0 < lock_timeout self ->
  lookup_live (_get_lock_key wa) w = None ->
  acquire_lock self wa None body w =
  finally body (release_lock (_get_lock_key wa) (lock_id_at w))
    (with_lease (_get_lock_key wa) (lock_id_at w) (lock_timeout self) w).
Proof.
  intros Ht Hfree. unfold acquire_lock, bind, time_time, gets.
  change max_retries with (S 9). simpl timeout_or.
  now rewrite acquire_loop_free.
Qed.

Lemma settle_db (lk nk : string) (e e' : entry) (d : gmap string entry) :
  lk <> nk ->
  base.delete lk (<[nk := e]> (<[lk := e']> d)) = base.delete lk (<[nk := e]> d).
Proof.
  intros Hne.
  rewrite !(delete_insert_ne _ lk nk) by exact Hne.
  now rewrite delete_insert_eq.
Qed.

(** The observable relation between the worlds before and after a failed
    reservation: only the clock and the lock key may differ, and the lock
    key is free again. *)
Lemma reserve_nonce_blocks_itself (self : t) (wallet_address : string) (w : World) :
  22 <= lock_timeout self ->
  lookup_live (_get_lock_key (lower wallet_address)) w = None ->
  exists w' : World,
    reserve_nonce self wallet_address w
      = (Raise (lock_error (lower wallet_address)), w')
    /\ now w' = now w + 26300
    /\ chain w' = chain w
    /\ lookup_live (_get_lock_key (lower wallet_address)) w' = None
    /\ forall k, k <> _get_lock_key (lower wallet_address) -> db w' !! k = db w !! k.
Proof.
  intros Ht Hfree.
  set (wa := lower wallet_address) in *.
  set (lk := _get_lock_key wa) in *.
  assert (Hwa : lower wa = wa) by apply lower_idem.
  unfold reserve_nonce. fold wa.
  rewrite acquire_lock_free_run by (fold lk; (lia || assumption)).
  fold lk. rewrite finally_release.
  set (w1 := with_lease lk (lock_id_at w) (lock_timeout self) w).
  (* the nested [get_nonce] asks for the lease that [w1] already holds *)
  assert (Hinner : forall B (k : Z -> M World B),
    bind (get_nonce self wa false) k w1
    = (Raise (lock_error wa), advance 26300 w1)).
  { intros B k. unfold bind at 1. unfold get_nonce. rewrite Hwa.
    unfold acquire_lock, bind, time_time, gets. fold lk.
    simpl timeout_or.
    erewrite (acquire_loop_held max_retries wa lk).
    - reflexivity.
    - lia.
    - lia.
    - unfold w1, with_lease, set_db. simpl. apply lookup_insert_eq.
    - unfold live. simpl. apply Z.ltb_lt. lia. }
  rewrite Hinner. simpl fst. simpl snd.
  rewrite release_lock_eq. simpl snd.
  assert (Hraw : db (advance 26300 w1) !! lk
                 = Some (Entry (lock_id_at w) (Some (now w + 1000 * lock_timeout self)))).
  { unfold w1, with_lease, set_db, advance. simpl. apply lookup_insert_eq. }
  eexists. split; [reflexivity|].
  destruct (decide (lookup_live lk (advance 26300 w1) = Some (lock_id_at w)))
    as [Hd|Hd].
  - repeat split.
    + apply lookup_live_delete_eq.
    + intros k Hk. simpl. rewrite lookup_delete_ne by congruence.
      apply lookup_insert_ne. congruence.
  - repeat split.
    + unfold lookup_live in *. rewrite Hraw in *. simpl in *.
      destruct (live (now w + 26300) _); [congruence|reflexivity].
    + intros k Hk. simpl. apply lookup_insert_ne. congruence.
Qed.

End NonceFacts.

Section NonceTheorems.
Import NonceManager NonceAux NonceFacts NonceExamples.

(** C10 -- Release by [acquire_lock].  A run of
    [with acquire_lock(wallet, timeout): body] that takes the lease does so
    by writing its own [lock_id] under the lock key, found free after [s]
    milliseconds of backoff; the body starts in that world.  When the body
    ends, whatever it did and however it ended, the statement deletes
    the lock key exactly when the key still holds that [lock_id], and
    changes nothing else.  When the key then holds another holder's id
    (the lease expired and was taken over), the world is left as the body
    left it and the key still holds the other id.  A run that never
    takes the lease releases nothing. *)
Theorem acquire_lock_releases_only_own_lease
    (self : t) (wallet_address : string) (timeout : option Z) (w : World) :
  let T := timeout_or timeout (lock_timeout self) in
  let lock_key := _get_lock_key wallet_address in
  let lock_id := lock_id_at w in
  0 < T ->
  (exists s : Z,
      0 <= s <= 21300
      /\ lookup_live lock_key (advance s w) = None
      /\ let w1 := set_db (insert lock_key
                             (Entry lock_id (Some (now w + s + 1000 * T))))
                     (advance s w) in
         forall (A : Type) (body : M World A),
           let w2 := (body w1).2 in
           let after := (acquire_lock self wallet_address timeout body w).2 in
           (acquire_lock self wallet_address timeout body w).1 = (body w1).1
           /\ (lookup_live lock_key w2 = Some lock_id ->
                 after = set_db (base.delete lock_key) w2)
           /\ (forall other : string,
                 other <> lock_id ->
                 lookup_live lock_key w2 = Some other ->
                 after = w2 /\ lookup_live lock_key after = Some other)
           /\ (lookup_live lock_key w2 = None -> after = w2))
  \/ (forall (A : Type) (body : M World A),
        acquire_lock self wallet_address timeout body w =
          (Raise (lock_error wallet_address), advance 26300 w)).
Proof.
  intros T lock_key lock_id Ht.
  destruct (acquire_loop_places max_retries wallet_address lock_key lock_id T Ht
              100 w ltac:(lia))
    as [(s & Hs & Hfree & Hrun)|Hfail].
  - left. exists s. split; [exact Hs|]. split; [exact Hfree|].
    intros w1 A body w2 after.
    assert (E : acquire_lock self wallet_address timeout body w =
                ((body w1).1,
                 if decide (lookup_live lock_key w2 = Some lock_id)
                 then set_db (base.delete lock_key) w2 else w2)).
    { unfold acquire_lock, bind, time_time, gets.
      fold lock_key. fold T. change (str_of_int (now w)) with lock_id.
      rewrite Hrun, finally_release, release_lock_eq. reflexivity. }
    subst after. rewrite E. cbn [fst snd].
    split; [reflexivity|]. split; [|split].
    + intros Hmine. now rewrite decide_True.
    + intros other Hne Hother.
      rewrite decide_False by congruence. auto.
    + intros Hnone. now rewrite decide_False by congruence.
  - right. intros A body.
    unfold acquire_lock, bind, time_time, gets.
    fold lock_key. fold T. change (str_of_int (now w)) with lock_id.
    rewrite Hfail. reflexivity.
Qed.

(** C8 -- Scoped acquisition.  For a positive lock timeout, every run of
    [with acquire_lock(wallet, timeout): body] goes one of two ways.
    Either the lease is taken (the lock key holds this run's [lock_id] in
    the world [w1] where the body starts): then the body runs once, its
    outcome -- a value or a raised exception alike -- is the outcome of
    the whole statement, the [finally] release has run on the body's final
    world, and the key no longer holds this run's [lock_id].  Or all ten
    attempts found the key held: then the statement raises [RuntimeError]
    after sleeping through the whole backoff schedule (26.3 s), whatever
    the body is, so the body never ran. *)
Theorem acquire_lock_released_on_every_exit
    (self : t) (wallet_address : string) (timeout : option Z) (w : World) :
  0 < timeout_or timeout (lock_timeout self) ->
  let lock_key := _get_lock_key wallet_address in
  let lock_id := lock_id_at w in
  (exists w1 : World,
      lookup_live lock_key w1 = Some lock_id /\
      forall (A : Type) (body : M World A),
        acquire_lock self wallet_address timeout body w =
          ((body w1).1, (release_lock lock_key lock_id (body w1).2).2)
        /\ lookup_live lock_key
             (acquire_lock self wallet_address timeout body w).2 <> Some lock_id)
  \/ (forall (A : Type) (body : M World A),
        acquire_lock self wallet_address timeout body w =
          (Raise (lock_error wallet_address), advance 26300 w)).
Proof.
  intros Ht lock_key lock_id.
  destruct (acquire_loop_cases max_retries wallet_address lock_key lock_id
              (timeout_or timeout (lock_timeout self)) Ht 100 w)
    as [[w1 [Hheld Hrun]]|Hfail].
  - left. exists w1. split; [exact Hheld|]. intros A body.
    assert (E : acquire_lock self wallet_address timeout body w =
                ((body w1).1, (release_lock lock_key lock_id (body w1).2).2)).
    { unfold acquire_lock, bind, time_time, gets.
      fold lock_key. change (str_of_int (now w)) with lock_id.
      rewrite Hrun. apply finally_release. }
    split; [exact E|]. rewrite E. simpl. apply released_not_held.
  - right. intros A body.
    unfold acquire_lock, bind, time_time, gets.
    fold lock_key. change (str_of_int (now w)) with lock_id.
    rewrite Hfail. reflexivity.
Qed.

Lemma acquire_lock_released_on_every_exit_witness :
  0 < timeout_or None (lock_timeout (mk 30)) /\
  ((exists w1 : World,
      lookup_live (_get_lock_key wallet) w1 = Some (lock_id_at (world0 10)) /\
      forall (A : Type) (body : M World A),
        acquire_lock (mk 30) wallet None body (world0 10) =
          ((body w1).1,
           (release_lock (_get_lock_key wallet) (lock_id_at (world0 10)) (body w1).2).2)
        /\ lookup_live (_get_lock_key wallet)
             (acquire_lock (mk 30) wallet None body (world0 10)).2
           <> Some (lock_id_at (world0 10)))
   \/ (forall (A : Type) (body : M World A),
        acquire_lock (mk 30) wallet None body (world0 10) =
          (Raise (lock_error wallet), advance 26300 (world0 10)))).
Proof.
  split; [reflexivity|].
  apply (acquire_lock_released_on_every_exit (mk 30) wallet None (world0 10)).
  reflexivity.
Defined.

Lemma acquire_lock_releases_only_own_lease_witness :
  let T := timeout_or None (lock_timeout (mk 30)) in
  let lock_key := _get_lock_key wallet in
  let lock_id := lock_id_at (world0 10) in
  0 < T
  /\ ((exists s : Z,
         0 <= s <= 21300
         /\ lookup_live lock_key (advance s (world0 10)) = None
         /\ let w1 := set_db (insert lock_key
                                (Entry lock_id
                                   (Some (now (world0 10) + s + 1000 * T))))
                        (advance s (world0 10)) in
            forall (A : Type) (body : M World A),
              let w2 := (body w1).2 in
              let after := (acquire_lock (mk 30) wallet None body (world0 10)).2 in
              (acquire_lock (mk 30) wallet None body (world0 10)).1 = (body w1).1
              /\ (lookup_live lock_key w2 = Some lock_id ->
                    after = set_db (base.delete lock_key) w2)
              /\ (forall other : string,
                    other <> lock_id ->
                    lookup_live lock_key w2 = Some other ->
                    after = w2 /\ lookup_live lock_key after = Some other)
              /\ (lookup_live lock_key w2 = None -> after = w2))
      \/ (forall (A : Type) (body : M World A),
            acquire_lock (mk 30) wallet None body (world0 10) =
              (Raise (lock_error wallet), advance 26300 (world0 10)))).
Proof.
  intros T lock_key lock_id. split; [reflexivity|].
  apply (acquire_lock_releases_only_own_lease (mk 30) wallet None (world0 10)).
  reflexivity.
Defined.

(** A block that outlives its 30 s lease, after which another holder
    takes the lock: on exit the other holder's lease is still in place.
    A block that ends in time leaves the key deleted. *)
Example overrun_leaves_the_new_holder_alone :
  let lock_key := _get_lock_key wallet in
  let overrun : M World unit :=
    sleep 31000 ;;; _ <- set_nx_ex lock_key "someone-else" 30 ;; ret tt in
  let after := (acquire_lock (mk 30) wallet None overrun (world0 10)).2 in
  lookup_live lock_key after = Some "someone-else"
  /\ lookup_live lock_key
       (acquire_lock (mk 30) wallet None (sleep 1000) (world0 10)).2 = None
  /\ db (acquire_lock (mk 30) wallet None (sleep 1000) (world0 10)).2 = ∅.
Proof. vm_compute. repeat split. Qed.

(** C7 -- [get_nonce], called with the wallet's lock free and the chain
    reporting the transaction count [c].  With no stored value, or with
    [force_sync], it returns [c] and stores [str(c)].  Otherwise, for a
    stored integer [z], it returns [max(z, c)] and writes the nonce key
    exactly when that maximum differs from [z]: the world afterwards is
    [settled ... (Some (max z c))] in that case and [settled ... None],
    with the stored entry as it was, when the two are equal.  In every
    case the lock key is gone afterwards and nothing else changes. *)
Theorem get_nonce_adopts_chain_or_max
    (self : t) (wallet_address : string) (force_sync : bool) (w : World) (c : Z) :
  let wa := lower wallet_address in
  let lock_key := _get_lock_key wa in
  let nonce_key := _get_nonce_key wa in
  0 < lock_timeout self ->
  lookup_live lock_key w = None ->
  chain w wa = Ok c ->
  match lookup_live nonce_key w, force_sync with
  | Some s, false =>
      forall z : Z,
        parse_int s = Some z ->
        get_nonce self wallet_address force_sync w
        = (Ok (Z.max z c),
           settled lock_key nonce_key
             (if decide (Z.max z c <> z) then Some (Z.max z c) else None) w)
  | _, _ =>
      get_nonce self wallet_address force_sync w
      = (Ok c, settled lock_key nonce_key (Some c) w)
  end.
Proof.
  intros wa lock_key nonce_key Ht Hfree Hc.
  assert (Hne : lock_key <> nonce_key) by apply nonce_key_ne_lock_key.
  unfold get_nonce. fold wa. fold nonce_key.
  rewrite acquire_lock_free_run by assumption.
  fold lock_key.
  set (w1 := with_lease lock_key (lock_id_at w) (lock_timeout self) w).
  assert (Hheld : lookup_live lock_key w1 = Some (lock_id_at w))
    by (apply with_lease_held; exact Ht).
  assert (Hn1 : lookup_live nonce_key w1 = lookup_live nonce_key w)
    by (apply lookup_live_insert_ne; exact Hne).
  assert (Hc1 : chain w1 wa = Ok c) by exact Hc.
  assert (Hset : forall n,
    release_lock lock_key (lock_id_at w)
       (set_db (insert nonce_key (Entry (str_of_int n) None)) w1)
    = (Ok tt, settled lock_key nonce_key (Some n) w)).
  { intros n. rewrite release_lock_eq.
    rewrite lookup_live_insert_ne by congruence.
    rewrite Hheld. rewrite decide_True by reflexivity.
    unfold settled, set_db, w1, with_lease, set_db. simpl. do 2 f_equal.
    now apply settle_db. }
  assert (Hkeep :
    release_lock lock_key (lock_id_at w) w1
    = (Ok tt, settled lock_key nonce_key None w)).
  { rewrite release_lock_eq. rewrite Hheld. rewrite decide_True by reflexivity.
    unfold settled, set_db, w1, with_lease, set_db. simpl. do 2 f_equal.
    apply delete_insert_eq. }
  clearbody w1.
  unfold finally, bind, get, gets, get_transaction_count.
  rewrite Hn1, Hc1.
  destruct (lookup_live nonce_key w) as [s|] eqn:Hs.
  - destruct force_sync.
    + unfold set, modify, ret. now rewrite Hset.
    + intros z Hz. unfold int_of_str. rewrite Hz.
      unfold ret at 1.
      destruct (decide (Z.max z c <> z)) as [Hd|Hd].
      * unfold set, modify, ret. now rewrite Hset.
      * unfold ret. now rewrite Hkeep.
  - destruct force_sync; unfold set, modify, ret; now rewrite Hset.
Qed.

Lemma get_nonce_adopts_chain_or_max_witness :
  let behind := set_db (insert (_get_nonce_key (lower wallet)) (Entry "7" None))
                  (world0 10) in
  let ahead := set_db (insert (_get_nonce_key (lower wallet)) (Entry "12" None))
                 (world0 10) in
  let lock_key := _get_lock_key (lower wallet) in
  let nonce_key := _get_nonce_key (lower wallet) in
  get_nonce (mk 30) wallet false (world0 10)
    = (Ok 10, settled lock_key nonce_key (Some 10) (world0 10))
  /\ get_nonce (mk 30) wallet false behind
     = (Ok 10, settled lock_key nonce_key (Some 10) behind)
  /\ get_nonce (mk 30) wallet false ahead
     = (Ok 12, settled lock_key nonce_key None ahead).
Proof.
  intros behind ahead lock_key nonce_key.
  split; [|split].
  - apply (get_nonce_adopts_chain_or_max (mk 30) wallet false (world0 10) 10);
      reflexivity.
  - apply (get_nonce_adopts_chain_or_max (mk 30) wallet false behind 10 eq_refl
             eq_refl eq_refl 7 eq_refl).
  - apply (get_nonce_adopts_chain_or_max (mk 30) wallet false ahead 10 eq_refl
             eq_refl eq_refl 12 eq_refl).
Defined.

(** C1 -- What the code does instead of handing out C, C+1, ...:
    [reserve_nonce] takes the wallet's lock and then calls [get_nonce],
    which asks for the same lock again.  The lock is not re-entrant, so for
    every lock timeout of 22 s or more (the default is 30 s) the inner
    acquisition sees the key held at all ten attempts and raises
    [RuntimeError] after 26.3 s.  Hence each of [n] successive calls on a
    wallet whose lock is free raises, no nonce is returned, and no key
    other than the lock key -- in particular not the stored nonce -- is
    written. *)
Theorem reserve_nonce_never_returns
    (self : t) (wallet_address : string) (n : nat) (w : World) :
  22 <= lock_timeout self ->
  lookup_live (_get_lock_key (lower wallet_address)) w = None ->
  exists w' : World,
    reserve_many self wallet_address n w
      = (replicate n (Raise (lock_error (lower wallet_address))), w')
    /\ now w' = now w + 26300 * Z.of_nat n
    /\ lookup_live (_get_nonce_key (lower wallet_address)) w'
       = lookup_live (_get_nonce_key (lower wallet_address)) (advance (26300 * Z.of_nat n) w)
    /\ forall k, k <> _get_lock_key (lower wallet_address) -> db w' !! k = db w !! k.
Proof.
  intros Ht. revert w.
  induction n as [|m IH]; intros w Hfree.
  - exists w. repeat split.
    + simpl. lia.
    + unfold lookup_live, advance. simpl. now rewrite Z.add_0_r.
  - destruct (reserve_nonce_blocks_itself self wallet_address w Ht Hfree)
      as (w1 & Hrun & Hnow & Hchain & Hfree1 & Hkeys).
    destruct (IH w1 Hfree1) as (w2 & Hrest & Hnow2 & _ & Hkeys2).
    exists w2. cbn [reserve_many]. rewrite Hrun, Hrest.
    assert (Hall : forall k, k <> _get_lock_key (lower wallet_address) ->
              db w2 !! k = db w !! k).
    { intros k Hk. rewrite Hkeys2, Hkeys by assumption. reflexivity. }
    repeat split.
    + lia.
    + unfold lookup_live, advance. simpl.
      rewrite Hall by (apply not_eq_sym, nonce_key_ne_lock_key).
      replace (now w2) with (now w + 26300 * Z.of_nat (S m)) by lia.
      reflexivity.
    + exact Hall.
Qed.

Lemma reserve_nonce_never_returns_witness :
  22 <= lock_timeout (mk 30)
  /\ lookup_live (_get_lock_key (lower wallet)) (world0 10) = None
  /\ exists w' : World,
       reserve_many (mk 30) wallet 2 (world0 10)
         = ([Raise (lock_error (lower wallet)); Raise (lock_error (lower wallet))], w')
       /\ now w' = now (world0 10) + 26300 * 2
       /\ lookup_live (_get_nonce_key (lower wallet)) w'
          = lookup_live (_get_nonce_key (lower wallet)) (advance (26300 * 2) (world0 10))
       /\ forall k, k <> _get_lock_key (lower wallet) ->
                    db w' !! k = db (world0 10) !! k.
Proof.
  split; [simpl; lia|]. split; [reflexivity|].
  apply (reserve_nonce_never_returns (mk 30) wallet 2 (world0 10)).
  - simpl; lia.
  - reflexivity.
Defined.

(** With a lock timeout of 20 s the nested acquisition does get through,
    at its tenth attempt, 21.3 s in -- once the caller's own lease has
    expired. *)
Example reserve_nonce_short_timeout_outlives_its_lease :
  (reserve_nonce (mk 20) wallet (world0 10)).1 = Ok 10
  /\ now (reserve_nonce (mk 20) wallet (world0 10)).2 = now (world0 10) + 21300
  /\ lookup_live (_get_nonce_key (lower wallet))
       (reserve_nonce (mk 20) wallet (world0 10)).2 = Some "11".
Proof. vm_compute. repeat split; reflexivity. Qed.

(** The same run evaluated: chain count 10, empty store, default timeout. *)
Example reserve_nonce_default_timeout_raises :
  (reserve_nonce (mk 30) wallet (world0 10)).1 = Raise (lock_error (lower wallet))
  /\ lookup_live (_get_nonce_key (lower wallet))
       (reserve_nonce (mk 30) wallet (world0 10)).2 = None.
Proof. vm_compute. split; reflexivity. Qed.

End NonceTheorems.

(* ===================================================================== *)
(** ** CircuitBreaker: state machine                                      *)
(* ===================================================================== *)

Module BreakerFacts.
Import CircuitBreaker BreakerAux.

Lemma string_app_inv_head (a b c : string) : a +:+ b = a +:+ c -> b = c.
Proof. induction a as [|x a IH]; simpl; [auto | intros [= H]; auto]. Qed.

Ltac key_ne :=
  unfold _get_state_key, _get_failure_count_key, _get_success_count_key,
         _get_last_failure_key;
  let H := fresh in
  intros H; apply string_app_inv_head in H; apply string_app_inv_head in H;
  discriminate H.

Section Keys.
Variable self : t.
Lemma state_ne_fail : _get_state_key self <> _get_failure_count_key self.
Proof. key_ne. Qed.
Lemma state_ne_succ : _get_state_key self <> _get_success_count_key self.
Proof. key_ne. Qed.
Lemma state_ne_last : _get_state_key self <> _get_last_failure_key self.
Proof. key_ne. Qed.
Lemma fail_ne_succ : _get_failure_count_key self <> _get_success_count_key self.
Proof. key_ne. Qed.
Lemma fail_ne_last : _get_failure_count_key self <> _get_last_failure_key self.
Proof. key_ne. Qed.
Lemma succ_ne_last : _get_success_count_key self <> _get_last_failure_key self.
Proof. key_ne. Qed.
Lemma fail_ne_state : _get_failure_count_key self <> _get_state_key self.
Proof. key_ne. Qed.
Lemma succ_ne_state : _get_success_count_key self <> _get_state_key self.
Proof. key_ne. Qed.
Lemma last_ne_state : _get_last_failure_key self <> _get_state_key self.
Proof. key_ne. Qed.
Lemma succ_ne_fail : _get_success_count_key self <> _get_failure_count_key self.
Proof. key_ne. Qed.
Lemma last_ne_fail : _get_last_failure_key self <> _get_failure_count_key self.
Proof. key_ne. Qed.
Lemma last_ne_succ : _get_last_failure_key self <> _get_success_count_key self.
Proof. key_ne. Qed.
End Keys.

Create HintDb breaker_keys.
#[export] Hint Resolve state_ne_fail state_ne_succ state_ne_last fail_ne_succ
  fail_ne_last succ_ne_last fail_ne_state succ_ne_state last_ne_state
  succ_ne_fail last_ne_fail last_ne_succ : breaker_keys.

(** Effect of the store commands on what [GET] sees. *)
Lemma get_eq (k : string) (w : World) : get k w = (Ok (lookup_live k w), w).
Proof. reflexivity. Qed.

Lemma lookup_set (k v k' : string) (w : World) :
  lookup_live k' (set k v w).2 = if decide (k = k') then Some v else lookup_live k' w.
Proof.
  unfold set, modify. simpl. destruct (decide (k = k')) as [->|Hne].
  - now apply lookup_live_insert_eq.
  - now apply lookup_live_insert_ne.
Qed.

Lemma lookup_delete (k k' : string) (w : World) :
  lookup_live k' (delete k w).2 = if decide (k = k') then None else lookup_live k' w.
Proof.
  unfold delete, modify. simpl. destruct (decide (k = k')) as [->|Hne].
  - apply lookup_live_delete_eq.
  - now apply lookup_live_delete_ne.
Qed.

Lemma str_of_int_nonempty (n : Z) : str_of_int n <> EmptyString.
Proof.
  intros H. pose proof (parse_int_str_of_int n) as P. rewrite H in P.
  discriminate P.
Qed.

Lemma int_or_zero_str (n : Z) (w : World) :
  int_or_zero (Some (str_of_int n)) w = (Ok n, w).
Proof.
  unfold int_or_zero. pose proof (str_of_int_nonempty n) as Hne.
  destruct (str_of_int n) as [|c s] eqn:E; [congruence|].
  unfold int_of_str. rewrite <- E, parse_int_str_of_int. reflexivity.
Qed.

Lemma int_or_zero_counter (k : string) (w w' : World) (n : Z) :
  counter k w = Some n -> int_or_zero (lookup_live k w) w' = (Ok n, w').
Proof.
  unfold counter, int_or_zero. destruct (lookup_live k w) as [s|].
  - intros H. destruct s as [|c s]; [discriminate H|].
    unfold int_of_str. now rewrite H.
  - now intros [= <-].
Qed.

(** [INCR] on a key that stands for [n]. *)
Lemma incr_counter (k : string) (w : World) (n : Z) :
  counter k w = Some n ->
  exists w',
    incr k w = (Ok (n + 1), w')
    /\ now w' = now w
    /\ lookup_live k w' = Some (str_of_int (n + 1))
    /\ forall k', k <> k' -> lookup_live k' w' = lookup_live k' w.
Proof.
  unfold counter, lookup_live, incr. intros H.
  destruct (db w !! k) as [e|] eqn:He.
  - destruct (live (now w) e) eqn:Hl.
    + rewrite H. eexists. split; [reflexivity|]. split; [reflexivity|]. split.
      * unfold set_db. simpl. rewrite lookup_insert_eq.
        unfold live in *. simpl. now rewrite Hl.
      * intros k' Hne. unfold set_db. simpl. now rewrite lookup_insert_ne.
    + injection H as <-. eexists. split; [reflexivity|]. split; [reflexivity|]. split.
      * unfold set_db. simpl. now rewrite lookup_insert_eq.
      * intros k' Hne. unfold set_db. simpl. now rewrite lookup_insert_ne.
  - injection H as <-. eexists. split; [reflexivity|]. split; [reflexivity|]. split.
    + unfold set_db. simpl. now rewrite lookup_insert_eq.
    + intros k' Hne. unfold set_db. simpl. now rewrite lookup_insert_ne.
Qed.

(** What the getters return, from what [GET] sees. *)
Lemma get_state_lookup (self : t) (w : World) (s : CircuitState) :
  lookup_live (_get_state_key self) w = Some (state_value s) ->
  get_state self w = (Ok s, w).
Proof.
  intros H. unfold get_state, bind. rewrite get_eq, H.
  destruct s; reflexivity.
Qed.

Lemma get_state_absent (self : t) (w : World) :
  lookup_live (_get_state_key self) w = None ->
  get_state self w = (Ok CLOSED, w).
Proof. intros H. unfold get_state, bind. now rewrite get_eq, H. Qed.

Lemma get_state_pure (self : t) (w : World) : (get_state self w).2 = w.
Proof.
  unfold get_state, bind. rewrite get_eq.
  destruct (lookup_live _ w) as [v|]; [|reflexivity].
  destruct (state_of_value v); reflexivity.
Qed.

(** Conversely, a state read from the store pins down the stored value. *)
Lemma get_state_inv (self : t) (w : World) (s : CircuitState) :
  (get_state self w).1 = Ok s ->
  lookup_live (_get_state_key self) w = Some (state_value s)
  \/ (s = CLOSED /\ lookup_live (_get_state_key self) w = None).
Proof.
  unfold get_state, bind. rewrite get_eq.
  destruct (lookup_live _ w) as [v|].
  - unfold state_of_value.
    repeat case_decide; subst; simpl; intros [= <-]; auto.
  - simpl. intros [= <-]. auto.
Qed.

Lemma get_state_eq (self : t) (w : World) (s : CircuitState) :
  (get_state self w).1 = Ok s -> get_state self w = (Ok s, w).
Proof.
  intros H. pose proof (get_state_pure self w) as P.
  destruct (get_state self w) as [r w']. simpl in *. congruence.
Qed.

Lemma failure_count_counter (self : t) (w : World) (n : Z) :
  counter (_get_failure_count_key self) w = Some n ->
  _get_failure_count self w = (Ok n, w).
Proof.
  intros H. unfold _get_failure_count, bind. rewrite get_eq.
  now apply int_or_zero_counter.
Qed.

Lemma success_count_counter (self : t) (w : World) (n : Z) :
  counter (_get_success_count_key self) w = Some n ->
  _get_success_count self w = (Ok n, w).
Proof.
  intros H. unfold _get_success_count, bind. rewrite get_eq.
  now apply int_or_zero_counter.
Qed.

Ltac lk :=
  repeat (rewrite lookup_set || rewrite lookup_delete);
  repeat first [ rewrite decide_True by reflexivity
               | rewrite decide_False by (auto with breaker_keys) ].

Lemma set_state_run (self : t) (s : CircuitState) (w : World) :
  _set_state self s w = (Ok tt, (set (_get_state_key self) (state_value s) w).2).
Proof. reflexivity. Qed.

(** [_increment_failure_count]: bumps the counter and stamps the clock. *)
Lemma increment_failure_count_spec (self : t) (w : World) (n : Z) :
  counter (_get_failure_count_key self) w = Some n ->
  exists w',
    _increment_failure_count self w = (Ok (n + 1), w')
    /\ now w' = now w
    /\ lookup_live (_get_failure_count_key self) w' = Some (str_of_int (n + 1))
    /\ lookup_live (_get_last_failure_key self) w' = Some (str_of_int (now w))
    /\ forall k, k <> _get_failure_count_key self -> k <> _get_last_failure_key self ->
         lookup_live k w' = lookup_live k w.
Proof.
  intros Hc.
  destruct (incr_counter _ _ _ Hc) as (w1 & Hincr & Hnow1 & Hfk1 & Hoth1).
  exists (set (_get_last_failure_key self) (str_of_int (now w1)) w1).2.
  split.
  { unfold _increment_failure_count.
    rewrite (bind_ok _ _ _ _ _ Hincr), bind_time, bind_set. reflexivity. }
  rewrite now_set. split; [exact Hnow1|].
  lk. rewrite Hfk1, Hnow1.
  split; [reflexivity|]. split; [reflexivity|].
  intros k Hk1 Hk2. lk. try rewrite decide_False by congruence.
  apply Hoth1. congruence.
Qed.

(** [_on_failure] in HALF_OPEN. *)
Lemma on_failure_half_open (self : t) (e : exn) (w : World) (fc : Z) :
  lookup_live (_get_state_key self) w = Some (state_value HALF_OPEN) ->
  counter (_get_failure_count_key self) w = Some fc ->
  exists w',
    _on_failure self e w = (Ok tt, w')
    /\ now w' = now w
    /\ lookup_live (_get_state_key self) w' = Some (state_value OPEN)
    /\ lookup_live (_get_success_count_key self) w' = None
    /\ lookup_live (_get_failure_count_key self) w' = Some (str_of_int (fc + 1))
    /\ lookup_live (_get_last_failure_key self) w' = Some (str_of_int (now w)).
Proof.
  intros Hs Hc.
  set (w1 := (set (_get_state_key self) (state_value OPEN) w).2).
  set (w2 := (delete (_get_success_count_key self) w1).2).
  assert (Hc2 : counter (_get_failure_count_key self) w2 = Some fc).
  { unfold counter, w2, w1. lk. exact Hc. }
  destruct (increment_failure_count_spec _ _ _ Hc2)
    as (w3 & Hinc & Hnow3 & Hfk3 & Hlk3 & Hoth3).
  exists w3. split.
  { unfold _on_failure.
    rewrite (bind_ok _ _ _ _ _ (get_state_lookup self w HALF_OPEN Hs)).
    unfold _set_state, _reset_success_count. rewrite bind_set, bind_delete.
    fold w1. fold w2. rewrite (bind_ok _ _ _ _ _ Hinc). reflexivity. }
  split; [exact Hnow3|].
  rewrite !Hoth3 by auto with breaker_keys.
  unfold w2, w1. lk. auto.
Qed.

(** [_on_failure] in CLOSED. *)
Lemma on_failure_closed (self : t) (e : exn) (w : World) (fc : Z) :
  get_state self w = (Ok CLOSED, w) ->
  counter (_get_failure_count_key self) w = Some fc ->
  exists w',
    _on_failure self e w = (Ok tt, w')
    /\ now w' = now w
    /\ get_state self w'
       = (Ok (if failure_threshold (config self) <=? fc + 1 then OPEN else CLOSED), w')
    /\ lookup_live (_get_failure_count_key self) w' = Some (str_of_int (fc + 1))
    /\ lookup_live (_get_last_failure_key self) w' = Some (str_of_int (now w))
    /\ lookup_live (_get_success_count_key self) w'
       = lookup_live (_get_success_count_key self) w.
Proof.
  intros Hs Hc.
  destruct (increment_failure_count_spec _ _ _ Hc)
    as (w1 & Hinc & Hnow1 & Hfk1 & Hlk1 & Hoth1).
  assert (Hs1 : get_state self w1 = (Ok CLOSED, w1)).
  { destruct (get_state_inv self w CLOSED) as [H|[_ H]]; [now rewrite Hs| |].
    - apply get_state_lookup. rewrite Hoth1 by auto with breaker_keys. exact H.
    - apply get_state_absent. rewrite Hoth1 by auto with breaker_keys. exact H. }
  destruct (failure_threshold (config self) <=? fc + 1) eqn:Hth.
  - exists (set (_get_state_key self) (state_value OPEN) w1).2. split.
    { unfold _on_failure. rewrite (bind_ok _ _ _ _ _ Hs).
      rewrite (bind_ok _ _ _ _ _ Hinc). rewrite Hth. reflexivity. }
    rewrite now_set. split; [exact Hnow1|]. split.
    { apply get_state_lookup. lk. reflexivity. }
    lk. rewrite Hfk1, Hlk1. repeat split.
    apply Hoth1; auto with breaker_keys.
  - exists w1. split.
    { unfold _on_failure. rewrite (bind_ok _ _ _ _ _ Hs).
      rewrite (bind_ok _ _ _ _ _ Hinc). rewrite Hth. reflexivity. }
    repeat split; auto. apply Hoth1; auto with breaker_keys.
Qed.

(** [_on_success] in HALF_OPEN, below and at the threshold. *)
Lemma on_success_half_open (self : t) (w : World) (sc : Z) :
  lookup_live (_get_state_key self) w = Some (state_value HALF_OPEN) ->
  counter (_get_success_count_key self) w = Some sc ->
  exists w',
    _on_success self w = (Ok tt, w')
    /\ now w' = now w
    /\ if success_threshold (config self) <=? sc + 1 then
         lookup_live (_get_state_key self) w' = Some (state_value CLOSED)
         /\ lookup_live (_get_failure_count_key self) w' = None
         /\ lookup_live (_get_success_count_key self) w' = None
       else
         lookup_live (_get_state_key self) w' = Some (state_value HALF_OPEN)
         /\ lookup_live (_get_failure_count_key self) w'
            = lookup_live (_get_failure_count_key self) w
         /\ lookup_live (_get_success_count_key self) w' = Some (str_of_int (sc + 1)).
Proof.
  intros Hs Hc.
  destruct (incr_counter _ _ _ Hc) as (w1 & Hincr & Hnow1 & Hsk1 & Hoth1).
  destruct (success_threshold (config self) <=? sc + 1) eqn:Hth.
  - exists (delete (_get_success_count_key self)
              (delete (_get_failure_count_key self)
                 (set (_get_state_key self) (state_value CLOSED) w1).2).2).2.
    split.
    { unfold _on_success.
      rewrite (bind_ok _ _ _ _ _ (get_state_lookup self w HALF_OPEN Hs)).
      unfold _increment_success_count. rewrite (bind_ok _ _ _ _ _ Hincr).
      rewrite Hth. unfold _set_state, _reset_failure_count, _reset_success_count.
      rewrite bind_set, bind_delete. reflexivity. }
    rewrite now_delete, now_delete, now_set. split; [exact Hnow1|].
    lk. auto.
  - exists w1. split.
    { unfold _on_success.
      rewrite (bind_ok _ _ _ _ _ (get_state_lookup self w HALF_OPEN Hs)).
      unfold _increment_success_count. rewrite (bind_ok _ _ _ _ _ Hincr).
      rewrite Hth. reflexivity. }
    split; [exact Hnow1|].
    rewrite !Hoth1 by auto with breaker_keys. auto.
Qed.

Lemma counter_of_lookup (k : string) (w : World) (n : Z) :
  lookup_live k w = Some (str_of_int n) -> counter k w = Some n.
Proof. intros H. unfold counter. rewrite H. apply parse_int_str_of_int. Qed.

Lemma counter_of_absent (k : string) (w : World) :
  lookup_live k w = None -> counter k w = Some 0.
Proof. intros H. unfold counter. now rewrite H. Qed.

Lemma half_open_lookup (self : t) (w : World) :
  get_state self w = (Ok HALF_OPEN, w) ->
  lookup_live (_get_state_key self) w = Some (state_value HALF_OPEN).
Proof.
  intros H. destruct (get_state_inv self w HALF_OPEN) as [E|[E _]];
    [now rewrite H | exact E | discriminate E].
Qed.

Lemma open_lookup (self : t) (w : World) :
  get_state self w = (Ok OPEN, w) ->
  lookup_live (_get_state_key self) w = Some (state_value OPEN).
Proof.
  intros H. destruct (get_state_inv self w OPEN) as [E|[E _]];
    [now rewrite H | exact E | discriminate E].
Qed.

(** Successes in HALF_OPEN that stay below the threshold. *)
Lemma successes_below (self : t) (k : nat) :
  forall (w : World) (sc : Z),
    lookup_live (_get_state_key self) w = Some (state_value HALF_OPEN) ->
    counter (_get_success_count_key self) w = Some sc ->
    sc + Z.of_nat k < success_threshold (config self) ->
    lookup_live (_get_state_key self) (successes self k w)
      = Some (state_value HALF_OPEN)
    /\ counter (_get_success_count_key self) (successes self k w)
       = Some (sc + Z.of_nat k)
    /\ lookup_live (_get_failure_count_key self) (successes self k w)
       = lookup_live (_get_failure_count_key self) w.
Proof.
  induction k as [|k IH]; intros w sc Hs Hc Hlt.
  - simpl. rewrite Z.add_0_r. auto.
  - destruct (on_success_half_open self w sc Hs Hc) as (w1 & Hrun & _ & Hres).
    destruct (success_threshold (config self) <=? sc + 1) eqn:Hth;
      [apply Z.leb_le in Hth; lia|].
    destruct Hres as (Hs1 & Hf1 & Hc1).
    cbn [successes]. rewrite Hrun. simpl snd.
    destruct (IH w1 (sc + 1) Hs1 (counter_of_lookup _ _ _ Hc1)) as (A1 & A2 & A3);
      [lia|].
    rewrite A1, A2, A3. repeat split; [f_equal; lia | exact Hf1].
Qed.

(** The success that reaches the threshold closes the breaker. *)
Lemma successes_reach (self : t) (k : nat) :
  forall (w : World) (sc : Z),
    lookup_live (_get_state_key self) w = Some (state_value HALF_OPEN) ->
    counter (_get_success_count_key self) w = Some sc ->
    sc + Z.of_nat (S k) = success_threshold (config self) ->
    lookup_live (_get_state_key self) (successes self (S k) w)
      = Some (state_value CLOSED)
    /\ lookup_live (_get_failure_count_key self) (successes self (S k) w) = None
    /\ lookup_live (_get_success_count_key self) (successes self (S k) w) = None.
Proof.
  induction k as [|k IH]; intros w sc Hs Hc Heq.
  - destruct (on_success_half_open self w sc Hs Hc) as (w1 & Hrun & _ & Hres).
    destruct (success_threshold (config self) <=? sc + 1) eqn:Hth;
      [|apply Z.leb_gt in Hth; lia].
    cbn [successes]. rewrite Hrun. exact Hres.
  - destruct (on_success_half_open self w sc Hs Hc) as (w1 & Hrun & _ & Hres).
    destruct (success_threshold (config self) <=? sc + 1) eqn:Hth;
      [apply Z.leb_le in Hth; lia|].
    destruct Hres as (Hs1 & Hf1 & Hc1).
    change (successes self (S (S k)) w)
      with (successes self (S k) (_on_success self w).2).
    rewrite Hrun. simpl snd.
    apply (IH w1 (sc + 1) Hs1 (counter_of_lookup _ _ _ Hc1)). lia.
Qed.

(** [call] outside OPEN is the guarded attempt, and the attempt hands the
    outcome of [func] to the matching handler. *)
Lemma call_not_open {A} (self : t) (func : M World A) (w : World) (s : CircuitState) :
  get_state self w = (Ok s, w) -> s <> OPEN ->
  call self func w = attempt self func w.
Proof.
  intros Hs Hne. unfold call. rewrite (bind_ok _ _ _ _ _ Hs).
  destruct s; [reflexivity | congruence | reflexivity].
Qed.

Lemma attempt_raise {A} (self : t) (func : M World A) (w w1 w2 : World) (e : exn) :
  func w = (Raise e, w1) ->
  expected_exception (config self) e = true ->
  _on_failure self e w1 = (Ok tt, w2) ->
  attempt self func w = (Raise e, w2).
Proof.
  intros Hf He Hh. unfold attempt, try_except.
  rewrite (bind_raise _ _ _ _ _ Hf), He.
  rewrite (bind_ok _ _ _ _ _ Hh). reflexivity.
Qed.

Lemma attempt_return {A} (self : t) (func : M World A) (w w1 w2 : World) (a : A) :
  func w = (Ok a, w1) ->
  _on_success self w1 = (Ok tt, w2) ->
  attempt self func w = (Ok a, w2).
Proof.
  intros Hf Hh. unfold attempt, try_except.
  rewrite (bind_ok _ _ _ _ _ Hf), (bind_ok _ _ _ _ _ Hh). reflexivity.
Qed.

End BreakerFacts.

Section BreakerTheorems.
Import CircuitBreaker BreakerAux BreakerFacts BreakerExamples.



(** C4 -- Transitions driven by call outcomes.  [call] outside OPEN runs
    [func] and hands its outcome to [_on_failure] or [_on_success] (first
    part).  In HALF_OPEN one failure gives OPEN, success count 0 and the
    failure count plus one.  From HALF_OPEN with the success counter at 0
    and a threshold of at least 1, the breaker is still HALF_OPEN after
    fewer than [success_threshold] successes in a row, and after exactly
    [success_threshold] it is CLOSED with both counters back at 0.  In
    CLOSED a failure adds one to the failure count, and the state is OPEN
    exactly when the new count has reached [failure_threshold]. *)
Theorem breaker_transitions (self : t) (w : World) :
  (forall (A : Type) (func : M World A) (w0 : World) (s : CircuitState),
      get_state self w0 = (Ok s, w0) -> s <> OPEN ->
      (forall e, func w0 = (Raise e, w) ->
                 expected_exception (config self) e = true ->
                 (_on_failure self e w).1 = Ok tt ->
                 call self func w0 = (Raise e, (_on_failure self e w).2))
      /\ (forall a, func w0 = (Ok a, w) ->
                    (_on_success self w).1 = Ok tt ->
                    call self func w0 = (Ok a, (_on_success self w).2)))
  /\ (forall (e : exn) (fc : Z),
        get_state self w = (Ok HALF_OPEN, w) ->
        counter (_get_failure_count_key self) w = Some fc ->
        let w' := (_on_failure self e w).2 in
        (_on_failure self e w).1 = Ok tt
        /\ get_state self w' = (Ok OPEN, w')
        /\ _get_success_count self w' = (Ok 0, w')
        /\ _get_failure_count self w' = (Ok (fc + 1), w'))
  /\ (get_state self w = (Ok HALF_OPEN, w) ->
      counter (_get_success_count_key self) w = Some 0 ->
      1 <= success_threshold (config self) ->
      (forall k : nat,
          Z.of_nat k < success_threshold (config self) ->
          let w' := successes self k w in
          get_state self w' = (Ok HALF_OPEN, w')
          /\ _get_success_count self w' = (Ok (Z.of_nat k), w'))
      /\ let w' := successes self (Z.to_nat (success_threshold (config self))) w in
         get_state self w' = (Ok CLOSED, w')
         /\ _get_failure_count self w' = (Ok 0, w')
         /\ _get_success_count self w' = (Ok 0, w'))
  /\ (forall (e : exn) (fc : Z),
        get_state self w = (Ok CLOSED, w) ->
        counter (_get_failure_count_key self) w = Some fc ->
        let w' := (_on_failure self e w).2 in
        (_on_failure self e w).1 = Ok tt
        /\ _get_failure_count self w' = (Ok (fc + 1), w')
        /\ get_state self w'
           = (Ok (if failure_threshold (config self) <=? fc + 1
                  then OPEN else CLOSED), w')).
Proof.
  split; [|split; [|split]].
  - intros A func w0 s Hs Hne. rewrite (call_not_open self func w0 s Hs Hne).
    split.
    + intros e Hf He Hh. apply (attempt_raise self func w0 w); auto.
      destruct (_on_failure self e w) as [r w2]. simpl in *. now subst.
    + intros a Hf Hh. apply (attempt_return self func w0 w); auto.
      destruct (_on_success self w) as [r w2]. simpl in *. now subst.
  - intros e fc Hs Hc w'.
    destruct (on_failure_half_open self e w fc (half_open_lookup _ _ Hs) Hc)
      as (w1 & Hrun & _ & Hst & Hsc & Hfc & _).
    subst w'. rewrite Hrun. simpl. split; [reflexivity|]. split; [|split].
    + now apply get_state_lookup.
    + now apply success_count_counter, counter_of_absent.
    + now apply failure_count_counter, counter_of_lookup.
  - intros Hs Hc Hth. pose proof (half_open_lookup _ _ Hs) as Hl. split.
    + intros k Hk w'.
      destruct (successes_below self k w 0 Hl Hc) as (A1 & A2 & _); [lia|].
      subst w'. split; [now apply get_state_lookup|].
      apply success_count_counter. rewrite A2. reflexivity.
    + intros w'.
      destruct (Z.to_nat (success_threshold (config self))) as [|k] eqn:Hk; [lia|].
      destruct (successes_reach self k w 0 Hl Hc) as (A1 & A2 & A3); [lia|].
      subst w'. split; [|split].
      * now apply get_state_lookup.
      * now apply failure_count_counter, counter_of_absent.
      * now apply success_count_counter, counter_of_absent.
  - intros e fc Hs Hc w'.
    destruct (on_failure_closed self e w fc Hs Hc)
      as (w1 & Hrun & _ & Hst & Hfc & _).
    subst w'. rewrite Hrun. simpl. split; [reflexivity|]. split.
    + now apply failure_count_counter, counter_of_lookup.
    + exact Hst.
Qed.

Lemma breaker_transitions_witness :
  call rpc failing world0 = (Raise boom, (_on_failure rpc boom world0).2)
  /\ call rpc working probing = (Ok 42, (_on_success rpc probing).2)
  /\ (let w' := (_on_failure rpc boom probing).2 in
      get_state rpc w' = (Ok OPEN, w')
      /\ _get_success_count rpc w' = (Ok 0, w')
      /\ _get_failure_count rpc w' = (Ok 4, w'))
  /\ (let w' := successes rpc 1 probing in
      get_state rpc w' = (Ok HALF_OPEN, w')
      /\ _get_success_count rpc w' = (Ok 1, w'))
  /\ (let w' := successes rpc 2 probing in
      get_state rpc w' = (Ok CLOSED, w')
      /\ _get_failure_count rpc w' = (Ok 0, w')
      /\ _get_success_count rpc w' = (Ok 0, w'))
  /\ (let w' := (_on_failure rpc boom world0).2 in
      _get_failure_count rpc w' = (Ok 1, w')
      /\ get_state rpc w' = (Ok CLOSED, w')).
Proof.
  split; [|split; [|split; [|split; [|split]]]].
  - destruct (breaker_transitions rpc world0) as (H & _).
    destruct (H unit failing world0 CLOSED) as (Hf & _);
      [reflexivity | discriminate |].
    apply Hf; reflexivity.
  - destruct (breaker_transitions rpc probing) as (H & _).
    destruct (H Z working probing HALF_OPEN) as (_ & Hs);
      [reflexivity | discriminate |].
    apply Hs; reflexivity.
  - destruct (breaker_transitions rpc probing) as (_ & H & _).
    destruct (H boom 3) as (_ & Hr); [reflexivity | reflexivity |]. exact Hr.
  - destruct (breaker_transitions rpc probing) as (_ & _ & H & _).
    destruct H as (Hk & _); [reflexivity | reflexivity | simpl; lia |].
    apply (Hk 1%nat). simpl. lia.
  - destruct (breaker_transitions rpc probing) as (_ & _ & H & _).
    destruct H as (_ & Hc); [reflexivity | reflexivity | simpl; lia |].
    exact Hc.
  - destruct (breaker_transitions rpc world0) as (_ & _ & _ & H).
    destruct (H boom 0) as (_ & Hr); [reflexivity | reflexivity |]. exact Hr.
Defined.

End BreakerTheorems.

(* ===================================================================== *)
(** ** TokenAgent: classification, backoff and the retry loops            *)
(* ===================================================================== *)

Module AgentFacts.
Import TokenAgent AgentAux.

Lemma count_app (p : event -> bool) (a b : list event) :
  count p (a ++ b) = (count p a + count p b)%nat.
Proof. unfold count. now rewrite filter_app, length_app. Qed.


Lemma trace_logged (ev : event) (w : World) : trace (logged ev w) = trace w ++ [ev].
Proof. reflexivity. Qed.

Lemma bind_log {B} (ev : event) (k : unit -> M World B) (w : World) :
  bind (log ev) k w = k tt (logged ev w).
Proof. reflexivity. Qed.

(** One call of each provider entry point. *)
Lemma sign_transaction_run (w : World) :
  sign_transaction w
  = (on_sign_transaction (w3 w) (transaction_dict w),
     logged (EvSign (transaction_dict w)) w).
Proof. reflexivity. Qed.

Lemma send_raw_transaction_run (raw : string) (w : World) :
  send_raw_transaction raw w
  = (on_send_raw_transaction (w3 w) (count is_send (trace w)) raw,
     logged (EvSend raw) w).
Proof. reflexivity. Qed.

Lemma get_transaction_count_run (w : World) :
  get_transaction_count w
  = (on_get_transaction_count (w3 w) (count is_get_count (trace w)),
     logged EvGetTransactionCount w).
Proof. reflexivity. Qed.

Lemma wait_for_transaction_receipt_run (h : string) (timeout : Z) (w : World) :
  wait_for_transaction_receipt h timeout w
  = (on_wait_for_transaction_receipt (w3 w) (count is_wait (trace w)) h,
     logged (EvWait h timeout) w).
Proof. reflexivity. Qed.

(** A nonce fetch that succeeds at once. *)
Lemma get_nonce_with_retry_first (w : World) (n : Z) :
  on_get_transaction_count (w3 w) (count is_get_count (trace w)) = Ok n ->
  _get_nonce_with_retry 3 w = (Ok (Some n), logged EvGetTransactionCount w).
Proof.
  intros H. unfold _get_nonce_with_retry. change (Z.to_nat 3) with 3%nat.
  cbn [_get_nonce_with_retry_loop].
  apply try_except_ok. unfold bind. rewrite get_transaction_count_run, H.
  reflexivity.
Qed.

(** One round of the send loop that ends in a send raising [e]. *)
Lemma send_round_raises (w : World) (raw : string) (e : exn) :
  on_sign_transaction (w3 w) (transaction_dict w) = Ok raw ->
  on_send_raw_transaction (w3 w) (count is_send (trace w)) raw = Raise e ->
  (signed_tx <- sign_transaction ;;
   tx_hash_hex <- send_raw_transaction signed_tx ;;
   ret (Some tx_hash_hex)) w
  = (Raise e, logged (EvSend raw) (logged (EvSign (transaction_dict w)) w)).
Proof.
  intros Hsign Hsend.
  unfold bind at 1. rewrite sign_transaction_run, Hsign.
  unfold bind. rewrite send_raw_transaction_run.
  rewrite trace_logged, count_app. simpl (count is_send [_]).
  rewrite Nat.add_0_r. change (w3 (logged _ w)) with (w3 w).
  now rewrite Hsend.
Qed.



(** Raising the fees: what [bump_fees] does to the dictionary when
    neither product overflows, and what a new nonce changes to that. *)
Lemma bump_fees_ok (w : World) (up : TxDict) :
  raised (transaction_dict w) = Ok up ->
  bump_fees w = (Ok tt, with_tx up w).
Proof.
  intros H. unfold raised in H.
  unfold bump_fees, raise_fee, with_tx, bind, gets, set_tx, modify, ret.
  destruct w as [p tr [n fee tip] tbl us act].
  cbn [transaction_dict maxFeePerGas maxPriorityFeePerGas tx_nonce fst snd] in *.
  destruct fee as [fee|], tip as [tip|];
    cbn [transaction_dict maxFeePerGas maxPriorityFeePerGas tx_nonce fst snd
         set_maxFeePerGas set_maxPriorityFeePerGas].
  - destruct (increase_by_20_percent fee) as [y|e]; [|discriminate H].
    cbn [transaction_dict maxFeePerGas maxPriorityFeePerGas tx_nonce fst snd
         set_maxFeePerGas set_maxPriorityFeePerGas].
    destruct (increase_by_20_percent tip) as [z|e]; [|discriminate H].
    injection H as <-. reflexivity.
  - destruct (increase_by_20_percent fee) as [y|e]; [|discriminate H].
    injection H as <-. reflexivity.
  - destruct (increase_by_20_percent tip) as [z|e]; [|discriminate H].
    injection H as <-. reflexivity.
  - injection H as <-. reflexivity.
Qed.




(** *** The database session and the preflight of [process_mint] *)

Lemma hash_taken_none (id : string) (table : gmap string Transaction) :
  hash_taken id None table = false.
Proof. reflexivity. Qed.


Lemma hash_taken_clash (id k h : string) (r : Transaction)
    (table : gmap string Transaction) :
  table !! k = Some r -> k <> id -> blockchain_tx r = Some h ->
  hash_taken id (Some h) table = true.
Proof.
  intros Hk Hne Hr. unfold hash_taken. apply existsb_exists.
  exists (k, r). split.
  - apply list_elem_of_In, elem_of_map_to_list. exact Hk.
  - simpl. rewrite (bool_decide_eq_false_2 _ Hne).
    now rewrite (bool_decide_eq_true_2 _ Hr).
Qed.



(** On an inactive session the commit raises and nothing changes. *)
Lemma update_record_inactive (id : string) (f : Transaction -> Transaction)
    (w : World) :
  session_active w = false ->
  update_record id f w = (Raise inactive_session, w).
Proof.
  intros Hact. unfold update_record, commit. rewrite Hact.
  destruct (transactions w !! id); reflexivity.
Qed.

(** A commit that would store a hash another row has: it raises, writes
    nothing and leaves the session inactive. *)
Lemma update_record_clash (id : string) (f : Transaction -> Transaction)
    (row : Transaction) (w : World) :
  session_active w = true ->
  transactions w !! id = Some row ->
  hash_taken id (blockchain_tx (f row)) (transactions w) = true ->
  update_record id f w
  = (Raise (constraint_violation "transactions"), deactivate w).
Proof.
  intros Hact Hrow Htaken. unfold update_record, commit.
  now rewrite Hrow, Hact, Htaken.
Qed.

Lemma try_except_catch_all {A} (body : M World A) (handler : exn -> M World A)
    (w : World) :
  try_except body catch_all handler w
  = match body w with
    | (Ok a, w') => (Ok a, w')
    | (Raise e, w') => handler e w'
    end.
Proof. unfold try_except. destruct (body w) as [[a|e] w']; reflexivity. Qed.



End AgentFacts.

Section AgentTheorems.
Import TokenAgent TokenAgent.TransactionRetryConfig AgentAux AgentFacts AgentExamples.

(** C9 -- With base 2, multiplier 2 and cap 30 (the values of
    [TransactionRetryConfig]) the delays for attempts 0..4 are
    2, 4, 8, 16 and 30; the uncapped value at attempt 4 is 32. *)
Theorem retry_delay_sequence :
  BASE_DELAY = 2 /\ BACKOFF_MULTIPLIER = 2 /\ MAX_DELAY = 30
  /\ map calculate_retry_delay [0; 1; 2; 3; 4]%nat = [2; 4; 8; 16; 30]
  /\ BASE_DELAY * BACKOFF_MULTIPLIER ^ 4 = 32.
Proof. repeat split; reflexivity. Qed.






(** A fee beyond the range of a double: the handler of the first failed
    send raises OverflowError, and there is no second attempt. *)
Example huge_fee_ends_the_retries :
  let tx := mkTx (Some 42) (Some (2 ^ 1024)) (Some 100000) in
  let run := _send_transaction_with_retry tx 3
               (world_with (mk_exn Exception_ "max fee per gas less than block base fee")) in
  (exists msg, run.1 = Raise (mk_exn OverflowError msg))
  /\ count is_send (trace run.2) = 1%nat
  /\ sleeps (trace run.2) = [].
Proof. vm_compute. split; [eexists; reflexivity | split; reflexivity]. Qed.

End AgentTheorems.

(* ===================================================================== *)
(** ** Idempotency: the cache around an endpoint                          *)
(* ===================================================================== *)

Module IdempotencyFacts.
Import Idempotency IdempotencyAux.

Lemma world_eta (w : World) :
  mkWorld (redis_available w) (redis w) (app_state w) = w.
Proof. now destruct w. Qed.

Lemma on_redis_get (k : string) (w : World) :
  on_redis (Redis.get k) w = (Ok (lookup_live k (redis w)), w).
Proof. unfold on_redis, Redis.get, gets. now rewrite world_eta. Qed.

Lemma get_redis_client_up (w : World) :
  redis_available w = true -> get_redis_client w = (Ok true, w).
Proof. intros H. unfold get_redis_client. now rewrite H. Qed.

Lemma get_redis_client_down (w : World) :
  redis_available w = false -> get_redis_client w = (Ok false, w).
Proof. intros H. unfold get_redis_client. now rewrite H. Qed.

Section WithCodec.
Variable J : Codec.

Lemma get_cached_response_hit (k text : string) (doc : json) (w : World) :
  redis_available w = true ->
  lookup_live k (redis w) = Some text ->
  text <> EmptyString ->
  json_loads J text = Ok doc ->
  get_cached_response J k w = (Ok (Some doc), w).
Proof.
  intros Hup Hget Hne Hload. unfold get_cached_response.
  rewrite (bind_ok _ _ _ _ _ (get_redis_client_up w Hup)). apply try_except_ok.
  rewrite (bind_ok _ _ _ _ _ (on_redis_get k w)), Hget.
  rewrite bool_decide_eq_false_2 by exact Hne.
  unfold bind. now rewrite Hload.
Qed.

Lemma get_cached_response_miss (k : string) (w : World) :
  redis_available w = true ->
  lookup_live k (redis w) = None ->
  get_cached_response J k w = (Ok None, w).
Proof.
  intros Hup Hget. unfold get_cached_response.
  rewrite (bind_ok _ _ _ _ _ (get_redis_client_up w Hup)). apply try_except_ok.
  now rewrite (bind_ok _ _ _ _ _ (on_redis_get k w)), Hget.
Qed.

Lemma store_response_ok (k text : string) (doc : json) (ttl : Z) (w : World) :
  redis_available w = true ->
  json_dumps J doc = Ok text ->
  0 < ttl ->
  store_response J k doc ttl w = (Ok true, stored k text ttl w).
Proof.
  intros Hup Hdump Httl. unfold store_response.
  rewrite (bind_ok _ _ _ _ _ (get_redis_client_up w Hup)). apply try_except_ok.
  unfold bind at 1. rewrite Hdump.
  unfold bind, on_redis, Redis.setex.
  destruct (ttl <=? 0) eqn:E; [apply Z.leb_le in E; lia|].
  reflexivity.
Qed.

(** A miss runs the endpoint and stores a [dict] result. *)
Lemma idempotent_miss (ttl : Z) (func : M World pyobj) (key path : string)
    (w : World) :
  key <> EmptyString ->
  redis_available w = true ->
  lookup_live (generate_key key path) (redis w) = None ->
  idempotent J ttl func (Some key) (Some path) w
  = execute_and_store J (generate_key key path) ttl func w.
Proof.
  intros Hkey Hup Hmiss. unfold idempotent.
  destruct key as [|c key]; [congruence|].
  simpl default.
  now rewrite (bind_ok _ _ _ _ _ (get_cached_response_miss _ w Hup Hmiss)).
Qed.

End WithCodec.

End IdempotencyFacts.

Section IdempotencyTheorems.
Import Idempotency IdempotencyAux IdempotencyFacts IdempotencyExamples.

(** C5, as the code has it.  Let the first invocation under a key and a
    path miss the cache, let the endpoint return a [dict] [d], and let the
    store be reachable and the cached document survive [json.dumps] /
    [json.loads].  Then the invocation returns [d] and leaves the document
    stored for [ttl] seconds.  While that entry is in place and unexpired,
    every later invocation with the same key and path returns
    [JSONResponse(content=d, status_code=200)] and leaves the world as it
    is, whatever the endpoint: the endpoint is not run.  Once the entry
    has expired, an invocation runs the endpoint again (and stores its
    result as before). *)
Theorem idempotent_replays_stored_dict
    (J : Codec) (ttl : Z) (func : M World pyobj) (key path text : string)
    (d : list (string * json)) (w wf : World) :
  let cache_key := generate_key key path in
  key <> EmptyString ->
  0 < ttl ->
  redis_available w = true ->
  lookup_live cache_key (redis w) = None ->
  func w = (Ok (PyValue (JDict d)), wf) ->
  redis_available wf = true ->
  json_dumps J (cache_doc d) = Ok text ->
  text <> EmptyString ->
  json_loads J text = Ok (cache_doc d) ->
  let w1 := stored cache_key text ttl wf in
  idempotent J ttl func (Some key) (Some path) w = (Ok (PyValue (JDict d)), w1)
  /\ (forall (w2 : World) (func2 : M World pyobj),
        redis_available w2 = true ->
        db (redis w2) !! cache_key = db (redis w1) !! cache_key ->
        now (redis w2) < now (redis wf) + 1000 * ttl ->
        idempotent J ttl func2 (Some key) (Some path) w2
        = (Ok (JSONResponse (JDict d) (JInt 200)), w2))
  /\ (forall (w2 : World) (func2 : M World pyobj),
        redis_available w2 = true ->
        db (redis w2) !! cache_key = db (redis w1) !! cache_key ->
        now (redis wf) + 1000 * ttl <= now (redis w2) ->
        idempotent J ttl func2 (Some key) (Some path) w2
        = execute_and_store J cache_key ttl func2 w2).
Proof.
  intros cache_key Hkey Httl Hup Hmiss Hfunc Hupf Hdump Hne Hload w1.
  assert (Hentry : db (redis w1) !! cache_key
                   = Some (Entry text (Some (now (redis wf) + 1000 * ttl)))).
  { unfold w1, stored, set_db. simpl. apply lookup_insert_eq. }
  split; [|split].
  - rewrite (idempotent_miss J ttl func key path w Hkey Hup Hmiss).
    fold cache_key. unfold execute_and_store.
    rewrite (bind_ok _ _ _ _ _ Hfunc).
    change (as_dict (PyValue (JDict d))) with (Some d). cbv iota beta.
    fold (cache_doc d).
    now rewrite (bind_ok _ _ _ _ _
                   (store_response_ok J cache_key text _ ttl wf Hupf Hdump Httl)).
  - intros w2 func2 Hup2 Hsame Hfresh.
    assert (Hget : lookup_live cache_key (redis w2) = Some text).
    { unfold lookup_live. rewrite Hsame, Hentry. unfold live. simpl.
      apply Z.ltb_lt in Hfresh. now rewrite Hfresh. }
    unfold idempotent. destruct key as [|c key]; [congruence|].
    simpl default. fold cache_key.
    rewrite (bind_ok _ _ _ _ _
               (get_cached_response_hit J cache_key text _ w2 Hup2 Hget Hne Hload)).
    reflexivity.
  - intros w2 func2 Hup2 Hsame Hstale.
    apply idempotent_miss; [exact Hkey | exact Hup2 |].
    fold cache_key. unfold lookup_live. rewrite Hsame, Hentry. unfold live. simpl.
    apply Z.ltb_ge in Hstale. now rewrite Hstale.
Qed.

Lemma idempotent_replays_stored_dict_witness :
  let key := "mint-7f3a9c1b" in
  let path := "/token/mint" in
  let cache_key := generate_key key path in
  let text := JsonText.print (cache_doc queued) in
  let wf := (mint_endpoint world0).2 in
  let w1 := stored cache_key text 3600 wf in
  idempotent JsonText.codec 3600 mint_endpoint (Some key) (Some path) world0
    = (Ok (PyValue (JDict queued)), w1)
  /\ (forall (w2 : World) (func2 : M World pyobj),
        redis_available w2 = true ->
        db (redis w2) !! cache_key = db (redis w1) !! cache_key ->
        now (redis w2) < now (redis wf) + 1000 * 3600 ->
        idempotent JsonText.codec 3600 func2 (Some key) (Some path) w2
        = (Ok (JSONResponse (JDict queued) (JInt 200)), w2))
  /\ (forall (w2 : World) (func2 : M World pyobj),
        redis_available w2 = true ->
        db (redis w2) !! cache_key = db (redis w1) !! cache_key ->
        now (redis wf) + 1000 * 3600 <= now (redis w2) ->
        idempotent JsonText.codec 3600 func2 (Some key) (Some path) w2
        = execute_and_store JsonText.codec cache_key 3600 func2 w2).
Proof.
  intros key path cache_key text wf w1.
  apply (idempotent_replays_stored_dict JsonText.codec 3600 mint_endpoint
           key path text queued world0 wf);
    first [ reflexivity | discriminate | (vm_compute; discriminate) ].
Defined.

(** An endpoint whose answer is a list, not a [dict]: nothing is cached,
    so a second invocation one second later, with the same key and path,
    runs the endpoint again and returns a different answer. *)
Lemma non_dict_answer_runs_endpoint_again :
  let call := idempotent JsonText.codec 3600 list_endpoint
                (Some "mint-7f3a9c1b") (Some "/token/list") in
  let first := call world0 in
  let second := call (later 1000 first.2) in
  first.1 = Ok (PyValue (JList [JInt 1]))
  /\ db (redis first.2) = ∅
  /\ second.1 = Ok (PyValue (JList [JInt 2]))
  /\ second.1 <> first.1
  /\ app_state first.2 = 1
  /\ app_state second.2 = 2.
Proof. vm_compute. repeat split; discriminate. Qed.

End IdempotencyTheorems.

(* ===================================================================== *)
(** ** NonceManager: the remaining operations                             *)
(* ===================================================================== *)

Module NonceMoreFacts.
Import NonceManager NonceAux NonceFacts NonceAdmin.

(** A [with acquire_lock] block entered with the key free whose body
    leaves the lease in place. *)
Lemma acquire_lock_free_body {A} (self : t) (wa : string) (body : M World A)
    (w w2 : World) (r : outcome A) :
  0 < lock_timeout self ->
  lookup_live (_get_lock_key wa) w = None ->
  body (with_lease (_get_lock_key wa) (lock_id_at w) (lock_timeout self) w) = (r, w2) ->
  lookup_live (_get_lock_key wa) w2 = Some (lock_id_at w) ->
  acquire_lock self wa None body w = (r, set_db (base.delete (_get_lock_key wa)) w2).
Proof.
  intros Ht Hfree Hbody Hheld.
  rewrite acquire_lock_free_run by assumption.
  rewrite finally_release, Hbody. simpl fst. simpl snd.
  rewrite release_lock_eq, Hheld.
  rewrite decide_True by reflexivity. reflexivity.
Qed.

(** Writing the nonce under the lease and releasing it. *)
Lemma write_under_lease (lk nk id : string) (T n : Z) (w : World) :
  lk <> nk ->
  set_db (base.delete lk)
    (set_db (insert nk (Entry (str_of_int n) None)) (with_lease lk id T w))
  = settled lk nk (Some n) w.
Proof.
  intros Hne. unfold settled, with_lease, set_db. simpl. f_equal.
  now apply settle_db.
Qed.

Lemma keep_under_lease (lk nk id : string) (T : Z) (w : World) :
  set_db (base.delete lk) (with_lease lk id T w) = settled lk nk None w.
Proof.
  unfold settled, with_lease, set_db. simpl. f_equal. apply delete_insert_eq.
Qed.

Lemma settled_lock_free (lk nk : string) (p : option Z) (w : World) :
  lookup_live lk (settled lk nk p w) = None.
Proof.
  unfold settled, lookup_live, set_db. simpl. now rewrite lookup_delete_eq.
Qed.

Lemma settled_nonce (lk nk : string) (n : Z) (w : World) :
  lk <> nk ->
  lookup_live nk (settled lk nk (Some n) w) = Some (str_of_int n).
Proof.
  intros Hne. unfold settled, lookup_live, set_db. simpl.
  rewrite lookup_delete_ne by exact Hne. now rewrite lookup_insert_eq.
Qed.

Lemma settled_nonce_kept (lk nk : string) (w : World) :
  lk <> nk ->
  lookup_live nk (settled lk nk None w) = lookup_live nk w.
Proof.
  intros Hne. unfold settled, lookup_live, set_db. simpl.
  now rewrite lookup_delete_ne by exact Hne.
Qed.

(** [reset_nonce] and [handle_nonce_error] with the lock free. *)
Lemma reset_nonce_run (self : t) (a : string) (w : World) (c : Z) :
  0 < lock_timeout self ->
  lookup_live (_get_lock_key (lower a)) w = None ->
  chain w (lower a) = Ok c ->
  reset_nonce self a w
  = (Ok c, settled (_get_lock_key (lower a)) (_get_nonce_key (lower a)) (Some c) w).
Proof.
  intros Ht Hfree Hc. unfold reset_nonce.
  set (wa := lower a) in *. set (lk := _get_lock_key wa) in *.
  set (nk := _get_nonce_key wa).
  assert (Hne : lk <> nk) by apply nonce_key_ne_lock_key.
  set (w1 := with_lease lk (lock_id_at w) (lock_timeout self) w).
  rewrite (acquire_lock_free_body self wa _ w
             (set_db (insert nk (Entry (str_of_int c) None)) w1) (Ok c) Ht Hfree).
  - fold lk. unfold w1. now rewrite write_under_lease.
  - fold lk. fold w1. unfold bind, get_transaction_count.
    change (chain w1 wa) with (chain w wa). rewrite Hc. reflexivity.
  - fold lk. rewrite lookup_live_insert_ne by congruence.
    apply with_lease_held. exact Ht.
Qed.

Lemma handle_nonce_error_run (self : t) (a : string) (failed : Z) (w : World) (c : Z) :
  0 < lock_timeout self ->
  lookup_live (_get_lock_key (lower a)) w = None ->
  chain w (lower a) = Ok c ->
  handle_nonce_error self a failed w
  = (Ok c, settled (_get_lock_key (lower a)) (_get_nonce_key (lower a)) (Some c) w).
Proof.
  intros Ht Hfree Hc. rewrite <- (reset_nonce_run self a w c Ht Hfree Hc).
  reflexivity.
Qed.

(** [get_status] on a world whose nonce key holds [str(n)]. *)
Lemma get_status_stored (self : t) (a : string) (w : World) (n c : Z) :
  lookup_live (_get_nonce_key (lower a)) w = Some (str_of_int n) ->
  chain w (lower a) = Ok c ->
  get_status self a w
  = (Ok (mkStatus (lower a) (Some n) c
           (bool_decide (is_Some (lookup_live (_get_lock_key (lower a)) w)))
           (n =? c)), w).
Proof.
  intros Hn Hc. unfold get_status.
  rewrite bind_get, Hn. unfold exists_key. rewrite bind_gets.
  unfold bind at 1. unfold get_transaction_count at 1. rewrite Hc.
  pose proof (BreakerFacts.str_of_int_nonempty n) as Hne.
  destruct (str_of_int n) as [|ch rest] eqn:E; [congruence|].
  rewrite <- E. unfold int_of_str. rewrite parse_int_str_of_int.
  reflexivity.
Qed.

(** While the lock key is held by an entry that outlives the tenth
    attempt, [acquire_lock] gives up without running its body. *)
Lemma acquire_lock_blocked {A} (self : t) (wa : string) (timeout : option Z)
    (body : M World A) (w : World) (e : entry) :
  0 < timeout_or timeout (lock_timeout self) ->
  db w !! _get_lock_key wa = Some e ->
  live (now w + 21300) e = true ->
  acquire_lock self wa timeout body w
  = (Raise (lock_error wa), advance 26300 w).
Proof.
  intros Ht He Hlive. unfold acquire_lock, bind, time_time, gets.
  now rewrite (acquire_loop_held max_retries wa (_get_lock_key wa) _ _ body Ht
                 100 w e ltac:(lia) He Hlive).
Qed.

Lemma get_nonce_blocked (self : t) (a : string) (fs : bool) (w : World) (e : entry) :
  0 < lock_timeout self ->
  db w !! _get_lock_key (lower a) = Some e ->
  live (now w + 21300) e = true ->
  get_nonce self a fs w = (Raise (lock_error (lower a)), advance 26300 w).
Proof.
  intros Ht He Hlive. unfold get_nonce.
  now apply (acquire_lock_blocked self (lower a) None _ w e).
Qed.

(** Taking the lock and then calling [get_nonce], whatever follows: the
    nested call is refused the lock its caller holds. *)
Lemma lock_then_get_nonce_blocks {B} (self : t) (a : string) (k : Z -> M World B)
    (w : World) :
  22 <= lock_timeout self ->
  lookup_live (_get_lock_key (lower a)) w = None ->
  exists w' : World,
    acquire_lock self (lower a) None (bind (get_nonce self (lower a) false) k) w
      = (Raise (lock_error (lower a)), w')
    /\ now w' = now w + 26300
    /\ chain w' = chain w
    /\ lookup_live (_get_lock_key (lower a)) w' = None
    /\ forall key, key <> _get_lock_key (lower a) -> db w' !! key = db w !! key.
Proof.
  intros Ht Hfree.
  set (wa := lower a) in *. set (lk := _get_lock_key wa) in *.
  assert (Hwa : lower wa = wa) by apply lower_idem.
  rewrite acquire_lock_free_run by (fold lk; (lia || assumption)).
  fold lk. rewrite finally_release.
  set (w1 := with_lease lk (lock_id_at w) (lock_timeout self) w).
  assert (Hraw : db w1 !! lk
                 = Some (Entry (lock_id_at w) (Some (now w + 1000 * lock_timeout self)))).
  { unfold w1, with_lease, set_db. simpl. apply lookup_insert_eq. }
  assert (Hinner : bind (get_nonce self wa false) k w1
                   = (Raise (lock_error wa), advance 26300 w1)).
  { apply bind_raise. rewrite <- Hwa at 2.
    apply (get_nonce_blocked self wa false w1
             (Entry (lock_id_at w) (Some (now w + 1000 * lock_timeout self)))
             ltac:(lia)).
    - rewrite Hwa. exact Hraw.
    - unfold live. simpl. apply Z.ltb_lt. lia. }
  rewrite Hinner. simpl fst. simpl snd.
  rewrite release_lock_eq. simpl snd.
  eexists. split; [reflexivity|].
  destruct (decide (lookup_live lk (advance 26300 w1) = Some (lock_id_at w)))
    as [Hd|Hd].
  - repeat split.
    + apply lookup_live_delete_eq.
    + intros key Hk. simpl. rewrite lookup_delete_ne by congruence.
      apply lookup_insert_ne. congruence.
  - repeat split.
    + unfold lookup_live in *. simpl in *. rewrite Hraw in *. simpl in *.
      destruct (live (now w + 26300) _); [congruence|reflexivity].
    + intros key Hk. simpl. apply lookup_insert_ne. congruence.
Qed.

(** An attempt that finds the key taken sleeps and tries again. *)
Lemma acquire_loop_wait {A} (m : nat) (wa k id v : string) (timeout d : Z)
    (body : M World A) (w : World) :
  0 < timeout ->
  lookup_live k w = Some v ->
  acquire_loop (S m) wa k id timeout d body w
  = acquire_loop m wa k id timeout (Z.min (d * 2) 5000) body (advance d w).
Proof.
  intros Ht Hk. cbn [acquire_loop]. unfold bind at 1. unfold set_nx_ex.
  destruct (timeout <=? 0) eqn:E; [apply Z.leb_le in E; lia|].
  rewrite Hk. reflexivity.
Qed.

(** If whatever sits under the lock key has expired by the time of the
    last attempt, the loop takes the lease at or before that attempt. *)
Lemma acquire_loop_enters (n : nat) (wa k id : string) (timeout : Z) :
  0 < timeout ->
  forall (d : Z) (w : World),
    0 <= d ->
    (n <> 0)%nat ->
    (forall e, db w !! k = Some e -> live (now w + last_attempt n d) e = false) ->
    exists w1 : World,
      lookup_live k w1 = Some id
      /\ now w <= now w1 <= now w + last_attempt n d
      /\ forall A (body : M World A),
           acquire_loop n wa k id timeout d body w
           = finally body (release_lock k id) w1.
Proof.
  intros Ht. induction n as [|m IH]; intros d w Hd Hn Hexp; [congruence|].
  pose proof (last_attempt_nonneg (S m) d Hd) as Hnn.
  destruct (lookup_live k w) as [v|] eqn:Hk.
  - (* held now: there must be a later attempt *)
    destruct (lookup_live_Some_raw k v w Hk) as (e & He & Hl & _).
    destruct m as [|m'].
    + specialize (Hexp e He). simpl in Hexp. rewrite Z.add_0_r in Hexp. congruence.
    + destruct (IH (Z.min (d * 2) 5000) (advance d w)) as (w1 & Hheld & Hnow & Hrun).
      * lia.
      * congruence.
      * intros e' He'. simpl in He'. specialize (Hexp e' He').
        replace (now (advance d w) + last_attempt (S m') (Z.min (d * 2) 5000))
          with (now w + last_attempt (S (S m')) d); [exact Hexp|].
        cbn [last_attempt now advance]. lia.
      * exists w1. split; [exact Hheld|]. split.
        { cbn [now advance] in Hnow.
          change (last_attempt (S (S m')) d)
            with (d + last_attempt (S m') (Z.min (d * 2) 5000)). lia. }
        intros A body. rewrite (acquire_loop_wait _ _ _ _ v) by assumption.
        apply Hrun.
  - exists (with_lease k id timeout w).
    split; [now apply with_lease_held|]. split.
    + change (now (with_lease k id timeout w)) with (now w). lia.
    + intros A body. now apply acquire_loop_free.
Qed.

(** [get_nonce] with the lock free, by what is stored. *)
Lemma get_nonce_fresh (self : t) (a : string) (fs : bool) (w : World) (c : Z) :
  0 < lock_timeout self ->
  lookup_live (_get_lock_key (lower a)) w = None ->
  chain w (lower a) = Ok c ->
  lookup_live (_get_nonce_key (lower a)) w = None \/ fs = true ->
  get_nonce self a fs w
  = (Ok c, settled (_get_lock_key (lower a)) (_get_nonce_key (lower a)) (Some c) w).
Proof.
  intros Ht Hfree Hc Hcase. unfold get_nonce.
  set (wa := lower a) in *. set (lk := _get_lock_key wa) in *.
  set (nk := _get_nonce_key wa) in *.
  assert (Hne : lk <> nk) by apply nonce_key_ne_lock_key.
  set (w1 := with_lease lk (lock_id_at w) (lock_timeout self) w).
  rewrite (acquire_lock_free_body self wa _ w
             (set_db (insert nk (Entry (str_of_int c) None)) w1) (Ok c) Ht Hfree).
  - fold lk. unfold w1. now rewrite write_under_lease.
  - fold lk. fold w1. rewrite bind_get.
    rewrite (lookup_live_insert_ne lk nk _ w Hne : lookup_live nk w1 = _).
    unfold bind at 1. unfold get_transaction_count at 1.
    change (chain w1 wa) with (chain w wa). rewrite Hc.
    destruct Hcase as [Hnone| ->].
    + rewrite Hnone. destruct fs; reflexivity.
    + destruct (lookup_live nk w); reflexivity.
  - fold lk. rewrite lookup_live_insert_ne by congruence.
    apply with_lease_held. exact Ht.
Qed.

Lemma get_nonce_stored (self : t) (a : string) (w : World) (c z : Z) (s : string) :
  0 < lock_timeout self ->
  lookup_live (_get_lock_key (lower a)) w = None ->
  chain w (lower a) = Ok c ->
  lookup_live (_get_nonce_key (lower a)) w = Some s ->
  parse_int s = Some z ->
  get_nonce self a false w
  = (Ok (Z.max z c),
     settled (_get_lock_key (lower a)) (_get_nonce_key (lower a))
       (if decide (Z.max z c <> z) then Some (Z.max z c) else None) w).
Proof.
  intros Ht Hfree Hc Hs Hz. unfold get_nonce.
  set (wa := lower a) in *. set (lk := _get_lock_key wa) in *.
  set (nk := _get_nonce_key wa) in *.
  assert (Hne : lk <> nk) by apply nonce_key_ne_lock_key.
  set (w1 := with_lease lk (lock_id_at w) (lock_timeout self) w).
  assert (Hheld : lookup_live lk w1 = Some (lock_id_at w))
    by (apply with_lease_held; exact Ht).
  assert (Hn1 : lookup_live nk w1 = Some s)
    by (unfold w1, with_lease; rewrite lookup_live_insert_ne by exact Hne; exact Hs).
  destruct (decide (Z.max z c <> z)) as [Hd|Hd].
  - rewrite (acquire_lock_free_body self wa _ w
               (set_db (insert nk (Entry (str_of_int (Z.max z c)) None)) w1)
               (Ok (Z.max z c)) Ht Hfree).
    + fold lk. unfold w1. now rewrite write_under_lease.
    + fold lk. fold w1. rewrite bind_get, Hn1.
      unfold bind at 1. unfold get_transaction_count at 1.
      change (chain w1 wa) with (chain w wa). rewrite Hc.
      unfold int_of_str. rewrite Hz. rewrite bind_ret.
      rewrite decide_True by exact Hd. reflexivity.
    + fold lk. rewrite lookup_live_insert_ne by congruence. exact Hheld.
  - rewrite (acquire_lock_free_body self wa _ w w1 (Ok (Z.max z c)) Ht Hfree).
    + fold lk. unfold w1. now rewrite (keep_under_lease lk nk).
    + fold lk. fold w1. rewrite bind_get, Hn1.
      unfold bind at 1. unfold get_transaction_count at 1.
      change (chain w1 wa) with (chain w wa). rewrite Hc.
      unfold int_of_str. rewrite Hz. rewrite bind_ret.
      rewrite decide_False by exact Hd. reflexivity.
    + exact Hheld.
Qed.

(** A stored value that [int] rejects makes [get_nonce] raise. *)
Lemma get_nonce_unparsable (self : t) (a : string) (w : World) (c : Z) (s : string) :
  0 < lock_timeout self ->
  lookup_live (_get_lock_key (lower a)) w = None ->
  chain w (lower a) = Ok c ->
  lookup_live (_get_nonce_key (lower a)) w = Some s ->
  parse_int s = None ->
  exists e, (get_nonce self a false w).1 = Raise e.
Proof.
  intros Ht Hfree Hc Hs Hz. unfold get_nonce.
  set (wa := lower a) in *. set (lk := _get_lock_key wa) in *.
  set (nk := _get_nonce_key wa) in *.
  assert (Hne : lk <> nk) by apply nonce_key_ne_lock_key.
  rewrite acquire_lock_free_run by assumption. fold lk.
  rewrite finally_release. simpl fst.
  set (w1 := with_lease lk (lock_id_at w) (lock_timeout self) w).
  assert (Hn1 : lookup_live nk w1 = Some s)
    by (unfold w1, with_lease; rewrite lookup_live_insert_ne by exact Hne; exact Hs).
  rewrite bind_get, Hn1.
  unfold bind at 1. unfold get_transaction_count at 1.
  change (chain w1 wa) with (chain w wa). rewrite Hc.
  unfold int_of_str. rewrite Hz. eexists. reflexivity.
Qed.

End NonceMoreFacts.

Section NonceMoreTheorems.
Import NonceManager NonceAux NonceFacts NonceAdmin NonceMoreFacts NonceExamples.

(** X1 -- [reset_nonce] with the wallet's lock free: it returns the
    chain's transaction count and stores it in place of whatever was
    stored, also when the stored nonce was higher, and leaves the lock
    released.  [handle_nonce_error] does the same and does not look at
    the nonce that failed. *)
Theorem reset_nonce_overwrites_with_chain_count
    (self : t) (wallet_address : string) (w : World) (c : Z) :
  let wa := lower wallet_address in
  let lock_key := _get_lock_key wa in
  let nonce_key := _get_nonce_key wa in
  0 < lock_timeout self ->
  lookup_live lock_key w = None ->
  chain w wa = Ok c ->
  let w' := settled lock_key nonce_key (Some c) w in
  reset_nonce self wallet_address w = (Ok c, w')
  /\ (forall failed_nonce : Z,
        handle_nonce_error self wallet_address failed_nonce w = (Ok c, w'))
  /\ lookup_live nonce_key w' = Some (str_of_int c)
  /\ lookup_live lock_key w' = None.
Proof.
  intros wa lock_key nonce_key Ht Hfree Hc w'.
  split; [now apply reset_nonce_run|].
  split; [intros f; now apply handle_nonce_error_run|].
  split.
  - apply settled_nonce, nonce_key_ne_lock_key.
  - apply settled_lock_free.
Qed.

Lemma reset_nonce_overwrites_with_chain_count_witness :
  let ahead := set_db (insert (_get_nonce_key (lower wallet)) (Entry "12" None))
                 (world0 10) in
  let w' := settled (_get_lock_key (lower wallet)) (_get_nonce_key (lower wallet))
              (Some 10) ahead in
  lookup_live (_get_nonce_key (lower wallet)) ahead = Some "12"
  /\ reset_nonce (mk 30) wallet ahead = (Ok 10, w')
  /\ (forall failed_nonce : Z,
        handle_nonce_error (mk 30) wallet failed_nonce ahead = (Ok 10, w'))
  /\ lookup_live (_get_nonce_key (lower wallet)) w' = Some (str_of_int 10)
  /\ lookup_live (_get_lock_key (lower wallet)) w' = None.
Proof.
  intros ahead w'. split; [reflexivity|].
  apply (reset_nonce_overwrites_with_chain_count (mk 30) wallet ahead 10);
    reflexivity.
Defined.

(** X2 -- After a [reset_nonce] that found the lock free, [get_status]
    reports the stored nonce equal to the chain's count, [in_sync] true
    and [is_locked] false, and changes nothing. *)
Theorem get_status_after_reset_is_in_sync
    (self : t) (wallet_address : string) (w : World) (c : Z) :
  0 < lock_timeout self ->
  lookup_live (_get_lock_key (lower wallet_address)) w = None ->
  chain w (lower wallet_address) = Ok c ->
  let w' := (reset_nonce self wallet_address w).2 in
  get_status self wallet_address w'
  = (Ok (mkStatus (lower wallet_address) (Some c) c false true), w').
Proof.
  intros Ht Hfree Hc w'. subst w'.
  rewrite (reset_nonce_run self wallet_address w c Ht Hfree Hc). simpl snd.
  rewrite (get_status_stored self wallet_address _ c c).
  - rewrite settled_lock_free. rewrite Z.eqb_refl.
    rewrite bool_decide_eq_false_2; [reflexivity|].
    intros [x Hx]. discriminate Hx.
  - apply settled_nonce, nonce_key_ne_lock_key.
  - exact Hc.
Qed.

Lemma get_status_after_reset_is_in_sync_witness :
  let w' := (reset_nonce (mk 30) wallet (world0 10)).2 in
  get_status (mk 30) wallet w'
  = (Ok (mkStatus (lower wallet) (Some 10) 10 false true), w').
Proof.
  apply (get_status_after_reset_is_in_sync (mk 30) wallet (world0 10) 10);
    reflexivity.
Defined.

(** X3 -- [increment_nonce] with a lock timeout of at least 22 seconds,
    entered with the wallet's lock free: it takes the lock, its nested
    [get_nonce] is refused that same lock for all ten attempts, and the
    call raises the lock error 26.3 seconds later; nothing is written to
    any other key, so the stored nonce is not incremented, and the lock
    is free again. *)
Theorem increment_nonce_never_returns
    (self : t) (wallet_address : string) (w : World) :
  let wa := lower wallet_address in
  22 <= lock_timeout self ->
  lookup_live (_get_lock_key wa) w = None ->
  exists w' : World,
    increment_nonce self wallet_address w = (Raise (lock_error wa), w')
    /\ now w' = now w + 26300
    /\ lookup_live (_get_lock_key wa) w' = None
    /\ forall key, key <> _get_lock_key wa -> db w' !! key = db w !! key.
Proof.
  intros wa Ht Hfree. unfold increment_nonce. fold wa.
  destruct (lock_then_get_nonce_blocks self wallet_address
              (fun current_nonce =>
                 bind (set (_get_nonce_key wa) (str_of_int (current_nonce + 1)))
                      (fun _ => ret (current_nonce + 1)))
              w Ht Hfree) as (w' & Hrun & Hnow & _ & Hlk & Hother).
  exists w'. fold wa in Hrun, Hlk, Hother. auto.
Qed.

Lemma increment_nonce_never_returns_witness :
  exists w' : World,
    increment_nonce (mk 30) wallet (world0 7)
      = (Raise (lock_error (lower wallet)), w')
    /\ now w' = now (world0 7) + 26300
    /\ lookup_live (_get_lock_key (lower wallet)) w' = None
    /\ forall key, key <> _get_lock_key (lower wallet) ->
         db w' !! key = db (world0 7) !! key.
Proof.
  apply (increment_nonce_never_returns (mk 30) wallet (world0 7));
    [simpl; lia | reflexivity].
Defined.

(** X4 -- Mutual exclusion: when the wallet's lock key is still visible
    at the time of the tenth attempt (21.3 seconds after entry),
    [acquire_lock] raises the lock error after 26.3 seconds of backoff,
    never runs the body, and leaves the keyspace exactly as it was. *)
Theorem acquire_lock_refuses_while_held
    (A : Type) (self : t) (wallet_address : string) (timeout : option Z)
    (body : M World A) (w : World) (holder : string) :
  0 < timeout_or timeout (lock_timeout self) ->
  lookup_live (_get_lock_key wallet_address) (advance 21300 w) = Some holder ->
  acquire_lock self wallet_address timeout body w
  = (Raise (lock_error wallet_address), mkWorld (now w + 26300) (db w) (chain w)).
Proof.
  intros Ht Hheld.
  destruct (lookup_live_Some_raw _ _ _ Hheld) as (e & He & Hl & _).
  exact (acquire_lock_blocked self wallet_address timeout body w e Ht He Hl).
Qed.

Lemma acquire_lock_refuses_while_held_witness :
  let held := with_lease (_get_lock_key wallet) "other" 30 (world0 7) in
  acquire_lock (mk 30) wallet None (set "touched" "yes") held
  = (Raise (lock_error wallet), mkWorld (now held + 26300) (db held) (chain held)).
Proof.
  apply (acquire_lock_refuses_while_held unit (mk 30) wallet None
           (set "touched" "yes")
           (with_lease (_get_lock_key wallet) "other" 30 (world0 7)) "other");
    reflexivity.
Defined.

(** X5 -- Liveness: when the wallet's lock key is no longer visible at
    the time of the tenth attempt (absent, or a lease that expires within
    21.3 seconds), [acquire_lock] takes the lease at some attempt no later
    than that, runs the body once while holding it, returns the body's
    outcome and then releases its own lease. *)
Theorem acquire_lock_enters_once_lease_expires
    (self : t) (wallet_address : string) (timeout : option Z) (w : World) :
  let lock_key := _get_lock_key wallet_address in
  0 < timeout_or timeout (lock_timeout self) ->
  lookup_live lock_key (advance 21300 w) = None ->
  exists w1 : World,
    lookup_live lock_key w1 = Some (lock_id_at w)
    /\ now w <= now w1 <= now w + 21300
    /\ forall (A : Type) (body : M World A),
         acquire_lock self wallet_address timeout body w
         = ((body w1).1, (release_lock lock_key (lock_id_at w) (body w1).2).2).
Proof.
  intros lock_key Ht Hgone.
  destruct (acquire_loop_enters max_retries wallet_address lock_key (lock_id_at w)
              _ Ht 100 w ltac:(lia) ltac:(discriminate)) as (w1 & Hheld & Hnow & Hrun).
  - intros e He. unfold lookup_live in Hgone. simpl in Hgone. rewrite He in Hgone.
    change (last_attempt max_retries 100) with 21300.
    destruct (live (now w + 21300) e); [discriminate|reflexivity].
  - exists w1. split; [exact Hheld|]. split; [exact Hnow|].
    intros A body. unfold acquire_lock, bind, time_time, gets.
    fold lock_key. change (str_of_int (now w)) with (lock_id_at w).
    rewrite Hrun. apply finally_release.
Qed.

Lemma acquire_lock_enters_once_lease_expires_witness :
  let stale := with_lease (_get_lock_key wallet) "other" 10 (world0 7) in
  lookup_live (_get_lock_key wallet) stale = Some "other"
  /\ exists w1 : World,
       lookup_live (_get_lock_key wallet) w1 = Some (lock_id_at stale)
       /\ now stale <= now w1 <= now stale + 21300
       /\ forall (A : Type) (body : M World A),
            acquire_lock (mk 30) wallet None body stale
            = ((body w1).1,
               (release_lock (_get_lock_key wallet) (lock_id_at stale) (body w1).2).2).
Proof.
  intros stale. split; [reflexivity|].
  apply (acquire_lock_enters_once_lease_expires (mk 30) wallet None stale);
    reflexivity.
Defined.

(** X6 -- Redis keys depend on the address up to letter case only: two
    spellings share the nonce key (and the lock key) exactly when they
    are equal once lower-cased, and a wallet's nonce key is never its lock
    key. *)
Theorem wallet_keys_identify_address_up_to_case (a b : string) :
  (_get_nonce_key a = _get_nonce_key b <-> lower a = lower b)
  /\ (_get_lock_key a = _get_lock_key b <-> lower a = lower b)
  /\ _get_nonce_key a <> _get_lock_key a.
Proof.
  unfold _get_nonce_key, _get_lock_key. split; [|split].
  - split; [apply BreakerFacts.string_app_inv_head | now intros ->].
  - split; [apply BreakerFacts.string_app_inv_head | now intros ->].
  - intros H. exact (nonce_key_ne_lock_key a (eq_sym H)).
Qed.

(** X7 -- [clear_wallet_data] removes the wallet's nonce key and its lock
    key whoever holds the lock, and touches no other key; the next
    [get_nonce] then starts over from the chain's transaction count. *)
Theorem clear_wallet_data_starts_over
    (self : t) (wallet_address : string) (w : World) (c : Z) :
  let wa := lower wallet_address in
  let lock_key := _get_lock_key wa in
  let nonce_key := _get_nonce_key wa in
  0 < lock_timeout self ->
  chain w wa = Ok c ->
  exists w0 : World,
    clear_wallet_data self wallet_address w = (Ok tt, w0)
    /\ db w0 !! nonce_key = None
    /\ db w0 !! lock_key = None
    /\ (forall key, key <> nonce_key -> key <> lock_key -> db w0 !! key = db w !! key)
    /\ get_nonce self wallet_address false w0
       = (Ok c, settled lock_key nonce_key (Some c) w0).
Proof.
  intros wa lock_key nonce_key Ht Hc.
  assert (Hne : lock_key <> nonce_key) by apply nonce_key_ne_lock_key.
  exists (set_db (base.delete lock_key) (set_db (base.delete nonce_key) w)).
  split; [reflexivity|]. split; [|split; [|split]].
  - simpl. rewrite lookup_delete_ne by exact Hne. apply lookup_delete_eq.
  - simpl. apply lookup_delete_eq.
  - intros key Hn Hl. simpl.
    rewrite lookup_delete_ne by congruence. apply lookup_delete_ne. congruence.
  - apply get_nonce_fresh; [exact Ht | | exact Hc | left].
    + apply lookup_live_delete_eq.
    + fold wa lock_key nonce_key.
      rewrite lookup_live_delete_ne by exact Hne. apply lookup_live_delete_eq.
Qed.

Lemma clear_wallet_data_starts_over_witness :
  let lock_key := _get_lock_key (lower wallet) in
  let nonce_key := _get_nonce_key (lower wallet) in
  let busy := with_lease lock_key "other" 30
                (set_db (insert nonce_key (Entry "12" None)) (world0 10)) in
  lookup_live lock_key busy = Some "other"
  /\ lookup_live nonce_key busy = Some "12"
  /\ exists w0 : World,
       clear_wallet_data (mk 30) wallet busy = (Ok tt, w0)
       /\ db w0 !! nonce_key = None
       /\ db w0 !! lock_key = None
       /\ (forall key, key <> nonce_key -> key <> lock_key ->
             db w0 !! key = db busy !! key)
       /\ get_nonce (mk 30) wallet false w0
          = (Ok 10, settled lock_key nonce_key (Some 10) w0).
Proof.
  intros lock_key nonce_key busy. split; [reflexivity|]. split; [reflexivity|].
  apply (clear_wallet_data_starts_over (mk 30) wallet busy 10); reflexivity.
Defined.

(** X8 -- [get_nonce] is stable: when a call made with the lock free
    returns a nonce [n] and the chain's count has not moved, the next
    [get_nonce] returns the same [n] and persists nothing. *)
Theorem get_nonce_twice_same_nonce
    (self : t) (wallet_address : string) (force_sync : bool)
    (w w1 : World) (c n : Z) :
  let wa := lower wallet_address in
  let lock_key := _get_lock_key wa in
  let nonce_key := _get_nonce_key wa in
  0 < lock_timeout self ->
  lookup_live lock_key w = None ->
  chain w wa = Ok c ->
  get_nonce self wallet_address force_sync w = (Ok n, w1) ->
  get_nonce self wallet_address false w1
  = (Ok n, settled lock_key nonce_key None w1).
Proof.
  intros wa lock_key nonce_key Ht Hfree Hc Hrun.
  assert (Hne : lock_key <> nonce_key) by apply nonce_key_ne_lock_key.
  assert (Hsecond : forall m,
             c <= m ->
             get_nonce self wallet_address false
               (settled lock_key nonce_key (Some m) w)
             = (Ok m, settled lock_key nonce_key None
                        (settled lock_key nonce_key (Some m) w))).
  { intros m Hm.
    rewrite (get_nonce_stored self wallet_address _ c m (str_of_int m) Ht).
    - replace (Z.max m c) with m by lia.
      rewrite decide_False by (intros H; now apply H). reflexivity.
    - apply settled_lock_free.
    - exact Hc.
    - now apply settled_nonce.
    - apply parse_int_str_of_int. }
  assert (Hfresh : lookup_live nonce_key w = None \/ force_sync = true ->
                   get_nonce self wallet_address false w1
                   = (Ok n, settled lock_key nonce_key None w1)).
  { intros Hcase.
    rewrite (get_nonce_fresh self wallet_address force_sync w c Ht Hfree Hc Hcase)
      in Hrun.
    injection Hrun as <- <-. apply Hsecond. lia. }
  destruct force_sync; [apply Hfresh; now right|].
  destruct (lookup_live nonce_key w) as [s|] eqn:Hs; [|apply Hfresh; now left].
  clear Hfresh.
  destruct (parse_int s) as [z|] eqn:Hz.
  - rewrite (get_nonce_stored self wallet_address w c z s Ht Hfree Hc Hs Hz) in Hrun.
    destruct (decide (Z.max z c <> z)) as [Hd|Hd].
    + injection Hrun as <- <-. apply Hsecond. lia.
    + injection Hrun as <- <-.
      rewrite (get_nonce_stored self wallet_address _ c z s Ht).
      * rewrite decide_False by exact Hd. reflexivity.
      * apply settled_lock_free.
      * exact Hc.
      * now rewrite settled_nonce_kept.
      * exact Hz.
  - destruct (get_nonce_unparsable self wallet_address w c s Ht Hfree Hc Hs Hz)
      as (e & He).
    rewrite Hrun in He. discriminate He.
Qed.

Lemma get_nonce_twice_same_nonce_witness :
  let lock_key := _get_lock_key (lower wallet) in
  let nonce_key := _get_nonce_key (lower wallet) in
  let behind := set_db (insert nonce_key (Entry "7" None)) (world0 10) in
  let w1 := settled lock_key nonce_key (Some 10) behind in
  get_nonce (mk 30) wallet false behind = (Ok 10, w1)
  /\ get_nonce (mk 30) wallet false w1
     = (Ok 10, settled lock_key nonce_key None w1).
Proof.
  intros lock_key nonce_key behind w1.
  assert (H : get_nonce (mk 30) wallet false behind = (Ok 10, w1))
    by (vm_compute; reflexivity).
  split; [exact H|].
  exact (get_nonce_twice_same_nonce (mk 30) wallet false behind w1 10 10
           eq_refl eq_refl eq_refl H).
Defined.

End NonceMoreTheorems.
(* ===================================================================== *)
(** ** CircuitBreaker: runs of calls, manual reset, registry              *)
(* ===================================================================== *)

Module BreakerMoreFacts.
Import CircuitBreaker BreakerAux BreakerFacts BreakerRuns.

Lemma calls_S {A} (self : t) (func : M World A) (k : nat) (w : World) :
  calls self func (S k) w
  = ((call self func w).1 :: (calls self func k (call self func w).2).1,
     (calls self func k (call self func w).2).2).
Proof.
  cbn [calls]. destruct (call self func w) as [r w1]. simpl.
  destruct (calls self func k w1) as [rs w2]. reflexivity.
Qed.

(** A failing call in CLOSED. *)
Lemma call_raise_closed {A} (self : t) (e : exn) (w : World) (fc : Z) :
  get_state self w = (Ok CLOSED, w) ->
  counter (_get_failure_count_key self) w = Some fc ->
  expected_exception (config self) e = true ->
  exists w',
    call self (raise e : M World A) w = (Raise e, w')
    /\ now w' = now w
    /\ get_state self w'
       = (Ok (if failure_threshold (config self) <=? fc + 1 then OPEN else CLOSED), w')
    /\ lookup_live (_get_failure_count_key self) w' = Some (str_of_int (fc + 1))
    /\ lookup_live (_get_last_failure_key self) w' = Some (str_of_int (now w)).
Proof.
  intros Hs Hc He.
  destruct (on_failure_closed self e w fc Hs Hc) as (w' & Hrun & Hnow & Hst & Hfc & Hlf & _).
  exists w'. split; [|auto].
  rewrite (call_not_open self _ w CLOSED Hs ltac:(discriminate)).
  now apply (attempt_raise self _ w w w' e).
Qed.

(** Failing calls that stay below the threshold. *)
Lemma calls_failing_below {A} (self : t) (e : exn) (k : nat) :
  expected_exception (config self) e = true ->
  forall (w : World) (fc : Z),
    get_state self w = (Ok CLOSED, w) ->
    counter (_get_failure_count_key self) w = Some fc ->
    fc + Z.of_nat k < failure_threshold (config self) ->
    let run := calls self (raise e : M World A) k w in
    run.1 = replicate k (Raise e)
    /\ now run.2 = now w
    /\ get_state self run.2 = (Ok CLOSED, run.2)
    /\ counter (_get_failure_count_key self) run.2 = Some (fc + Z.of_nat k).
Proof.
  intros He. induction k as [|k IH]; intros w fc Hs Hc Hlt run.
  - subst run. simpl. rewrite Z.add_0_r. auto.
  - destruct (call_raise_closed (A:=A) self e w fc Hs Hc He)
      as (w1 & Hrun & Hnow & Hst & Hfc & _).
    destruct (failure_threshold (config self) <=? fc + 1) eqn:Hth;
      [apply Z.leb_le in Hth; lia|].
    destruct (IH w1 (fc + 1) Hst (counter_of_lookup _ _ _ Hfc) ltac:(lia))
      as (A1 & A2 & A3 & A4).
    subst run. rewrite calls_S, Hrun. simpl fst. simpl snd.
    rewrite A1, A2, A4. repeat split; auto. f_equal. lia.
Qed.

(** A returning call in HALF_OPEN. *)
Lemma call_ret_half_open {A} (self : t) (a : A) (w : World) (sc : Z) :
  lookup_live (_get_state_key self) w = Some (state_value HALF_OPEN) ->
  counter (_get_success_count_key self) w = Some sc ->
  exists w',
    call self (ret a) w = (Ok a, w')
    /\ now w' = now w
    /\ if success_threshold (config self) <=? sc + 1 then
         lookup_live (_get_state_key self) w' = Some (state_value CLOSED)
         /\ lookup_live (_get_failure_count_key self) w' = None
         /\ lookup_live (_get_success_count_key self) w' = None
       else
         lookup_live (_get_state_key self) w' = Some (state_value HALF_OPEN)
         /\ lookup_live (_get_success_count_key self) w' = Some (str_of_int (sc + 1)).
Proof.
  intros Hs Hc.
  destruct (on_success_half_open self w sc Hs Hc) as (w' & Hrun & Hnow & Hres).
  exists w'. split; [|split; [exact Hnow|]].
  - rewrite (call_not_open self _ w HALF_OPEN
               (get_state_lookup self w HALF_OPEN Hs) ltac:(discriminate)).
    now apply (attempt_return self _ w w w' a).
  - destruct (success_threshold (config self) <=? sc + 1); tauto.
Qed.

Lemma calls_working_below {A} (self : t) (a : A) (k : nat) :
  forall (w : World) (sc : Z),
    lookup_live (_get_state_key self) w = Some (state_value HALF_OPEN) ->
    counter (_get_success_count_key self) w = Some sc ->
    sc + Z.of_nat k < success_threshold (config self) ->
    let run := calls self (ret a) k w in
    run.1 = replicate k (Ok a)
    /\ lookup_live (_get_state_key self) run.2 = Some (state_value HALF_OPEN)
    /\ counter (_get_success_count_key self) run.2 = Some (sc + Z.of_nat k).
Proof.
  induction k as [|k IH]; intros w sc Hs Hc Hlt run.
  - subst run. simpl. rewrite Z.add_0_r. auto.
  - destruct (call_ret_half_open self a w sc Hs Hc) as (w1 & Hrun & _ & Hres).
    destruct (success_threshold (config self) <=? sc + 1) eqn:Hth;
      [apply Z.leb_le in Hth; lia|].
    destruct Hres as (Hs1 & Hc1).
    destruct (IH w1 (sc + 1) Hs1 (counter_of_lookup _ _ _ Hc1) ltac:(lia))
      as (A1 & A2 & A3).
    subst run. rewrite calls_S, Hrun. simpl fst. simpl snd.
    rewrite A1, A2, A3. repeat split; auto. f_equal. lia.
Qed.

Lemma calls_working_reach {A} (self : t) (a : A) (k : nat) :
  forall (w : World) (sc : Z),
    lookup_live (_get_state_key self) w = Some (state_value HALF_OPEN) ->
    counter (_get_success_count_key self) w = Some sc ->
    sc + Z.of_nat (S k) = success_threshold (config self) ->
    let run := calls self (ret a) (S k) w in
    run.1 = replicate (S k) (Ok a)
    /\ lookup_live (_get_state_key self) run.2 = Some (state_value CLOSED)
    /\ lookup_live (_get_failure_count_key self) run.2 = None
    /\ lookup_live (_get_success_count_key self) run.2 = None.
Proof.
  induction k as [|k IH]; intros w sc Hs Hc Heq run.
  - destruct (call_ret_half_open self a w sc Hs Hc) as (w1 & Hrun & _ & Hres).
    destruct (success_threshold (config self) <=? sc + 1) eqn:Hth;
      [|apply Z.leb_gt in Hth; lia].
    subst run. rewrite calls_S, Hrun. simpl. tauto.
  - destruct (call_ret_half_open self a w sc Hs Hc) as (w1 & Hrun & _ & Hres).
    destruct (success_threshold (config self) <=? sc + 1) eqn:Hth;
      [apply Z.leb_le in Hth; lia|].
    destruct Hres as (Hs1 & Hc1).
    destruct (IH w1 (sc + 1) Hs1 (counter_of_lookup _ _ _ Hc1) ltac:(lia))
      as (A1 & A2 & A3 & A4).
    subst run. rewrite calls_S, Hrun. cbn [fst snd].
    rewrite A1, A2, A3, A4. repeat split; auto.
Qed.

(** [_should_attempt_reset], by what the last-failure key holds. *)
Lemma should_attempt_reset_stamped (self : t) (w : World) (s : string) (t0 : Z) :
  lookup_live (_get_last_failure_key self) w = Some s ->
  parse_int s = Some t0 ->
  _should_attempt_reset self w
  = (Ok (1000 * timeout_seconds (config self) <=? now w - t0), w).
Proof.
  intros Hl Hp. unfold _should_attempt_reset. rewrite bind_get, Hl.
  unfold int_of_str. rewrite Hp. reflexivity.
Qed.

Lemma should_attempt_reset_unstamped (self : t) (w : World) :
  lookup_live (_get_last_failure_key self) w = None ->
  _should_attempt_reset self w = (Ok true, w).
Proof. intros Hl. unfold _should_attempt_reset. now rewrite bind_get, Hl. Qed.

(** [call] in OPEN, by the answer of [_should_attempt_reset]. *)
Lemma call_open_probe {A} (self : t) (func : M World A) (w : World) :
  get_state self w = (Ok OPEN, w) ->
  _should_attempt_reset self w = (Ok true, w) ->
  call self func w
  = attempt self func
      (delete (_get_success_count_key self)
         (set (_get_state_key self) (state_value HALF_OPEN) w).2).2.
Proof.
  intros Hs Hr. unfold call. rewrite (bind_ok _ _ _ _ _ Hs).
  unfold bind at 1. rewrite (bind_ok _ _ _ _ _ Hr).
  unfold _set_state, _reset_success_count. rewrite bind_set. reflexivity.
Qed.

Lemma call_open_reject {A} (self : t) (func : M World A) (w : World) (fc : Z) :
  get_state self w = (Ok OPEN, w) ->
  _should_attempt_reset self w = (Ok false, w) ->
  _get_failure_count self w = (Ok fc, w) ->
  call self func w = (Raise (open_error self fc OPEN), w).
Proof.
  intros Hs Hr Hfc. unfold call. rewrite (bind_ok _ _ _ _ _ Hs).
  apply bind_raise. rewrite (bind_ok _ _ _ _ _ Hr).
  rewrite (bind_ok _ _ _ _ _ Hfc). reflexivity.
Qed.

Lemma calls_failing_reach {A} (self : t) (e : exn) (k : nat) :
  expected_exception (config self) e = true ->
  forall (w : World) (fc : Z),
    get_state self w = (Ok CLOSED, w) ->
    counter (_get_failure_count_key self) w = Some fc ->
    fc + Z.of_nat (S k) = failure_threshold (config self) ->
    let run := calls self (raise e : M World A) (S k) w in
    run.1 = replicate (S k) (Raise e)
    /\ now run.2 = now w
    /\ get_state self run.2 = (Ok OPEN, run.2)
    /\ lookup_live (_get_failure_count_key self) run.2
       = Some (str_of_int (failure_threshold (config self)))
    /\ lookup_live (_get_last_failure_key self) run.2 = Some (str_of_int (now w)).
Proof.
  intros He. induction k as [|k IH]; intros w fc Hs Hc Heq run.
  - destruct (call_raise_closed (A:=A) self e w fc Hs Hc He)
      as (w1 & Hrun & Hnow & Hst & Hfc & Hlf).
    destruct (failure_threshold (config self) <=? fc + 1) eqn:Hth;
      [|apply Z.leb_gt in Hth; lia].
    subst run. rewrite calls_S, Hrun. cbn [calls fst snd replicate].
    repeat split; auto. rewrite Hfc. do 2 f_equal. lia.
  - destruct (call_raise_closed (A:=A) self e w fc Hs Hc He)
      as (w1 & Hrun & Hnow & Hst & Hfc & _).
    destruct (failure_threshold (config self) <=? fc + 1) eqn:Hth;
      [apply Z.leb_le in Hth; lia|].
    destruct (IH w1 (fc + 1) Hst (counter_of_lookup _ _ _ Hfc) ltac:(lia))
      as (A1 & A2 & A3 & A4 & A5).
    subst run. rewrite calls_S, Hrun. cbn [fst snd].
    rewrite A1, A2, A4, A5, Hnow. repeat split; auto.
Qed.

(** The world [reset] leaves behind. *)
Lemma reset_run (self : t) (w : World) :
  reset self w
  = (Ok tt,
     (delete (_get_last_failure_key self)
        (delete (_get_success_count_key self)
           (delete (_get_failure_count_key self)
              (set (_get_state_key self) (state_value CLOSED) w).2).2).2).2).
Proof. reflexivity. Qed.

End BreakerMoreFacts.

Section BreakerMoreTheorems.
Import CircuitBreaker BreakerAux BreakerFacts BreakerExamples.
Import BreakerRuns BreakerRegistry BreakerMoreFacts BreakerMoreExamples.

(** X9 -- [reset] always succeeds, whatever the keyspace held (an
    unreadable state value included): afterwards the breaker reads
    CLOSED, both counters read 0, the last-failure stamp is gone, and
    the next [call] goes straight to the guarded attempt. *)
Theorem reset_closes_breaker (self : t) (w : World) :
  let w' := (reset self w).2 in
  (reset self w).1 = Ok tt
  /\ now w' = now w
  /\ get_state self w' = (Ok CLOSED, w')
  /\ _get_failure_count self w' = (Ok 0, w')
  /\ _get_success_count self w' = (Ok 0, w')
  /\ lookup_live (_get_last_failure_key self) w' = None
  /\ forall (A : Type) (func : M World A), call self func w' = attempt self func w'.
Proof.
  intros w'. subst w'. rewrite reset_run. cbn [fst snd].
  set (w' := (delete _ _).2).
  assert (Hst : get_state self w' = (Ok CLOSED, w')).
  { apply get_state_lookup. unfold w'. lk. reflexivity. }
  split; [reflexivity|]. split; [reflexivity|]. split; [exact Hst|].
  split; [|split; [|split]].
  - apply failure_count_counter, counter_of_absent. unfold w'. lk. reflexivity.
  - apply success_count_counter, counter_of_absent. unfold w'. lk. reflexivity.
  - unfold w'. lk. reflexivity.
  - intros A func. apply (call_not_open self func w' CLOSED Hst). discriminate.
Qed.

(** X10 -- Tripping by consecutive failures.  Starting CLOSED with the
    failure counter at 0 and a threshold [T >= 1], calls whose function
    raises a counted exception each re-raise it; after [k < T] of them the
    breaker is still CLOSED with failure count [k]; after exactly [T] it
    is OPEN with failure count [T], and (for a positive timeout) the next
    call of any function is rejected with [CircuitBreakerOpenError]
    without touching the world. *)
Theorem consecutive_failures_trip_breaker (self : t) (e : exn) (w : World) :
  let T := failure_threshold (config self) in
  1 <= T ->
  get_state self w = (Ok CLOSED, w) ->
  counter (_get_failure_count_key self) w = Some 0 ->
  expected_exception (config self) e = true ->
  (forall k : nat,
      Z.of_nat k < T ->
      let run := calls self (raise e : M World unit) k w in
      run.1 = replicate k (Raise e)
      /\ get_state self run.2 = (Ok CLOSED, run.2)
      /\ _get_failure_count self run.2 = (Ok (Z.of_nat k), run.2))
  /\ let run := calls self (raise e : M World unit) (Z.to_nat T) w in
     run.1 = replicate (Z.to_nat T) (Raise e)
     /\ get_state self run.2 = (Ok OPEN, run.2)
     /\ _get_failure_count self run.2 = (Ok T, run.2)
     /\ (0 < timeout_seconds (config self) ->
         forall (A : Type) (func : M World A),
           call self func run.2 = (Raise (open_error self T OPEN), run.2)).
Proof.
  intros T HT Hs Hc He. split.
  - intros k Hk run.
    destruct (calls_failing_below (A:=unit) self e k He w 0 Hs Hc ltac:(lia))
      as (A1 & _ & A3 & A4).
    fold run in A1, A3, A4. split; [exact A1|]. split; [exact A3|].
    apply failure_count_counter. rewrite A4. reflexivity.
  - destruct (Z.to_nat T) as [|k] eqn:Hk; [lia|].
    intros run.
    destruct (calls_failing_reach (A:=unit) self e k He w 0 Hs Hc ltac:(lia))
      as (A1 & A2 & A3 & A4 & A5).
    fold run in A1, A2, A3, A4, A5. fold T in A4.
    assert (Hfc : _get_failure_count self run.2 = (Ok T, run.2))
      by now apply failure_count_counter, counter_of_lookup.
    split; [exact A1|]. split; [exact A3|]. split; [exact Hfc|].
    intros Hto A func.
    apply (call_open_reject self func run.2 T A3); [|exact Hfc].
    rewrite (should_attempt_reset_stamped self run.2 _ (now w) A5
               (parse_int_str_of_int _)).
    rewrite A2. replace (now w - now w) with 0 by lia.
    destruct (1000 * timeout_seconds (config self) <=? 0) eqn:E;
      [apply Z.leb_le in E; lia | reflexivity].
Qed.

Lemma consecutive_failures_trip_breaker_witness :
  (forall k : nat,
      Z.of_nat k < 3 ->
      let run := calls rpc (raise boom : M World unit) k world0 in
      run.1 = replicate k (Raise boom)
      /\ get_state rpc run.2 = (Ok CLOSED, run.2)
      /\ _get_failure_count rpc run.2 = (Ok (Z.of_nat k), run.2))
  /\ let run := calls rpc (raise boom : M World unit) 3 world0 in
     run.1 = replicate 3 (Raise boom)
     /\ get_state rpc run.2 = (Ok OPEN, run.2)
     /\ _get_failure_count rpc run.2 = (Ok 3, run.2)
     /\ (0 < 5 ->
         forall (A : Type) (func : M World A),
           call rpc func run.2 = (Raise (open_error rpc 3 OPEN), run.2)).
Proof.
  apply (consecutive_failures_trip_breaker rpc boom world0);
    [simpl; lia | reflexivity | reflexivity | reflexivity].
Defined.

(** X11 -- Failures only add up when consecutive: a call that returns
    while the breaker is CLOSED deletes the failure counter, so the count
    reads 0 again whatever it was, and the breaker stays CLOSED. *)
Theorem success_in_closed_clears_failures
    (A : Type) (self : t) (func : M World A) (w w1 : World) (a : A) :
  get_state self w = (Ok CLOSED, w) ->
  func w = (Ok a, w1) ->
  get_state self w1 = (Ok CLOSED, w1) ->
  let w' := (delete (_get_failure_count_key self) w1).2 in
  call self func w = (Ok a, w')
  /\ get_state self w' = (Ok CLOSED, w')
  /\ counter (_get_failure_count_key self) w' = Some 0
  /\ _get_failure_count self w' = (Ok 0, w').
Proof.
  intros Hs Hf Hs1 w'.
  assert (Hc : counter (_get_failure_count_key self) w' = Some 0).
  { apply counter_of_absent. unfold w'. lk. reflexivity. }
  split; [|split; [|split]].
  - rewrite (call_not_open self func w CLOSED Hs ltac:(discriminate)).
    apply (attempt_return self func w w1 w' a Hf).
    unfold _on_success. rewrite (bind_ok _ _ _ _ _ Hs1). reflexivity.
  - destruct (get_state_inv self w1 CLOSED) as [H|[_ H]]; [now rewrite Hs1| |].
    + apply get_state_lookup. unfold w'. lk. exact H.
    + apply get_state_absent. unfold w'. lk. exact H.
  - exact Hc.
  - now apply failure_count_counter.
Qed.

Lemma success_in_closed_clears_failures_witness :
  let two_down := (calls rpc (raise boom : M World unit) 2 world0).2 in
  let w' := (delete (_get_failure_count_key rpc) two_down).2 in
  _get_failure_count rpc two_down = (Ok 2, two_down)
  /\ call rpc working two_down = (Ok 42, w')
  /\ get_state rpc w' = (Ok CLOSED, w')
  /\ counter (_get_failure_count_key rpc) w' = Some 0
  /\ _get_failure_count rpc w' = (Ok 0, w').
Proof.
  intros two_down w'. split; [reflexivity|].
  apply (success_in_closed_clears_failures Z rpc working two_down two_down 42);
    reflexivity.
Defined.

(** X12 -- An exception that is not an instance of [expected_exception]
    passes through a breaker that is not OPEN without being counted:
    [call] re-raises it and the world is the one the function left. *)
Theorem unexpected_exception_bypasses_breaker
    (A : Type) (self : t) (func : M World A) (w w1 : World)
    (s : CircuitState) (e : exn) :
  get_state self w = (Ok s, w) ->
  s <> OPEN ->
  func w = (Raise e, w1) ->
  expected_exception (config self) e = false ->
  call self func w = (Raise e, w1).
Proof.
  intros Hs Hne Hf He.
  rewrite (call_not_open self func w s Hs Hne).
  unfold attempt, try_except.
  rewrite (bind_raise _ _ _ _ _ Hf), He. reflexivity.
Qed.

Lemma unexpected_exception_bypasses_breaker_witness :
  call picky (raise bad_input : M World unit) world0 = (Raise bad_input, world0).
Proof.
  apply (unexpected_exception_bypasses_breaker unit picky (raise bad_input)
           world0 world0 CLOSED bad_input);
    [reflexivity | discriminate | reflexivity | reflexivity].
Defined.

(** X13 -- An OPEN breaker whose last-failure stamp is missing does not
    wait: [call] moves to HALF_OPEN, clears the success counter and runs
    the guarded attempt at once. *)
Theorem open_without_stamp_probes (self : t) (w : World) :
  get_state self w = (Ok OPEN, w) ->
  lookup_live (_get_last_failure_key self) w = None ->
  let w1 := (delete (_get_success_count_key self)
               (set (_get_state_key self) (state_value HALF_OPEN) w).2).2 in
  get_state self w1 = (Ok HALF_OPEN, w1)
  /\ _get_success_count self w1 = (Ok 0, w1)
  /\ forall (A : Type) (func : M World A),
       call self func w = attempt self func w1.
Proof.
  intros Hs Hl w1. split; [|split].
  - apply get_state_lookup. unfold w1. lk. reflexivity.
  - apply success_count_counter, counter_of_absent. unfold w1. lk. reflexivity.
  - intros A func. apply call_open_probe; [exact Hs|].
    now apply should_attempt_reset_unstamped.
Qed.

Lemma open_without_stamp_probes_witness :
  let w1 := (delete (_get_success_count_key picky)
               (set (_get_state_key picky) (state_value HALF_OPEN)
                  open_unstamped).2).2 in
  get_state picky w1 = (Ok HALF_OPEN, w1)
  /\ _get_success_count picky w1 = (Ok 0, w1)
  /\ forall (A : Type) (func : M World A),
       call picky func open_unstamped = attempt picky func w1.
Proof.
  apply (open_without_stamp_probes picky open_unstamped); reflexivity.
Defined.

(** X14 -- Recovery.  On an OPEN breaker whose timeout has elapsed, with
    a success threshold [S >= 1], calls whose function returns each return
    its value; after [k] of them with [1 <= k < S] the breaker is
    HALF_OPEN with success count [k], and after exactly [S] it is CLOSED
    with both counters at 0. *)
Theorem recovery_after_timeout
    (A : Type) (self : t) (a : A) (w : World) (s : string) (t0 : Z) :
  let S_ := success_threshold (config self) in
  1 <= S_ ->
  get_state self w = (Ok OPEN, w) ->
  lookup_live (_get_last_failure_key self) w = Some s ->
  parse_int s = Some t0 ->
  1000 * timeout_seconds (config self) <= now w - t0 ->
  (forall k : nat,
      (1 <= k)%nat -> Z.of_nat k < S_ ->
      let run := calls self (ret a) k w in
      run.1 = replicate k (Ok a)
      /\ get_state self run.2 = (Ok HALF_OPEN, run.2)
      /\ _get_success_count self run.2 = (Ok (Z.of_nat k), run.2))
  /\ let run := calls self (ret a) (Z.to_nat S_) w in
     run.1 = replicate (Z.to_nat S_) (Ok a)
     /\ get_state self run.2 = (Ok CLOSED, run.2)
     /\ _get_failure_count self run.2 = (Ok 0, run.2)
     /\ _get_success_count self run.2 = (Ok 0, run.2).
Proof.
  intros S_ HS Hs Hl Hp Hel.
  set (w1 := (delete (_get_success_count_key self)
                (set (_get_state_key self) (state_value HALF_OPEN) w).2).2).
  assert (Hs1 : lookup_live (_get_state_key self) w1 = Some (state_value HALF_OPEN))
    by (unfold w1; lk; reflexivity).
  assert (Hc1 : counter (_get_success_count_key self) w1 = Some 0)
    by (apply counter_of_absent; unfold w1; lk; reflexivity).
  assert (Hcall : call self (ret a) w = call self (ret a) w1).
  { rewrite (call_not_open self (ret a) w1 HALF_OPEN
               (get_state_lookup self w1 HALF_OPEN Hs1) ltac:(discriminate)).
    apply call_open_probe; [exact Hs|].
    rewrite (should_attempt_reset_stamped self w s t0 Hl Hp).
    apply Z.leb_le in Hel. now rewrite Hel. }
  assert (Hcalls : forall k, calls self (ret a) (S k) w = calls self (ret a) (S k) w1).
  { intros k. now rewrite !calls_S, Hcall. }
  split.
  - intros k Hk1 Hk run. destruct k as [|k]; [lia|].
    subst run. rewrite Hcalls.
    destruct (calls_working_below self a (S k) w1 0 Hs1 Hc1 ltac:(lia))
      as (A1 & A2 & A3).
    split; [exact A1|]. split; [now apply get_state_lookup|].
    apply success_count_counter. rewrite A3. reflexivity.
  - destruct (Z.to_nat S_) as [|k] eqn:Hk; [lia|].
    intros run. subst run. rewrite Hcalls.
    destruct (calls_working_reach self a k w1 0 Hs1 Hc1 ltac:(lia))
      as (A1 & A2 & A3 & A4).
    split; [exact A1|]. split; [now apply get_state_lookup|]. split.
    + now apply failure_count_counter, counter_of_absent.
    + now apply success_count_counter, counter_of_absent.
Qed.

Lemma recovery_after_timeout_witness :
  let w := advance 5000 tripped in
  get_state rpc w = (Ok OPEN, w)
  /\ (forall k : nat,
        (1 <= k)%nat -> Z.of_nat k < 2 ->
        let run := calls rpc working k w in
        run.1 = replicate k (Ok 42)
        /\ get_state rpc run.2 = (Ok HALF_OPEN, run.2)
        /\ _get_success_count rpc run.2 = (Ok (Z.of_nat k), run.2))
  /\ let run := calls rpc working 2 w in
     run.1 = replicate 2 (Ok 42)
     /\ get_state rpc run.2 = (Ok CLOSED, run.2)
     /\ _get_failure_count rpc run.2 = (Ok 0, run.2)
     /\ _get_success_count rpc run.2 = (Ok 0, run.2).
Proof.
  intros w. split; [reflexivity|].
  apply (recovery_after_timeout Z rpc 42 w "1000000" 1000000);
    [simpl; lia | reflexivity | reflexivity | reflexivity
    | vm_compute; discriminate].
Defined.

(** X15 -- The registry keeps the first breaker registered under a
    name.  Registering an unknown name stores and returns a new breaker
    (default configuration when none is given); registering the name
    again, or decorating with it, returns that breaker and ignores the
    new configuration; other names are unaffected.  Decorating with an
    unknown name and no Redis client raises [ValueError] and registers
    nothing; with a client it registers. *)
Theorem registry_keeps_first_registration
    (name : string) (c1 c2 : option CircuitBreakerConfig) (r : Registry) :
  r !! name = None ->
  let cb := new name c1 in
  let r1 := <[name := cb]> r in
  register_circuit_breaker name c1 r = (Ok cb, r1)
  /\ circuit_breaker name true c1 r = (Ok cb, r1)
  /\ (exists e, circuit_breaker name false c1 r = (Raise e, r)
                /\ exc_cls e = ValueError)
  /\ register_circuit_breaker name c2 r1 = (Ok cb, r1)
  /\ (forall has_client, circuit_breaker name has_client c2 r1 = (Ok cb, r1))
  /\ get_circuit_breaker name r1 = (Ok (Some cb), r1)
  /\ (forall other, other <> name ->
        get_circuit_breaker other r1 = (Ok (r !! other), r1))
  /\ config (new name None) = default_config.
Proof.
  intros Hnone cb r1.
  assert (Hreg : register_circuit_breaker name c1 r = (Ok cb, r1)).
  { unfold register_circuit_breaker. rewrite bind_gets, Hnone. reflexivity. }
  assert (Hhit : r1 !! name = Some cb) by apply lookup_insert_eq.
  assert (Hreg2 : register_circuit_breaker name c2 r1 = (Ok cb, r1)).
  { unfold register_circuit_breaker. rewrite bind_gets, Hhit. reflexivity. }
  split; [exact Hreg|]. split; [|split; [|split; [|split; [|split; [|split]]]]].
  - unfold circuit_breaker, get_circuit_breaker. rewrite bind_gets, Hnone.
    exact Hreg.
  - eexists. unfold circuit_breaker, get_circuit_breaker.
    rewrite bind_gets, Hnone. split; reflexivity.
  - exact Hreg2.
  - intros has_client. unfold circuit_breaker, get_circuit_breaker.
    rewrite bind_gets, Hhit. reflexivity.
  - unfold get_circuit_breaker, gets. now rewrite Hhit.
  - intros other Hne. unfold get_circuit_breaker, gets.
    f_equal. f_equal. apply lookup_insert_ne. congruence.
  - reflexivity.
Qed.

Lemma registry_keeps_first_registration_witness :
  let first := Some (mkConfig 3 2 5 (fun _ => true)) in
  let second := Some (mkConfig 10 1 60 (fun _ => true)) in
  let cb := new "rpc" first in
  let r1 : Registry := <["rpc" := cb]> ∅ in
  register_circuit_breaker "rpc" first ∅ = (Ok cb, r1)
  /\ circuit_breaker "rpc" true first ∅ = (Ok cb, r1)
  /\ (exists e, circuit_breaker "rpc" false first ∅ = (Raise e, ∅)
                /\ exc_cls e = ValueError)
  /\ register_circuit_breaker "rpc" second r1 = (Ok cb, r1)
  /\ (forall has_client, circuit_breaker "rpc" has_client second r1 = (Ok cb, r1))
  /\ get_circuit_breaker "rpc" r1 = (Ok (Some cb), r1)
  /\ (forall other, other <> "rpc" ->
        get_circuit_breaker other r1 = (Ok ((∅ : Registry) !! other), r1))
  /\ config (new "rpc" None) = default_config.
Proof.
  apply (registry_keeps_first_registration "rpc"
           (Some (mkConfig 3 2 5 (fun _ => true)))
           (Some (mkConfig 10 1 60 (fun _ => true))) ∅).
  reflexivity.
Defined.

End BreakerMoreTheorems.
(* ===================================================================== *)
(** ** TokenAgent: the retry loops one by one, and the mint               *)
(* ===================================================================== *)

Module AgentMoreFacts.
Import TokenAgent TokenAgent.TransactionRetryConfig AgentAux AgentFacts AgentMoreAux.

(** *** Strings *)

Lemma prefix_spec (p s : string) :
  String.prefix p s = true <-> exists post, s = p +:+ post.
Proof.
  revert s. induction p as [|c p IH]; intros s.
  - split; [intros _; now exists s | intros _; destruct s; reflexivity].
  - destruct s as [|d s]; simpl.
    + split; [discriminate | intros [post H]; discriminate H].
    + destruct (Ascii.ascii_dec c d) as [->|Hne].
      * rewrite IH. split; intros [post H]; exists post; [now rewrite H|].
        now injection H.
      * split; [discriminate|]. intros [post H]. injection H as H1 H2. congruence.
Qed.

Lemma contains_unfold (p s : string) :
  contains p s
  = if String.prefix p s then true
    else match s with
         | EmptyString => false
         | String _ rest => contains p rest
         end.
Proof. destruct s; reflexivity. Qed.

Lemma contains_spec (p s : string) :
  contains p s = true <-> exists pre post, s = pre +:+ p +:+ post.
Proof.
  split.
  - induction s as [|c s IH]; rewrite contains_unfold;
      destruct (String.prefix p _) eqn:E.
    + intros _. apply prefix_spec in E. destruct E as [post H].
      now exists EmptyString, post.
    + discriminate.
    + intros _. apply prefix_spec in E. destruct E as [post H].
      now exists EmptyString, post.
    + intros H. destruct (IH H) as (pre & post & Hs).
      exists (String c pre), post. simpl. now rewrite Hs.
  - intros (pre & post & ->). induction pre as [|c pre IH].
    + rewrite contains_unfold.
      replace (String.prefix p (EmptyString +:+ p +:+ post)) with true; [reflexivity|].
      symmetry. apply prefix_spec. now exists post.
    + rewrite contains_unfold. destruct (String.prefix p _); [reflexivity|].
      exact IH.
Qed.

(** *** Worlds *)

Lemma traced_one (ev : event) (w : World) : logged ev w = traced [ev] w.
Proof. reflexivity. Qed.

Lemma traced_nil (w : World) : traced [] w = w.
Proof. unfold traced. rewrite app_nil_r. now destruct w. Qed.

Lemma traced_traced (a b : list event) (w : World) :
  traced b (traced a w) = traced (a ++ b) w.
Proof. unfold traced. simpl. now rewrite app_assoc. Qed.

Lemma count_traced (p : event -> bool) (evs : list event) (w : World) :
  count p (trace (traced evs w)) = (count p (trace w) + count p evs)%nat.
Proof. unfold traced. simpl. apply count_app. Qed.

(** *** [_get_nonce_with_retry] *)

Lemma get_nonce_round_ok (rest attempt : nat) (max_retries : Z) (w : World) (n : Z) :
  on_get_transaction_count (w3 w) (count is_get_count (trace w)) = Ok n ->
  _get_nonce_with_retry_loop (S rest) attempt max_retries w
  = (Ok (Some n), traced [EvGetTransactionCount] w).
Proof.
  intros H. cbn [_get_nonce_with_retry_loop]. apply try_except_ok.
  unfold bind. rewrite get_transaction_count_run, H. reflexivity.
Qed.

Lemma get_nonce_round_fails (rest attempt : nat) (max_retries : Z) (w : World)
    (e : exn) :
  on_get_transaction_count (w3 w) (count is_get_count (trace w)) = Raise e ->
  _get_nonce_with_retry_loop (S rest) attempt max_retries w
  = if Z.of_nat attempt <? max_retries - 1
    then _get_nonce_with_retry_loop rest (S attempt) max_retries
           (traced [EvGetTransactionCount; EvSleep (calculate_retry_delay attempt)] w)
    else (Raise e, traced [EvGetTransactionCount] w).
Proof.
  intros H. cbn [_get_nonce_with_retry_loop].
  rewrite (try_except_caught _ _ _ w (logged EvGetTransactionCount w) e);
    [| |reflexivity].
  - destruct (Z.of_nat attempt <? max_retries - 1); [|reflexivity].
    unfold sleep. rewrite bind_log. rewrite !traced_one, traced_traced.
    reflexivity.
  - unfold bind. rewrite get_transaction_count_run, H. reflexivity.
Qed.

Lemma count_after_round (attempt : nat) (w : World) (i : nat) :
  (count is_get_count
     (trace (traced [EvGetTransactionCount;
                     EvSleep (calculate_retry_delay attempt)] w)) + i)%nat
  = (count is_get_count (trace w) + S i)%nat.
Proof.
  rewrite count_traced.
  change (count is_get_count [_; _]) with 1%nat. lia.
Qed.

Lemma get_nonce_loop_succeeds (k : nat) :
  forall (remaining attempt : nat) (max_retries : Z) (w : World) (n : Z),
    (k < remaining)%nat ->
    Z.of_nat attempt + Z.of_nat remaining <= max_retries ->
    (forall i, (i < k)%nat ->
       exists e, on_get_transaction_count (w3 w)
                   (count is_get_count (trace w) + i) = Raise e) ->
    on_get_transaction_count (w3 w) (count is_get_count (trace w) + k) = Ok n ->
    _get_nonce_with_retry_loop remaining attempt max_retries w
    = (Ok (Some n), traced (failed_queries attempt k ++ [EvGetTransactionCount]) w).
Proof.
  induction k as [|k IH]; intros remaining attempt m w n Hk Hm Hfail Hok;
    (destruct remaining as [|rest]; [lia|]).
  - rewrite Nat.add_0_r in Hok. now apply get_nonce_round_ok.
  - destruct (Hfail 0%nat ltac:(lia)) as [e He]. rewrite Nat.add_0_r in He.
    rewrite (get_nonce_round_fails rest attempt m w e He).
    destruct (Z.of_nat attempt <? m - 1) eqn:E; [|apply Z.ltb_ge in E; lia].
    rewrite (IH rest (S attempt) m _ n).
    + rewrite traced_traced. reflexivity.
    + lia.
    + lia.
    + intros i Hi. destruct (Hfail (S i) ltac:(lia)) as [e' He'].
      exists e'. rewrite count_after_round. exact He'.
    + rewrite count_after_round. exact Hok.
Qed.

Lemma get_nonce_loop_exhausted (rest : nat) :
  forall (attempt : nat) (max_retries : Z) (w : World),
    Z.of_nat attempt + Z.of_nat (S rest) = max_retries ->
    (forall i, (i <= rest)%nat ->
       exists e, on_get_transaction_count (w3 w)
                   (count is_get_count (trace w) + i) = Raise e) ->
    exists e,
      on_get_transaction_count (w3 w) (count is_get_count (trace w) + rest) = Raise e
      /\ _get_nonce_with_retry_loop (S rest) attempt max_retries w
         = (Raise e, traced (failed_queries attempt rest ++ [EvGetTransactionCount]) w).
Proof.
  induction rest as [|rest IH]; intros attempt m w Hm Hfail.
  - destruct (Hfail 0%nat ltac:(lia)) as [e He]. exists e. split; [exact He|].
    rewrite Nat.add_0_r in He.
    rewrite (get_nonce_round_fails 0 attempt m w e He).
    destruct (Z.of_nat attempt <? m - 1) eqn:E; [apply Z.ltb_lt in E; lia|].
    reflexivity.
  - destruct (Hfail 0%nat ltac:(lia)) as [e He]. rewrite Nat.add_0_r in He.
    destruct (IH (S attempt) m
                (traced [EvGetTransactionCount;
                         EvSleep (calculate_retry_delay attempt)] w))
      as (e' & He' & Hrun).
    + lia.
    + intros i Hi. destruct (Hfail (S i) ltac:(lia)) as [e' He'].
      exists e'. rewrite count_after_round. exact He'.
    + exists e'. split.
      * rewrite count_after_round in He'. exact He'.
      * rewrite (get_nonce_round_fails (S rest) attempt m w e He).
        destruct (Z.of_nat attempt <? m - 1) eqn:E; [|apply Z.ltb_ge in E; lia].
        rewrite Hrun, traced_traced. reflexivity.
Qed.

(** *** [_wait_for_receipt_with_retry] *)

Lemma wait_round_final (rest attempt : nat) (h : string) (timeout max_retries : Z)
    (w : World) (r : outcome Receipt) :
  on_wait_for_transaction_receipt (w3 w) (count is_wait (trace w)) h = r ->
  final r ->
  _wait_for_receipt_with_retry_loop (S rest) attempt h timeout max_retries w
  = (returned r, traced [EvWait h timeout] w).
Proof.
  intros Hr Hfin. cbn [_wait_for_receipt_with_retry_loop].
  unfold try_except, bind.
  rewrite wait_for_transaction_receipt_run, Hr.
  destruct r as [rc|e]; [reflexivity|].
  simpl in Hfin. unfold is_class.
  rewrite (bool_decide_eq_false_2 _ Hfin). simpl.
  destruct (bool_decide (exc_cls e = TransactionNotFound)); reflexivity.
Qed.

Lemma wait_round_times_out (rest attempt : nat) (h : string) (timeout max_retries : Z)
    (w : World) (e : exn) :
  on_wait_for_transaction_receipt (w3 w) (count is_wait (trace w)) h = Raise e ->
  exc_cls e = TimeExhausted ->
  _wait_for_receipt_with_retry_loop (S rest) attempt h timeout max_retries w
  = if Z.of_nat attempt <? max_retries - 1
    then _wait_for_receipt_with_retry_loop rest (S attempt) h timeout max_retries
           (traced [EvWait h timeout] w)
    else (Raise e, traced [EvWait h timeout] w).
Proof.
  intros He Hcls. cbn [_wait_for_receipt_with_retry_loop].
  rewrite (try_except_caught _ _ _ w (logged (EvWait h timeout) w) e).
  - unfold is_class. rewrite (bool_decide_eq_true_2 _ Hcls).
    destruct (Z.of_nat attempt <? max_retries - 1); reflexivity.
  - unfold bind. rewrite wait_for_transaction_receipt_run, He. reflexivity.
  - unfold is_class. now rewrite (bool_decide_eq_true_2 _ Hcls).
Qed.

Lemma count_after_wait (h : string) (timeout : Z) (w : World) (i : nat) :
  (count is_wait (trace (traced [EvWait h timeout] w)) + i)%nat
  = (count is_wait (trace w) + S i)%nat.
Proof.
  rewrite count_traced. change (count is_wait [_]) with 1%nat. lia.
Qed.

Lemma wait_loop_settles (k : nat) :
  forall (remaining attempt : nat) (h : string) (timeout max_retries : Z)
         (w : World) (r : outcome Receipt),
    (k < remaining)%nat ->
    Z.of_nat attempt + Z.of_nat remaining <= max_retries ->
    (forall i, (i < k)%nat ->
       exists e, on_wait_for_transaction_receipt (w3 w)
                   (count is_wait (trace w) + i) h = Raise e
                 /\ exc_cls e = TimeExhausted) ->
    on_wait_for_transaction_receipt (w3 w) (count is_wait (trace w) + k) h = r ->
    final r ->
    _wait_for_receipt_with_retry_loop remaining attempt h timeout max_retries w
    = (returned r, traced (replicate (S k) (EvWait h timeout)) w).
Proof.
  induction k as [|k IH]; intros remaining attempt h timeout m w r Hk Hm Hfail Hr Hfin;
    (destruct remaining as [|rest]; [lia|]).
  - rewrite Nat.add_0_r in Hr. now apply wait_round_final.
  - destruct (Hfail 0%nat ltac:(lia)) as (e & He & Hcls). rewrite Nat.add_0_r in He.
    rewrite (wait_round_times_out rest attempt h timeout m w e He Hcls).
    destruct (Z.of_nat attempt <? m - 1) eqn:E; [|apply Z.ltb_ge in E; lia].
    rewrite (IH rest (S attempt) h timeout m _ r).
    + rewrite traced_traced. reflexivity.
    + lia.
    + lia.
    + intros i Hi. destruct (Hfail (S i) ltac:(lia)) as (e' & He' & Hc').
      exists e'. split; [|exact Hc']. rewrite count_after_wait. exact He'.
    + rewrite count_after_wait. exact Hr.
    + exact Hfin.
Qed.

(** *** [_send_transaction_with_retry] *)

Lemma send_round_ok (w : World) (raw h : string) :
  on_sign_transaction (w3 w) (transaction_dict w) = Ok raw ->
  on_send_raw_transaction (w3 w) (count is_send (trace w)) raw = Ok h ->
  (signed_tx <- sign_transaction ;;
   tx_hash_hex <- send_raw_transaction signed_tx ;;
   ret (Some tx_hash_hex)) w
  = (Ok (Some h), traced [EvSign (transaction_dict w); EvSend raw] w).
Proof.
  intros Hsign Hsend.
  unfold bind at 1. rewrite sign_transaction_run, Hsign.
  unfold bind. rewrite send_raw_transaction_run.
  rewrite trace_logged, count_app. simpl (count is_send [_]).
  rewrite Nat.add_0_r. change (w3 (logged _ w)) with (w3 w).
  rewrite Hsend. rewrite !traced_one, traced_traced. reflexivity.
Qed.

(** The first round, when the send goes through. *)
Lemma send_loop_first_ok (rest : nat) (max_retries : Z) (w : World) (raw h : string) :
  on_sign_transaction (w3 w) (transaction_dict w) = Ok raw ->
  on_send_raw_transaction (w3 w) (count is_send (trace w)) raw = Ok h ->
  _send_transaction_with_retry_loop (S rest) 0 max_retries w
  = (Ok (Some h), traced [EvSign (transaction_dict w); EvSend raw] w).
Proof.
  intros Hsign Hsend. cbn [_send_transaction_with_retry_loop].
  change (0 <? Z.of_nat 0) with false. cbv iota.
  apply try_except_ok. rewrite bind_ret. now apply send_round_ok.
Qed.

Lemma with_tx_same (evs : list event) (w : World) :
  with_tx (transaction_dict w) (traced evs w) = traced evs w.
Proof. destruct w; reflexivity. Qed.

(** The first round, when the send fails with a retryable error and a
    retry is left: [tx1] is the dictionary after the handler, with the
    fees raised when the error asks for it. *)
Lemma send_loop_first_retries (rest : nat) (max_retries : Z) (w : World)
    (raw : string) (e : exn) (tx1 : TxDict) :
  2 <= max_retries ->
  on_sign_transaction (w3 w) (transaction_dict w) = Ok raw ->
  on_send_raw_transaction (w3 w) (count is_send (trace w)) raw = Raise e ->
  is_retryable_error e = true ->
  (if asks_for_fees e then raised (transaction_dict w) = Ok tx1
   else tx1 = transaction_dict w) ->
  _send_transaction_with_retry_loop (S rest) 0 max_retries w
  = _send_transaction_with_retry_loop rest 1 max_retries
      (traced [EvSleep 2]
         (with_tx tx1 (traced [EvSign (transaction_dict w); EvSend raw] w))).
Proof.
  intros Hm Hsign Hsend Hretry Hfee. cbn [_send_transaction_with_retry_loop].
  change (0 <? Z.of_nat 0) with false. cbv iota.
  rewrite (try_except_caught _ _ _ w
             (traced [EvSign (transaction_dict w); EvSend raw] w) e);
    [| |reflexivity].
  - rewrite Hretry, andb_true_r.
    destruct (Z.of_nat 0 <? max_retries - 1) eqn:E; [|apply Z.ltb_ge in E; lia].
    unfold asks_for_fees in Hfee.
    destruct (contains "gas price" (lower (exc_msg e))
              || contains "fee" (lower (exc_msg e))).
    + rewrite (bind_ok _ _ _ _ tt
                 (bump_fees_ok
                    (traced [EvSign (transaction_dict w); EvSend raw] w) tx1 Hfee)).
      reflexivity.
    + subst tx1. rewrite bind_ret, with_tx_same. reflexivity.
  - rewrite bind_ret.
    rewrite (send_round_raises w raw e Hsign Hsend).
    rewrite !traced_one, traced_traced. reflexivity.
Qed.

(** A later round: the nonce is read again, written into the
    dictionary, and the send goes through. *)
Lemma send_loop_retry_ok (rest attempt : nat) (max_retries : Z) (w : World)
    (n : Z) (raw h : string) :
  attempt <> 0%nat ->
  let tx := set_nonce (Some n) (transaction_dict w) in
  on_get_transaction_count (w3 w) (count is_get_count (trace w)) = Ok n ->
  on_sign_transaction (w3 w) tx = Ok raw ->
  on_send_raw_transaction (w3 w) (count is_send (trace w)) raw = Ok h ->
  _send_transaction_with_retry_loop (S rest) attempt max_retries w
  = (Ok (Some h),
     traced [EvSign tx; EvSend raw]
       (with_tx tx (traced [EvGetTransactionCount] w))).
Proof.
  intros Hnz tx Hget Hsign Hsend. cbn [_send_transaction_with_retry_loop].
  destruct (0 <? Z.of_nat attempt) eqn:E; [|apply Z.ltb_ge in E; lia].
  apply try_except_ok.
  unfold bind at 1. unfold bind at 1.
  rewrite (get_nonce_with_retry_first w n Hget).
  change ((set_tx (set_nonce (Some n)) (logged EvGetTransactionCount w)))
    with (Ok tt, with_tx tx (traced [EvGetTransactionCount] w)).
  apply (send_round_ok (with_tx tx (traced [EvGetTransactionCount] w)) raw h).
  - exact Hsign.
  - change (w3 (with_tx tx _)) with (w3 w).
    change (trace (with_tx tx (traced [EvGetTransactionCount] w)))
      with (trace (traced [EvGetTransactionCount] w)).
    rewrite count_traced. change (count is_send [_]) with 0%nat.
    rewrite Nat.add_0_r. exact Hsend.
Qed.

(** *** Steps that leave the provider and the tables alone *)

Lemma frame_refl (w : World) : frame w w.
Proof. now repeat split. Qed.




















(** *** Where a returned hash comes from *)








(** *** [process_mint] *)

Lemma keeps_build_transaction (a : string) (v : Z) (why : string) (p : TxDict) :
  keeps (build_transaction a v why p).
Proof. intros w. apply frame_refl. Qed.



Lemma send_with_retry_first_ok (tx : TxDict) (max_retries : Z) (w : World)
    (raw h : string) :
  1 <= max_retries ->
  on_sign_transaction (w3 w) tx = Ok raw ->
  on_send_raw_transaction (w3 w) (count is_send (trace w)) raw = Ok h ->
  _send_transaction_with_retry tx max_retries w
  = (Ok (Some h), traced [EvSign tx; EvSend raw] (with_tx tx w)).
Proof.
  intros Hm Hsign Hsend. unfold _send_transaction_with_retry.
  change (bind (set_tx (fun _ => tx)) ?k w) with (k tt (with_tx tx w)).
  destruct (Z.to_nat max_retries) as [|rest] eqn:Hn; [lia|].
  exact (send_loop_first_ok rest max_retries (with_tx tx w) raw h Hsign Hsend).
Qed.


End AgentMoreFacts.

Section AgentMoreTheorems.
Import TokenAgent TokenAgent.TransactionRetryConfig AgentAux AgentFacts.
Import AgentMoreAux AgentMoreFacts AgentExamples AgentMoreExamples.

(** X16 -- The backoff delay is [2^(attempt+1)] seconds up to attempt 3
    and 30 seconds from attempt 4 on; it always lies between 2 and 30 and
    never decreases with the attempt number. *)
Theorem retry_delay_bounded_and_monotone (a b : nat) :
  2 <= calculate_retry_delay a <= 30
  /\ ((a <= b)%nat -> calculate_retry_delay a <= calculate_retry_delay b)
  /\ ((a <= 3)%nat -> calculate_retry_delay a = 2 ^ (Z.of_nat a + 1))
  /\ ((4 <= a)%nat -> calculate_retry_delay a = 30).
Proof.
  unfold calculate_retry_delay, BASE_DELAY, BACKOFF_MULTIPLIER, MAX_DELAY.
  assert (Hpos : forall n : nat, 1 <= 2 ^ Z.of_nat n).
  { intros n. pose proof (Z.pow_pos_nonneg 2 (Z.of_nat n)). lia. }
  pose proof (Hpos a) as Ha.
  split; [lia|]. split; [|split].
  - intros Hab.
    pose proof (Z.pow_le_mono_r 2 (Z.of_nat a) (Z.of_nat b)). lia.
  - intros H3.
    pose proof (Z.pow_le_mono_r 2 (Z.of_nat a) 3) as Hle.
    change (2 ^ 3) with 8 in Hle.
    rewrite Z.add_1_r, Z.pow_succ_r by lia. lia.
  - intros H4.
    pose proof (Z.pow_le_mono_r 2 4 (Z.of_nat a)) as Hle.
    change (2 ^ 4) with 16 in Hle. lia.
Qed.

Lemma retry_delay_bounded_and_monotone_witness :
  2 <= calculate_retry_delay 2 <= 30
  /\ calculate_retry_delay 2 <= calculate_retry_delay 7
  /\ calculate_retry_delay 2 = 2 ^ (Z.of_nat 2 + 1)
  /\ calculate_retry_delay 7 = 30.
Proof.
  destruct (retry_delay_bounded_and_monotone 2 7) as (H1 & H2 & H3 & _).
  destruct (retry_delay_bounded_and_monotone 7 7) as (_ & _ & _ & H4).
  split; [exact H1|]. split; [apply H2; lia|]. split; [apply H3; lia|].
  apply H4; lia.
Defined.

(** X17 -- An error is retryable exactly when its message, lower-cased,
    has one of the configured patterns as a substring, or its class is
    [TimeExhausted] or [ConnectionError]. *)
Theorem is_retryable_error_iff (e : exn) :
  is_retryable_error e = true
  <-> (exists pattern pre post,
         In pattern RETRYABLE_ERRORS
         /\ lower (exc_msg e) = pre +:+ pattern +:+ post)
      \/ exc_cls e = TimeExhausted
      \/ exc_cls e = ConnectionError_.
Proof.
  unfold is_retryable_error.
  destruct (existsb _ RETRYABLE_ERRORS) eqn:Hex.
  - split; [intros _|reflexivity]. left.
    apply existsb_exists in Hex. destruct Hex as (p & Hin & Hc).
    apply contains_spec in Hc. destruct Hc as (pre & post & Hs).
    now exists p, pre, post.
  - assert (Hno : ~ exists pattern pre post,
               In pattern RETRYABLE_ERRORS
               /\ lower (exc_msg e) = pre +:+ pattern +:+ post).
    { intros (p & pre & post & Hin & Hs).
      assert (existsb (fun pattern => contains pattern (lower (exc_msg e)))
                RETRYABLE_ERRORS = true) as Hyes.
      { apply existsb_exists. exists p. split; [exact Hin|].
        apply contains_spec. now exists pre, post. }
      congruence. }
    destruct (exc_cls e) eqn:Hc; simpl;
      (split; [intros H; first [discriminate H | tauto] | intros [H|[H|H]];
               first [reflexivity | discriminate H | contradiction]]).
Qed.

(** X18 -- [_get_nonce_with_retry] retries every exception, whatever its
    class or message.  When the first [k] queries fail and the next one
    answers [n], with [k < max_retries], it returns [n] after [k + 1]
    queries, having slept the backoff delay after each failure.  When all
    [max_retries] queries fail it raises the last failure, without
    sleeping after it.  With [max_retries <= 0] it queries nothing and
    returns [None]. *)
Theorem get_nonce_with_retry_behaviour (max_retries : Z) (w : World) :
  let c := count is_get_count (trace w) in
  (max_retries <= 0 -> _get_nonce_with_retry max_retries w = (Ok None, w))
  /\ (forall (k : nat) (n : Z),
        Z.of_nat k < max_retries ->
        (forall i, (i < k)%nat ->
           exists e, on_get_transaction_count (w3 w) (c + i) = Raise e) ->
        on_get_transaction_count (w3 w) (c + k) = Ok n ->
        _get_nonce_with_retry max_retries w
        = (Ok (Some n),
           traced (failed_queries 0 k ++ [EvGetTransactionCount]) w))
  /\ (1 <= max_retries ->
      (forall i, Z.of_nat i < max_retries ->
         exists e, on_get_transaction_count (w3 w) (c + i) = Raise e) ->
      let last := Z.to_nat (max_retries - 1) in
      exists e,
        on_get_transaction_count (w3 w) (c + last) = Raise e
        /\ _get_nonce_with_retry max_retries w
           = (Raise e,
              traced (failed_queries 0 last ++ [EvGetTransactionCount]) w)).
Proof.
  intros c. unfold _get_nonce_with_retry. split; [|split].
  - intros Hm. replace (Z.to_nat max_retries) with 0%nat by lia. reflexivity.
  - intros k n Hk Hfail Hok.
    apply get_nonce_loop_succeeds; [lia | lia | exact Hfail | exact Hok].
  - intros Hm Hfail. set (last := Z.to_nat (max_retries - 1)).
    replace (Z.to_nat max_retries) with (S last) by (unfold last; lia).
    apply get_nonce_loop_exhausted; [unfold last; lia|].
    intros i Hi. apply Hfail. unfold last in Hi. lia.
Qed.

Lemma get_nonce_with_retry_behaviour_witness :
  _get_nonce_with_retry 0 (world_of flaky_provider)
    = (Ok None, world_of flaky_provider)
  /\ _get_nonce_with_retry 3 (world_of flaky_provider)
     = (Ok (Some 7),
        traced [EvGetTransactionCount; EvSleep 2;
                EvGetTransactionCount; EvSleep 4;
                EvGetTransactionCount] (world_of flaky_provider))
  /\ exists e,
       on_get_transaction_count dead_provider 2 = Raise e
       /\ _get_nonce_with_retry 3 (world_of dead_provider)
          = (Raise e,
             traced [EvGetTransactionCount; EvSleep 2;
                     EvGetTransactionCount; EvSleep 4;
                     EvGetTransactionCount] (world_of dead_provider)).
Proof.
  split; [|split].
  - destruct (get_nonce_with_retry_behaviour 0 (world_of flaky_provider))
      as (H & _). apply H. lia.
  - destruct (get_nonce_with_retry_behaviour 3 (world_of flaky_provider))
      as (_ & H & _).
    apply (H 2%nat 7); [simpl; lia | | reflexivity].
    intros i Hi. exists unreachable.
    destruct i as [|[|i]]; [reflexivity | reflexivity | lia].
  - destruct (get_nonce_with_retry_behaviour 3 (world_of dead_provider))
      as (_ & _ & H).
    apply H; [lia|]. intros i _. now exists unreachable.
Defined.

(** X19 -- [_wait_for_receipt_with_retry] retries timeouts only, and
    never sleeps.  After [k < max_retries] waits that ran out of time,
    the next wait's outcome is final when it is a receipt or an exception
    of any other class ([TransactionNotFound] included): the receipt is
    returned, the exception raised, after [k + 1] waits in all.  With
    [max_retries <= 0] nothing is awaited and [None] is returned. *)
Theorem wait_for_receipt_retries_only_timeouts
    (tx_hash : string) (timeout max_retries : Z) (w : World) :
  let c := count is_wait (trace w) in
  (max_retries <= 0 ->
     _wait_for_receipt_with_retry tx_hash timeout max_retries w = (Ok None, w))
  /\ forall (k : nat) (r : outcome Receipt),
       Z.of_nat k < max_retries ->
       (forall i, (i < k)%nat ->
          exists e, on_wait_for_transaction_receipt (w3 w) (c + i) tx_hash = Raise e
                    /\ exc_cls e = TimeExhausted) ->
       on_wait_for_transaction_receipt (w3 w) (c + k) tx_hash = r ->
       final r ->
       _wait_for_receipt_with_retry tx_hash timeout max_retries w
       = (returned r, traced (replicate (S k) (EvWait tx_hash timeout)) w).
Proof.
  intros c. unfold _wait_for_receipt_with_retry. split.
  - intros Hm. replace (Z.to_nat max_retries) with 0%nat by lia. reflexivity.
  - intros k r Hk Hfail Hr Hfin.
    apply wait_loop_settles; [lia | lia | exact Hfail | exact Hr | exact Hfin].
Qed.

Lemma wait_for_receipt_retries_only_timeouts_witness :
  _wait_for_receipt_with_retry "0xhash" 120 0 (world_of flaky_provider)
    = (Ok None, world_of flaky_provider)
  /\ _wait_for_receipt_with_retry "0xhash" 120 2 (world_of flaky_provider)
     = (Ok (Some (mkReceipt 1 21000)),
        traced [EvWait "0xhash" 120; EvWait "0xhash" 120] (world_of flaky_provider)).
Proof.
  destruct (wait_for_receipt_retries_only_timeouts "0xhash" 120 0
              (world_of flaky_provider)) as (H0 & _).
  destruct (wait_for_receipt_retries_only_timeouts "0xhash" 120 2
              (world_of flaky_provider)) as (_ & H2).
  split; [apply H0; lia|].
  apply (H2 1%nat (Ok (mkReceipt 1 21000))); [simpl; lia | | reflexivity | exact I].
  intros i Hi. exists not_mined.
  destruct i as [|i]; [split; reflexivity | lia].
Defined.

(** X20 -- [_send_transaction_with_retry] when the first send goes
    through: the transaction is signed once and sent once, as given,
    with no nonce query and no sleep, and its hash is returned.  With
    [max_retries <= 0] nothing is signed or sent and [None] is
    returned. *)
Theorem send_first_attempt_uses_given_transaction
    (tx : TxDict) (max_retries : Z) (w : World) :
  (max_retries <= 0 ->
     _send_transaction_with_retry tx max_retries w = (Ok None, with_tx tx w))
  /\ forall raw h : string,
       1 <= max_retries ->
       on_sign_transaction (w3 w) tx = Ok raw ->
       on_send_raw_transaction (w3 w) (count is_send (trace w)) raw = Ok h ->
       _send_transaction_with_retry tx max_retries w
       = (Ok (Some h), traced [EvSign tx; EvSend raw] (with_tx tx w)).
Proof.
  split.
  - intros Hm. unfold _send_transaction_with_retry.
    replace (Z.to_nat max_retries) with 0%nat by lia. reflexivity.
  - intros raw h. apply send_with_retry_first_ok.
Qed.

Lemma send_first_attempt_uses_given_transaction_witness :
  let w := world_of (steady_provider 1) in
  _send_transaction_with_retry tx0 0 w = (Ok None, with_tx tx0 w)
  /\ _send_transaction_with_retry tx0 3 w
     = (Ok (Some "0xhash"), traced [EvSign tx0; EvSend "0xsigned"] (with_tx tx0 w)).
Proof.
  intros w.
  destruct (send_first_attempt_uses_given_transaction tx0 0 w) as (H0 & _).
  destruct (send_first_attempt_uses_given_transaction tx0 3 w) as (_ & H3).
  split; [apply H0; lia|].
  apply (H3 "0xsigned" "0xhash"); [lia | reflexivity | reflexivity].
Defined.

(** X21 -- The retry after a failed first send.  When the first send
    raises a retryable error and a retry is left, the loop sleeps 2
    seconds, reads the nonce again and signs the transaction with that
    nonce.  When the error message mentions ["gas price"] or ["fee"],
    each fee of the dictionary has been replaced by [int(fee * 1.2)],
    the product being taken in double precision ([raised] gives both,
    and fails where Python raises OverflowError); otherwise the fees are
    unchanged.  When that second send goes through, its hash is
    returned. *)
Theorem send_retry_refreshes_nonce_and_fees
    (tx tx1 : TxDict) (max_retries : Z) (w : World) (raw raw' h : string)
    (e : exn) (n : Z) :
  let tx' := set_nonce (Some n) tx1 in
  2 <= max_retries ->
  on_sign_transaction (w3 w) tx = Ok raw ->
  on_send_raw_transaction (w3 w) (count is_send (trace w)) raw = Raise e ->
  is_retryable_error e = true ->
  (if asks_for_fees e then raised tx = Ok tx1 else tx1 = tx) ->
  on_get_transaction_count (w3 w) (count is_get_count (trace w)) = Ok n ->
  on_sign_transaction (w3 w) tx' = Ok raw' ->
  on_send_raw_transaction (w3 w) (S (count is_send (trace w))) raw' = Ok h ->
  _send_transaction_with_retry tx max_retries w
  = (Ok (Some h),
     mkWorld (w3 w)
       (trace w ++ [EvSign tx; EvSend raw; EvSleep 2;
                    EvGetTransactionCount; EvSign tx'; EvSend raw'])
       tx' (transactions w) (users w) (session_active w)).
Proof.
  intros tx' Hm Hsign Hsend Hretry Hfee Hget Hsign' Hsend'.
  unfold _send_transaction_with_retry.
  change (bind (set_tx (fun _ => tx)) ?k w) with (k tt (with_tx tx w)).
  destruct (Z.to_nat max_retries) as [|[|rest]] eqn:Hn; [lia | lia |].
  rewrite (send_loop_first_retries (S rest) max_retries (with_tx tx w) raw e tx1
             Hm Hsign Hsend Hretry Hfee).
  change (transaction_dict (with_tx tx w)) with tx.
  set (w2 := traced [EvSleep 2]
               (with_tx tx1 (traced [EvSign tx; EvSend raw] (with_tx tx w)))).
  assert (H3 : w3 w2 = w3 w) by reflexivity.
  assert (Htr : trace w2 = trace w ++ [EvSign tx; EvSend raw; EvSleep 2])
    by (unfold w2; simpl; now rewrite <- app_assoc).
  assert (Htx : set_nonce (Some n) (transaction_dict w2) = tx') by reflexivity.
  assert (Htab : transactions w2 = transactions w /\ users w2 = users w
                 /\ session_active w2 = session_active w)
    by (repeat split; reflexivity).
  clearbody w2.
  rewrite (send_loop_retry_ok rest 1 max_retries w2 n raw' h).
  - f_equal. rewrite Htx. unfold traced, with_tx. simpl.
    rewrite H3, Htr. destruct Htab as (-> & -> & ->).
    f_equal. rewrite <- !app_assoc. reflexivity.
  - discriminate.
  - rewrite H3, Htr, count_app.
    change (count is_get_count [_; _; _]) with 0%nat.
    rewrite Nat.add_0_r. exact Hget.
  - rewrite H3, Htx. exact Hsign'.
  - rewrite H3, Htr, count_app.
    change (count is_send [_; _; _]) with 1%nat.
    rewrite Nat.add_1_r. exact Hsend'.
Qed.

Lemma send_retry_refreshes_nonce_and_fees_witness :
  let w := world_of underpriced_provider in
  let tx := mkTx (Some 42) (Some 1000000000000000001) (Some 100000) in
  let tx' := mkTx (Some 8) (Some 1200000000000000000) (Some 120000) in
  _send_transaction_with_retry tx 3 w
  = (Ok (Some "0xhash"),
     mkWorld (w3 w)
       (trace w ++ [EvSign tx; EvSend "0xsigned"; EvSleep 2;
                    EvGetTransactionCount; EvSign tx'; EvSend "0xsigned"])
       tx' (transactions w) (users w) (session_active w)).
Proof.
  intros w tx tx'.
  apply (send_retry_refreshes_nonce_and_fees tx
           (mkTx (Some 42) (Some 1200000000000000000) (Some 120000))
           3 w "0xsigned" "0xsigned" "0xhash" fee_too_low 8);
    [lia | reflexivity | reflexivity | reflexivity | vm_compute; reflexivity
    | reflexivity | reflexivity | reflexivity].
Defined.



(** Outside these conditions.  An amount that [to_wei] rejects: [None]
    is returned and no row is recorded.  A hash that another row already
    stores: the transaction has been sent, the commit of the hash
    raises, the commit in the handler raises in turn, and the exception
    leaves [process_mint] with the row still ["pending"]. *)
Example mint_of_a_negative_amount_records_nothing :
  process_mint "tx-1" "user-1" (-5) "booking" (world_of (steady_provider 1))
  = (Ok None, world_of (steady_provider 1)).
Proof. reflexivity. Qed.

Example mint_with_a_stored_hash_raises :
  let earlier := mkTransaction "tx-0" "user-1" "mint" 1 "booking"
                   "confirmed" (Some "0xhash") (Some 21000) in
  let w := (set_transactions (insert "tx-0" earlier)
              (world_of (steady_provider 1))).2 in
  let run := process_mint "tx-1" "user-1" 5 "booking" w in
  run.1 = Raise inactive_session
  /\ count is_send (trace run.2) = 1%nat
  /\ status <$> (transactions run.2 !! "tx-1") = Some "pending"
  /\ session_active run.2 = false.
Proof. vm_compute. repeat split. Qed.


(** X23 -- A mint for an unknown user, or for a user whose stored wallet
    address is rejected by the checksum conversion, returns [None]
    without recording a row and without any call to the chain. *)
Theorem process_mint_rejects_before_recording
    (id user why : string) (amt : Z) (w : World) :
  transactions w !! id = None ->
  users w !! user = None
  \/ (exists wallet e, users w !! user = Some wallet
                       /\ on_to_checksum_address (w3 w) wallet = Raise e) ->
  process_mint id user amt why w = (Ok None, w).
Proof.
  intros Hnew Hbad. unfold process_mint.
  unfold bind at 1. rewrite try_except_catch_all.
  unfold bind at 1. unfold query_transaction at 1.
  destruct (session_active w) eqn:Hact; [|reflexivity].
  rewrite Hnew.
  unfold bind at 1. unfold query_user at 1. rewrite Hact.
  destruct Hbad as [Hnone|(wallet & e & Hsome & Hcs)].
  - rewrite Hnone. reflexivity.
  - rewrite Hsome. unfold bind at 1. unfold to_checksum_address at 1.
    rewrite Hcs. reflexivity.
Qed.

Lemma process_mint_rejects_before_recording_witness :
  process_mint "tx-1" "nobody" 5 "booking" (world_of (steady_provider 1))
  = (Ok None, world_of (steady_provider 1)).
Proof.
  apply (process_mint_rejects_before_recording "tx-1" "nobody" "booking" 5
           (world_of (steady_provider 1))); [reflexivity|].
  left. reflexivity.
Defined.



End AgentMoreTheorems.
(* ===================================================================== *)
(** ** Idempotency: failures of the cache, keys, the header dependency    *)
(* ===================================================================== *)

Module IdempotencyMoreFacts.
Import Idempotency IdempotencyAux IdempotencyFacts.

Lemma append_assoc (a b c : string) : (a +:+ b) +:+ c = a +:+ (b +:+ c).
Proof.
  induction a as [|x a IH]; [reflexivity|].
  change (String x ((a +:+ b) +:+ c) = String x (a +:+ (b +:+ c))).
  now f_equal.
Qed.

Lemma contains_cons_false (p : string) (x : ascii) (s : string) :
  contains p (String x s) = false -> contains p s = false.
Proof.
  intros H. rewrite AgentMoreFacts.contains_unfold in H.
  destruct (String.prefix p (String x s)); [discriminate H | exact H].
Qed.

Lemma colon_first (s : string) : contains ":" (String ":" s) = true.
Proof. rewrite AgentMoreFacts.contains_unfold. destruct s; reflexivity. Qed.

(** A text is cut at its first colon in one way only. *)
Lemma split_at_colon (a : string) :
  forall c b d : string,
    contains ":" a = false -> contains ":" c = false ->
    a +:+ ":" +:+ b = c +:+ ":" +:+ d ->
    a = c /\ b = d.
Proof.
  induction a as [|x a IH]; intros [|y c] b d Ha Hc H.
  - injection H as H. auto.
  - injection H as Hy _. subst y. rewrite colon_first in Hc. discriminate Hc.
  - injection H as Hx _. subst x. rewrite colon_first in Ha. discriminate Ha.
  - injection H as Hx H. subst y.
    destruct (IH c b d (contains_cons_false _ _ _ Ha)
                (contains_cons_false _ _ _ Hc) H) as [-> ->].
    auto.
Qed.

(** [get_redis_client()] returns without touching the world, or
    raises. *)
Lemma get_redis_client_cases (w : World) :
  (exists b, get_redis_client w = (Ok b, w))
  \/ (exists e w', get_redis_client w = (Raise e, w')).
Proof.
  unfold get_redis_client.
  destruct (redis_available w) as [| |e kept]; eauto.
Qed.

Lemma get_redis_client_returns (w w' : World) (b : bool) :
  get_redis_client w = (Ok b, w') ->
  w' = w /\ redis_available w = b.
Proof.
  unfold get_redis_client.
  destruct (redis_available w) as [| |e kept]; intros [= <- <-]; auto.
Qed.

Lemma on_redis_raise {A} (e : exn) (w : World) :
  on_redis (raise e : M Redis.World A) w = (Raise e, w).
Proof. unfold on_redis, raise. now rewrite world_eta. Qed.

Section WithCodec.
Variable J : Codec.

(** When [get_redis_client()] raises, so does the helper. *)
Lemma get_cached_response_raises (k : string) (w w' : World) (e : exn) :
  get_redis_client w = (Raise e, w') ->
  get_cached_response J k w = (Raise e, w').
Proof. intros H. unfold get_cached_response. now rewrite (bind_raise _ _ _ _ _ H). Qed.

Lemma store_response_raises (k : string) (doc : json) (ttl : Z)
    (w w' : World) (e : exn) :
  get_redis_client w = (Raise e, w') ->
  store_response J k doc ttl w = (Raise e, w').
Proof. intros H. unfold store_response. now rewrite (bind_raise _ _ _ _ _ H). Qed.

Lemma get_cached_response_total (k : string) (w : World) (b : bool) :
  get_redis_client w = (Ok b, w) ->
  exists r, get_cached_response J k w = (Ok r, w).
Proof.
  intros H. unfold get_cached_response. rewrite (bind_ok _ _ _ _ _ H).
  destruct b; [|now exists None].
  unfold try_except.
  rewrite (bind_ok _ _ _ _ _ (on_redis_get k w)).
  destruct (lookup_live k (redis w)) as [text|]; [|now exists None].
  destruct (bool_decide (text = EmptyString)); [now exists None|].
  unfold bind. destruct (json_loads J text) as [doc|e];
    [now exists (Some doc) | now exists None].
Qed.

Lemma get_cached_response_down (k : string) (w : World) :
  redis_available w = false -> get_cached_response J k w = (Ok None, w).
Proof.
  intros H. unfold get_cached_response.
  now rewrite (bind_ok _ _ _ _ _ (get_redis_client_down w H)).
Qed.

Lemma get_cached_response_unusable (k text : string) (w : World) :
  redis_available w = true ->
  lookup_live k (redis w) = Some text ->
  text = EmptyString \/ (exists e, json_loads J text = Raise e) ->
  get_cached_response J k w = (Ok None, w).
Proof.
  intros Hup Hget Hbad. unfold get_cached_response.
  rewrite (bind_ok _ _ _ _ _ (get_redis_client_up w Hup)). unfold try_except.
  rewrite (bind_ok _ _ _ _ _ (on_redis_get k w)), Hget.
  destruct Hbad as [->|[e He]]; [reflexivity|].
  destruct (bool_decide (text = EmptyString)); [reflexivity|].
  unfold bind. now rewrite He.
Qed.

Lemma store_response_down (k : string) (doc : json) (ttl : Z) (w : World) :
  redis_available w = false -> store_response J k doc ttl w = (Ok false, w).
Proof.
  intros H. unfold store_response.
  now rewrite (bind_ok _ _ _ _ _ (get_redis_client_down w H)).
Qed.

Lemma store_response_refused (k : string) (doc : json) (ttl : Z) (w : World)
    (b : bool) :
  get_redis_client w = (Ok b, w) ->
  ttl <= 0 \/ (exists e, json_dumps J doc = Raise e) ->
  store_response J k doc ttl w = (Ok false, w).
Proof.
  intros H Hbad. unfold store_response. rewrite (bind_ok _ _ _ _ _ H).
  destruct b; [|reflexivity].
  unfold try_except. unfold bind at 1.
  destruct (json_dumps J doc) as [text|e] eqn:Hd.
  - destruct Hbad as [Ht|[e He]]; [|discriminate He].
    unfold Redis.setex. apply Z.leb_le in Ht. rewrite Ht.
    unfold bind. now rewrite on_redis_raise.
  - reflexivity.
Qed.

(** The wrapper once the lookup has come back empty-handed. *)
Lemma idempotent_falls_through (ttl : Z) (func : M World pyobj)
    (key path : string) (w : World) :
  key <> EmptyString ->
  get_cached_response J (generate_key key path) w = (Ok None, w) ->
  idempotent J ttl func (Some key) (Some path) w
  = execute_and_store J (generate_key key path) ttl func w.
Proof.
  intros Hkey Hmiss. unfold idempotent.
  destruct key as [|c key]; [congruence|].
  simpl default. now rewrite (bind_ok _ _ _ _ _ Hmiss).
Qed.

Lemma idempotent_found (ttl : Z) (func : M World pyobj)
    (key path : string) (doc : json) (w : World) :
  key <> EmptyString ->
  get_cached_response J (generate_key key path) w = (Ok (Some doc), w) ->
  idempotent J ttl func (Some key) (Some path) w
  = if truthy doc then
      (content <- subscript_body doc ;;
       status_code <- get_status_code doc ;;
       JSONResponse__init__ content status_code) w
    else execute_and_store J (generate_key key path) ttl func w.
Proof.
  intros Hkey Hhit. unfold idempotent.
  destruct key as [|c key]; [congruence|].
  simpl default. rewrite (bind_ok _ _ _ _ _ Hhit).
  destruct (truthy doc); reflexivity.
Qed.

End WithCodec.

End IdempotencyMoreFacts.

Section IdempotencyMoreTheorems.
Import Idempotency IdempotencyAux IdempotencyFacts IdempotencyExamples.
Import IdempotencyDeps IdempotencyMoreFacts IdempotencyMoreExamples.

(** X25 -- Without a key, or without Redis, the wrapper is the
    endpoint.  With the header missing or empty the wrapper runs the
    endpoint and nothing else.  With the store unreachable (also after
    the endpoint has run) it returns or raises exactly what the endpoint
    did and leaves the world the endpoint left. *)
Theorem idempotent_without_redis_is_the_endpoint
    (J : Codec) (ttl : Z) (func : M World pyobj)
    (key request : option string) (w : World) :
  (key = None \/ key = Some EmptyString ->
     idempotent J ttl func key request w = func w)
  /\ (redis_available w = false ->
      redis_available (func w).2 = false ->
      idempotent J ttl func key request w = func w).
Proof.
  split.
  - intros [->| ->]; reflexivity.
  - intros Hdown Hstill. unfold idempotent.
    destruct key as [[|c k]|]; [reflexivity | | reflexivity].
    rewrite (bind_ok _ _ _ _ _ (get_cached_response_down J _ w Hdown)).
    unfold execute_and_store, bind at 1.
    destruct (func w) as [[res|e] wf]; [|reflexivity]. simpl in Hstill.
    destruct (as_dict res); [|reflexivity].
    now rewrite (bind_ok _ _ _ _ _ (store_response_down J _ _ ttl wf Hstill)).
Qed.

Lemma idempotent_without_redis_is_the_endpoint_witness :
  idempotent JsonText.codec 3600 mint_endpoint None (Some "/token/mint") world0
    = mint_endpoint world0
  /\ idempotent JsonText.codec 3600 mint_endpoint (Some "mint-7f3a9c1b")
       (Some "/token/mint") offline
     = mint_endpoint offline.
Proof.
  split.
  - destruct (idempotent_without_redis_is_the_endpoint JsonText.codec 3600
                mint_endpoint None (Some "/token/mint") world0) as (H & _).
    apply H. now left.
  - destruct (idempotent_without_redis_is_the_endpoint JsonText.codec 3600
                mint_endpoint (Some "mint-7f3a9c1b") (Some "/token/mint") offline)
      as (_ & H).
    apply H; reflexivity.
Defined.

(** X26 -- The cache helpers raise what [get_redis_client()] raises,
    and nothing else.  [get_redis_client()] either returns, leaving the
    world alone, or raises.  When it raises -- a malformed [REDIS_URL],
    a timeout of the first [ping] -- [get_cached_response] and
    [store_response] raise the same exception: the call is made before
    their [try].  When it returns, neither helper raises, whatever the
    store holds and whatever [json.dumps] and [json.loads] do:
    [get_cached_response] returns a document or [None] and leaves the
    world alone; [store_response] returns a boolean, has written nothing
    when that is [False], and never touches anything but the store. *)
Theorem cache_helpers_raise_only_from_get_redis_client
    (J : Codec) (key : string) (response_data : json) (ttl : Z) (w : World) :
  ((exists b, get_redis_client w = (Ok b, w))
   \/ (exists e w', get_redis_client w = (Raise e, w')))
  /\ (forall e w', get_redis_client w = (Raise e, w') ->
        get_cached_response J key w = (Raise e, w')
        /\ store_response J key response_data ttl w = (Raise e, w'))
  /\ (forall b, get_redis_client w = (Ok b, w) ->
        (exists r, get_cached_response J key w = (Ok r, w))
        /\ exists (stored_ok : bool) (w' : World),
             store_response J key response_data ttl w = (Ok stored_ok, w')
             /\ (stored_ok = false -> w' = w)
             /\ redis_available w' = redis_available w
             /\ app_state w' = app_state w).
Proof.
  split; [apply get_redis_client_cases|]. split.
  - intros e w' H. split;
      [now apply get_cached_response_raises | now apply store_response_raises].
  - intros b H. split; [now apply (get_cached_response_total J key w b)|].
    destruct (get_redis_client_returns w w b H) as (_ & Hb).
    destruct b.
    2:{ exists false, w. now rewrite (store_response_down J key _ ttl w Hb). }
    destruct (json_dumps J response_data) as [text|e] eqn:Hd.
    2:{ exists false, w. rewrite (store_response_refused J key _ ttl w true H); [auto|].
        right. now exists e. }
    destruct (Z.leb_spec ttl 0) as [Ht|Ht].
    + exists false, w. rewrite (store_response_refused J key _ ttl w true H); auto.
    + exists true, (stored key text ttl w).
      rewrite (store_response_ok J key text _ ttl w Hb Hd Ht).
      split; [reflexivity|]. split; [discriminate|].
      split; reflexivity.
Qed.

Lemma cache_helpers_raise_only_from_get_redis_client_witness :
  let bad_url := mk_exn ValueError "Redis URL must specify one of the following schemes" in
  let timed_out := mk_exn RedisTimeoutError "Timeout connecting to server" in
  let doc := cache_doc queued in
  (get_cached_response JsonText.codec "k" (misconfigured bad_url false)
     = (Raise bad_url, misconfigured bad_url false)
   /\ store_response JsonText.codec "k" doc 3600 (misconfigured timed_out true)
      = (Raise timed_out, world0))
  /\ (exists r, get_cached_response JsonText.codec "k" world0 = (Ok r, world0))
  /\ exists (stored_ok : bool) (w' : World),
       store_response JsonText.codec "k" doc 3600 world0 = (Ok stored_ok, w')
       /\ (stored_ok = false -> w' = world0)
       /\ redis_available w' = redis_available world0
       /\ app_state w' = app_state world0.
Proof.
  intros bad_url timed_out doc. split; [split|].
  - destruct (cache_helpers_raise_only_from_get_redis_client JsonText.codec "k" doc
                3600 (misconfigured bad_url false)) as (_ & H & _).
    apply (H bad_url (misconfigured bad_url false)). reflexivity.
  - destruct (cache_helpers_raise_only_from_get_redis_client JsonText.codec "k" doc
                3600 (misconfigured timed_out true)) as (_ & H & _).
    apply (H timed_out world0). reflexivity.
  - destruct (cache_helpers_raise_only_from_get_redis_client JsonText.codec "k" doc
                3600 world0) as (_ & _ & H).
    apply (H true). reflexivity.
Defined.

(** X27 -- How the wrapper reads a cached entry.  An entry that is the
    empty string, that [json.loads] rejects, or that decodes to a falsy
    value counts as a miss: the endpoint runs.  A non-empty dictionary
    with a ["body"] is replayed as [JSONResponse] with the stored
    ["status_code"], 200 when there is none, provided that status code
    is a number; a status code that is [null], a string, a list or a
    dictionary makes the constructor raise [TypeError].  A non-empty
    dictionary without ["body"] raises [KeyError], and any other truthy
    value raises [TypeError].  In all the raising cases the endpoint is
    not run and the world is unchanged. *)
Theorem cached_entry_interpretation
    (J : Codec) (ttl : Z) (func : M World pyobj) (key path text : string)
    (w : World) :
  let cache_key := generate_key key path in
  let call := idempotent J ttl func (Some key) (Some path) w in
  key <> EmptyString ->
  redis_available w = true ->
  lookup_live cache_key (redis w) = Some text ->
  (text = EmptyString
   \/ (exists e, json_loads J text = Raise e)
   \/ (exists doc, json_loads J text = Ok doc /\ truthy doc = false) ->
   call = execute_and_store J cache_key ttl func w)
  /\ (forall doc, text <> EmptyString -> json_loads J text = Ok doc ->
        truthy doc = true ->
        match doc with
        | JDict d =>
            match assoc "body" d with
            | Some body =>
                match default (JInt 200) (assoc "status_code" d) with
                | (JInt _ | JBool _) as status_code =>
                    call = (Ok (JSONResponse body status_code), w)
                | JNull | JStr _ | JList _ | JDict _ =>
                    exists e, call = (Raise e, w) /\ exc_cls e = TypeError
                end
            | None => exists e, call = (Raise e, w) /\ exc_cls e = KeyError
            end
        | _ => exists e, call = (Raise e, w) /\ exc_cls e = TypeError
        end).
Proof.
  intros cache_key call Hkey Hup Hget. split.
  - intros [Hempty|[Hbad|(doc & Hload & Hfalsy)]].
    + apply idempotent_falls_through; [exact Hkey|].
      apply (get_cached_response_unusable J _ text); auto.
    + apply idempotent_falls_through; [exact Hkey|].
      apply (get_cached_response_unusable J _ text); auto.
    + destruct (decide (text = EmptyString)) as [Hempty|Hne].
      * apply idempotent_falls_through; [exact Hkey|].
        apply (get_cached_response_unusable J _ text); auto.
      * subst call.
        rewrite (idempotent_found J ttl func key path doc w Hkey
                   (get_cached_response_hit J _ text doc w Hup Hget Hne Hload)).
        now rewrite Hfalsy.
  - intros doc Hne Hload Htruthy. subst call.
    rewrite (idempotent_found J ttl func key path doc w Hkey
               (get_cached_response_hit J _ text doc w Hup Hget Hne Hload)).
    rewrite Htruthy.
    destruct doc as [ |b|z|s|items|d]; try (eexists; split; reflexivity).
    unfold subscript_body, get_status_code.
    destruct (assoc "body" d) as [body|]; [|eexists; split; reflexivity].
    rewrite bind_ret, bind_ret.
    destruct (default (JInt 200) (assoc "status_code" d));
      first [reflexivity | eexists; split; reflexivity].
Qed.

Lemma cached_entry_interpretation_witness :
  let key := "mint-7f3a9c1b" in
  let path := "/token/mint" in
  let cache_key := generate_key key path in
  let created := JDict [("body", JDict queued); ("status_code", JInt 201)] in
  let quoted := JDict [("body", JDict queued); ("status_code", JStr "201")] in
  let call (text : string) :=
    idempotent JsonText.codec 3600 mint_endpoint (Some key) (Some path)
      (holding cache_key text) in
  call "{not json"
    = execute_and_store JsonText.codec cache_key 3600 mint_endpoint
        (holding cache_key "{not json")
  /\ call (JsonText.print created)
     = (Ok (JSONResponse (JDict queued) (JInt 201)),
        holding cache_key (JsonText.print created))
  /\ exists e, call (JsonText.print quoted)
                 = (Raise e, holding cache_key (JsonText.print quoted))
               /\ exc_cls e = TypeError.
Proof.
  intros key path cache_key created quoted call. split; [|split].
  - destruct (cached_entry_interpretation JsonText.codec 3600 mint_endpoint
                key path "{not json" (holding cache_key "{not json"))
      as (H & _); [discriminate | reflexivity | reflexivity |].
    apply H. right. left. eexists. vm_compute. reflexivity.
  - destruct (cached_entry_interpretation JsonText.codec 3600 mint_endpoint
                key path (JsonText.print created)
                (holding cache_key (JsonText.print created)))
      as (_ & H); [discriminate | reflexivity | reflexivity |].
    apply (H created);
      [vm_compute; discriminate | vm_compute; reflexivity | reflexivity].
  - destruct (cached_entry_interpretation JsonText.codec 3600 mint_endpoint
                key path (JsonText.print quoted)
                (holding cache_key (JsonText.print quoted)))
      as (_ & H); [discriminate | reflexivity | reflexivity |].
    apply (H quoted);
      [vm_compute; discriminate | vm_compute; reflexivity | reflexivity].
Defined.

(** X28 -- Cache keys tell requests apart.  On one path, two
    idempotency keys give the same cache key only when they are equal.
    Across paths that contain no colon, equal cache keys mean the same
    path and the same idempotency key.  A colon in the path breaks this:
    the path [p:k1] with key [k2] and the path [p] with key [k1:k2] share
    one cache key. *)
Theorem generate_key_separates_requests (k1 k2 p1 p2 : string) :
  (generate_key k1 p1 = generate_key k2 p1 -> k1 = k2)
  /\ (contains ":" p1 = false -> contains ":" p2 = false ->
      generate_key k1 p1 = generate_key k2 p2 -> p1 = p2 /\ k1 = k2)
  /\ generate_key k2 (p1 +:+ ":" +:+ k1) = generate_key (k1 +:+ ":" +:+ k2) p1.
Proof.
  unfold generate_key. split; [|split].
  - intros H. apply BreakerFacts.string_app_inv_head in H.
    apply BreakerFacts.string_app_inv_head in H.
    now apply (BreakerFacts.string_app_inv_head ":") in H.
  - intros H1 H2 H. apply BreakerFacts.string_app_inv_head in H.
    now apply split_at_colon.
  - f_equal. now rewrite !append_assoc.
Qed.

Lemma generate_key_separates_requests_witness :
  (generate_key "mint-7f3a9c1b" "/token/mint" = generate_key "mint-7f3a9c1b" "/token/mint"
   -> "mint-7f3a9c1b" = "mint-7f3a9c1b")
  /\ (generate_key "mint-7f3a9c1b" "/token/mint"
        = generate_key "mint-7f3a9c1b" "/token/mint"
      -> "/token/mint" = "/token/mint" /\ "mint-7f3a9c1b" = "mint-7f3a9c1b")
  /\ generate_key "k2-000000" ("/token" +:+ ":" +:+ "k1-000000")
     = generate_key ("k1-000000" +:+ ":" +:+ "k2-000000") "/token".
Proof.
  destruct (generate_key_separates_requests "mint-7f3a9c1b" "mint-7f3a9c1b"
              "/token/mint" "/token/mint") as (H1 & H2 & _).
  destruct (generate_key_separates_requests "k1-000000" "k2-000000"
              "/token" "/token") as (_ & _ & H3).
  split; [exact H1|]. split; [|exact H3].
  apply H2; reflexivity.
Defined.

(** X29 -- On a miss the caller gets what the endpoint did, and only
    successes can be cached.  When the endpoint raises, the wrapper
    raises the same exception and stores nothing.  When the endpoint
    returns a [dict] but the entry cannot be written -- a [ttl] of zero
    or less, which the store refuses, or a body that [json.dumps]
    rejects -- the wrapper still returns the [dict], and the world is the
    one the endpoint left.  This with [get_redis_client()] returning
    after the endpoint as it did before (it returns the client it holds);
    were it to raise there, the wrapper would raise that exception, the
    endpoint having run. *)
Theorem miss_returns_what_the_endpoint_did
    (J : Codec) (ttl : Z) (func : M World pyobj) (key path : string)
    (w wf : World) :
  let call := idempotent J ttl func (Some key) (Some path) w in
  key <> EmptyString ->
  redis_available w = true ->
  lookup_live (generate_key key path) (redis w) = None ->
  (forall e, func w = (Raise e, wf) -> call = (Raise e, wf))
  /\ (forall d b, func w = (Ok (PyValue (JDict d)), wf) ->
        get_redis_client wf = (Ok b, wf) ->
        ttl <= 0 \/ (exists e, json_dumps J (cache_doc d) = Raise e) ->
        call = (Ok (PyValue (JDict d)), wf))
  /\ (forall d e w', func w = (Ok (PyValue (JDict d)), wf) ->
        get_redis_client wf = (Raise e, w') ->
        call = (Raise e, w')).
Proof.
  intros call Hkey Hup Hmiss. subst call.
  rewrite (idempotent_miss J ttl func key path w Hkey Hup Hmiss).
  unfold execute_and_store. split; [|split].
  - intros e Hf. now rewrite (bind_raise _ _ _ _ _ Hf).
  - intros d b Hf Hclient Hbad. rewrite (bind_ok _ _ _ _ _ Hf).
    change (as_dict (PyValue (JDict d))) with (Some d). cbv iota beta.
    fold (cache_doc d).
    now rewrite (bind_ok _ _ _ _ _
                   (store_response_refused J _ _ ttl wf b Hclient Hbad)).
  - intros d e w' Hf Hclient. rewrite (bind_ok _ _ _ _ _ Hf).
    change (as_dict (PyValue (JDict d))) with (Some d). cbv iota beta.
    fold (cache_doc d).
    now rewrite (bind_raise _ _ _ _ _
                   (store_response_raises J _ _ ttl wf w' e Hclient)).
Qed.

Lemma miss_returns_what_the_endpoint_did_witness :
  idempotent JsonText.codec 3600 broken_endpoint (Some "mint-7f3a9c1b")
    (Some "/token/mint") world0
    = (Raise (mk_exn RuntimeError "mint failed"), (broken_endpoint world0).2)
  /\ idempotent JsonText.codec 0 mint_endpoint (Some "mint-7f3a9c1b")
       (Some "/token/mint") world0
     = (Ok (PyValue (JDict queued)), (mint_endpoint world0).2).
Proof.
  split.
  - destruct (miss_returns_what_the_endpoint_did JsonText.codec 3600
                broken_endpoint "mint-7f3a9c1b" "/token/mint" world0
                (broken_endpoint world0).2) as (H & _);
      [discriminate | reflexivity | reflexivity |].
    apply H. reflexivity.
  - destruct (miss_returns_what_the_endpoint_did JsonText.codec 0
                mint_endpoint "mint-7f3a9c1b" "/token/mint" world0
                (mint_endpoint world0).2) as (_ & H & _);
      [discriminate | reflexivity | reflexivity |].
    apply (H queued true); [reflexivity | reflexivity | left; lia].
Defined.

(** X30 -- [require_idempotency_key] checks the length and nothing else:
    a key is accepted, and handed on unchanged, exactly when it has 8 to
    64 characters, whatever the characters are; a missing, empty, short
    or long key is answered with status 400. *)
Theorem require_idempotency_key_checks_length_only (header : option string) :
  (forall key,
      require_idempotency_key header = Accepted key
      <-> header = Some key
          /\ (8 <= String.length key)%nat /\ (String.length key <= 64)%nat)
  /\ forall status_code detail,
       require_idempotency_key header = HTTPException status_code detail ->
       status_code = 400.
Proof.
  unfold require_idempotency_key. split.
  - intros key. destruct header as [[|c k]|].
    + split; [discriminate|]. intros ([= <-] & H & _). simpl in H. lia.
    + destruct (_ || _) eqn:E.
      * split; [discriminate|]. intros ([= <-] & H1 & H2).
        apply orb_true_iff in E. destruct E as [E|E]; apply Z.ltb_lt in E; lia.
      * apply orb_false_iff in E. destruct E as [E1 E2].
        apply Z.ltb_ge in E1, E2.
        split; [intros [= <-]|intros ([= <-] & _); reflexivity].
        split; [reflexivity|]. lia.
    + split; [discriminate|]. intros (H & _). discriminate H.
  - intros code detail. destruct header as [[|c k]|].
    + now intros [= <- _].
    + destruct (_ || _); [now intros [= <- _] | discriminate].
    + now intros [= <- _].
Qed.

End IdempotencyMoreTheorems.
